(** * Repository backends of vscode-sync-settings: WebDAV and local Git

    A shallow embedding of [src/repositories/webdav.ts] (class
    [WebDAVRepository]) and of the local Git backend (class
    [LocalGitRepository]), with the properties their specification states.

    The code is asynchronous but strictly sequential (every call is
    awaited), so a method is a function from the state of the world to an
    outcome and a new state.  The state holds the instance fields, the local
    disk, the remote side, and the list of the requests issued so far.

    Everything outside the two classes is a parameter: the remote store
    behind [WebDAVFS], the Git client behind [SimpleGit], the methods of the
    base class [FileRepository], [TemporaryRepository] and [globby]. *)

From Stdlib Require Import ZArith Lia Ascii String.
From stdpp Require Import base option list strings gmap fin_maps.

Set Default Proof Using "Type".
Open Scope string_scope.
Open Scope list_scope.
Open Scope nat_scope.

(** ** Paths

    [Uri] of vscode, as far as the code uses it: an absolute path, kept as
    the list of its segments below the root, so that ['/'] is [[]] and
    ['/a/b'] is [["a"; "b"]]; [dir.path] is the path itself, which is what
    the map [exists] is keyed on.  A local path is a list of segments as
    well.

    [path.join] and [Uri.joinPath] normalise what they join: an argument is
    cut at its separators, an empty piece and ['.'] are dropped, and ['..']
    steps to the parent.  So a name that comes from a listing of the server
    is one more segment only when it is a plain name. *)

Abbreviation Uri := (list string).

Definition Uri_root : Uri := [].

(** [Uri.file(file)] for a path relative to the root. *)
Definition Uri_file (file : list string) : Uri := file.

(** [Uri.joinPath(dir, '..')]: the root is its own parent. *)
Definition Uri_parent (dir : Uri) : Uri := removelast dir.

(** The pieces of an argument between its separators ['/']. *)
Fixpoint segments (s : string) : list string :=
  match s with
  | EmptyString => [EmptyString]
  | String c s' =>
      if bool_decide (c = "/"%char) then EmptyString :: segments s'
      else match segments s' with
           | seg :: rest => String c seg :: rest
           | [] => [String c EmptyString]
           end
  end.

(** One piece joined to a path that is normalised already. *)
Definition resolve (acc : list string) (seg : string) : list string :=
  if bool_decide (seg = EmptyString) || bool_decide (seg = ".") then acc
  else if bool_decide (seg = "..") then removelast acc
  else acc ++ [seg].

(** [Uri.joinPath(dir, name)] *)
Definition Uri_joinPath (dir : Uri) (name : string) : Uri :=
  foldl resolve dir (segments name).

(** [path.join(a, b1, ..., bn)], for [a] normalised and [b] the list of
    the arguments [b1], ..., [bn]. *)
Definition path_join (a b : list string) : list string :=
  foldl resolve a (flat_map segments b).

(** A plain name: one piece, and a name of its own. *)
Definition plain (n : string) : bool :=
  bool_decide (segments n = [n])
  && negb (bool_decide (n = EmptyString) || bool_decide (n = ".")
           || bool_decide (n = "..")).

(** A path as the string the log shows. *)
Definition Uri_path (dir : Uri) : string :=
  "/" +:+ String.concat "/" dir.

(** ** JavaScript values and errors *)

Inductive JsValue :=
| JsUndefined
| JsNumber (n : Z)
| JsString (s : string).

Global Instance JsValue_eq_dec : EqDecision JsValue.
Proof. solve_decision. Defined.

(** What the code reads of a thrown value: [error?.code], [error?.status]
    and [String(error)]. *)
Record JsError := mkError {
  code : JsValue;
  status : JsValue;
  String_ : string
}.

Definition errno (c : string) : JsError :=
  {| code := JsString c; status := JsUndefined; String_ := "Error: " +:+ c |}.

Abbreviation result A := (JsError + A)%type.

(** ** The requests a method issues, in the order it issues them *)

Inductive CommitType := CREATE | UPLOAD.

Inductive event :=
(* Logger *)
| LogInfo (msg : string)
| LogError (msg : string)
(* the remote store: this._fs *)
| RStat (p : Uri) (ok : bool)
| RMkdir (p : Uri) (ok : bool)
| RReaddir (p : Uri)
| RReadFile (p : Uri)
| RWriteFile (p : Uri) (data : string)
(* the assignment exists[p] = true *)
| Mark (p : Uri)
(* the local disk: fs, fse *)
| LRemove (p : list string)
| LMkdir (p : list string)
| LMkdirs (p : list string)
| LWriteFile (p : list string) (data : string)
| LReadFile (p : list string)
(* the Git client: this._git *)
| GCwd (p : list string)
| GCheckIsRepo
| GInit (branch : string)
| GAdd
| GStatus (staged : list (list string))
| GCommit (message : string)
(* the base class and TemporaryRepository *)
| CheckInitialized
| SuperInitialize
| SuperDownload
| SuperUpload
| SuperDuplicateProfileTo (originalProfile newProfile : string)
| TemporaryInitialize.

Global Instance CommitType_eq_dec : EqDecision CommitType.
Proof. solve_decision. Defined.

Global Instance event_eq_dec : EqDecision event.
Proof. solve_decision. Defined.

(** ** The local disk *)

Inductive node :=
| File (data : string)
| Dir.

Global Instance node_eq_dec : EqDecision node.
Proof. solve_decision. Defined.

(** A disk maps the paths that exist to what is there; the root [[]] is a
    directory that always exists and has no entry. *)
Abbreviation Disk := (gmap (list string) node).

Definition is_dir (d : Disk) (p : list string) : bool :=
  bool_decide (p = []) || bool_decide (d !! p = Some Dir).

Definition present (d : Disk) (p : list string) : bool :=
  bool_decide (p = []) || bool_decide (is_Some (d !! p)).

(** [fse.remove(p)]: [p] and everything below it; no error when absent. *)
Definition disk_remove (p : list string) (d : Disk) : Disk :=
  filter (λ kv, ¬ p `prefix_of` kv.1) d.

(** [fse.mkdir(p)], not recursive. *)
Definition disk_mkdir (p : list string) (d : Disk) : result Disk :=
  if present d p then inl (errno "EEXIST")
  else if is_dir d (removelast p) then inr (<[p := Dir]> d)
  else inl (errno "ENOENT").

(** [fs.mkdir(p, { recursive: true })] and [fse.ensureDir(p)]: every missing
    directory on the way to [pre ++ rest] is created. *)
Fixpoint disk_mkdirs (pre rest : list string) (d : Disk) : result Disk :=
  match rest with
  | [] => inr d
  | n :: rest' =>
      let q := pre ++ [n] in
      match d !! q with
      | Some (File _) => inl (errno "ENOTDIR")
      | Some Dir => disk_mkdirs q rest' d
      | None => disk_mkdirs q rest' (<[q := Dir]> d)
      end
  end.

(** [fs.writeFile(p, data, 'utf8')] *)
Definition disk_writeFile (p : list string) (data : string) (d : Disk) : result Disk :=
  if is_dir d p then inl (errno "EISDIR")
  else if is_dir d (removelast p) then inr (<[p := File data]> d)
  else inl (errno "ENOENT").

(** [fs.readFile(p, 'utf8')] *)
Definition disk_readFile (p : list string) (d : Disk) : result string :=
  match d !! p with
  | Some (File data) => inr data
  | Some Dir => inl (errno "EISDIR")
  | None => if bool_decide (p = []) then inl (errno "EISDIR") else inl (errno "ENOENT")
  end.

(** *** Text

    The content of a file is the string of its bytes, UTF-8 text (binary
    content is out of scope).  [fs.readFile] and [fs.writeFile] with
    ['utf8'] keep such bytes as they are.  The answer of the server read as
    ['utf8'] text is decoded, and the decoder drops a byte order mark at
    the start: written again, the text is the bytes without the mark. *)

(** The byte order mark: the bytes EF BB BF. *)
Definition bom : string :=
  String (ascii_of_nat 239)
    (String (ascii_of_nat 187) (String (ascii_of_nat 191) EmptyString)).

Definition utf8_text (data : string) : string :=
  match data with
  | String a (String b (String c rest)) =>
      if bool_decide (String a (String b (String c EmptyString)) = bom)
      then rest else data
  | _ => data
  end.

(** What is at a path of the server, read as text. *)
Definition text_node (x : node) : node :=
  match x with
  | File data => File (utf8_text data)
  | Dir => Dir
  end.

(** ** The base class

    [FileRepository] is not part of the two classes: its fields are a
    record, its methods are parameters of the sections below. *)

Record FileRepository := mkFileRepository {
  rootPath : list string;
  profile : string;
  initialized : bool;
  disk : Disk
}.

Definition set_disk (d : Disk) (r : FileRepository) : FileRepository :=
  {| rootPath := rootPath r; profile := profile r;
     initialized := initialized r; disk := d |}.

Definition set_initialized (b : bool) (r : FileRepository) : FileRepository :=
  {| rootPath := rootPath r; profile := profile r;
     initialized := b; disk := disk r |}.

Abbreviation BaseMethod := (FileRepository → result unit * FileRepository)%type.

(** ** Outcomes and the state monad *)

Inductive outcome (A : Type) :=
| Returned (a : A)
| Thrown (e : JsError)
| OutOfFuel.
Arguments Returned {A} a.
Arguments Thrown {A} e.
Arguments OutOfFuel {A}.

(** The world of a backend with fields [B] besides those of the base class. *)
Record world (B : Type) := World {
  repo : FileRepository;
  backend : B;
  trace : list event
}.
Arguments World {B} repo backend trace.
Arguments repo {B} w.
Arguments backend {B} w.
Arguments trace {B} w.

Definition M (B A : Type) : Type := world B → outcome A * world B.

Section Monad.
Context {B : Type}.

Definition ret {A} (a : A) : M B A := λ w, (Returned a, w).

Definition bind {A C} (m : M B A) (k : A → M B C) : M B C :=
  λ w, match m w with
       | (Returned a, w') => k a w'
       | (Thrown e, w') => (Thrown e, w')
       | (OutOfFuel, w') => (OutOfFuel, w')
       end.

Definition throw {A} (e : JsError) : M B A := λ w, (Thrown e, w).

Definition out_of_fuel {A} : M B A := λ w, (OutOfFuel, w).

(** [try { m } catch (error) { h(error) }] *)
Definition try_catch {A} (m : M B A) (h : JsError → M B A) : M B A :=
  λ w, match m w with
       | (Thrown e, w') => h e w'
       | r => r
       end.

Definition emit (e : event) : M B unit :=
  λ w, (Returned tt, World (repo w) (backend w) (trace w ++ [e])).

Definition get_repo : M B FileRepository := λ w, (Returned (repo w), w).

Definition get_backend : M B B := λ w, (Returned (backend w), w).

Definition put_repo (r : FileRepository) : M B unit :=
  λ w, (Returned tt, World r (backend w) (trace w)).

Definition put_backend (b : B) : M B unit :=
  λ w, (Returned tt, World (repo w) b (trace w)).

Definition lift_result {A} (r : result A) : M B A :=
  match r with
  | inl e => throw e
  | inr a => ret a
  end.
End Monad.

Declare Scope prog_scope.
Delimit Scope prog_scope with prog.
Notation "x <- m ;; k" := (bind m (λ x, k))
  (at level 100, m at next level, right associativity) : prog_scope.
Notation "m ;; k" := (bind m (λ _, k))
  (at level 100, right associativity) : prog_scope.
Open Scope prog_scope.

Section Base.
Context {B : Type}.

(** [for (const x of xs) { await body(x) }] *)
Fixpoint for_of {A} (xs : list A) (body : A → M B unit) : M B unit :=
  match xs with
  | [] => ret tt
  | x :: xs' => body x ;; for_of xs' body
  end.

(** A method of the base class, announced by [e]. *)
Definition call_base (e : event) (m : BaseMethod) : M B unit :=
  emit e ;;
  r <- get_repo ;;
  let '(res, r') := m r in
  put_repo r' ;;
  lift_result res.

(** A static helper that works on the disk alone, announced by [e]. *)
Definition call_static (e : event) (m : Disk → result unit * Disk) : M B unit :=
  emit e ;;
  r <- get_repo ;;
  let '(res, d') := m (disk r) in
  put_repo (set_disk d' r) ;;
  lift_result res.

Definition on_disk {A} (f : Disk → result A) : M B A :=
  r <- get_repo ;; lift_result (f (disk r)).

Definition update_disk (f : Disk → result Disk) : M B unit :=
  r <- get_repo ;;
  d <- lift_result (f (disk r)) ;;
  put_repo (set_disk d r).

Definition fse_remove (p : list string) : M B unit :=
  emit (LRemove p) ;; update_disk (λ d, inr (disk_remove p d)).

Definition fse_mkdir (p : list string) : M B unit :=
  emit (LMkdir p) ;; update_disk (disk_mkdir p).

Definition fs_mkdir_recursive (p : list string) : M B unit :=
  emit (LMkdirs p) ;; update_disk (disk_mkdirs [] p).

Definition fse_ensureDir (p : list string) : M B unit :=
  fs_mkdir_recursive p.

Definition fs_writeFile (p : list string) (data : string) : M B unit :=
  emit (LWriteFile p data) ;; update_disk (disk_writeFile p data).

Definition fs_readFile (p : list string) : M B string :=
  emit (LReadFile p) ;; on_disk (disk_readFile p).

Definition Logger_info (msg : string) : M B unit := emit (LogInfo msg).

Definition Logger_error (msg : string) : M B unit := emit (LogError msg).
End Base.

(** Modelled from the spec: [checkInitialized] of the base class, the
    precondition check of the initialized flag; on an instance that is not
    initialized it is a fault. *)
Definition checkInitialized {B} : M B unit :=
  emit CheckInitialized ;;
  r <- get_repo ;;
  if initialized r then ret tt
  else throw {| code := JsUndefined; status := JsUndefined;
              String_ := "Error: not initialized" |}.

(** Modelled from the spec: [exists] of [utils/exists], whether something is
    at the path. *)
Definition exists_ {B} (p : list string) : M B bool :=
  r <- get_repo ;; ret (present (disk r) p).

(** * The WebDAV backend: [WebDAVRepository] *)

Module WebDAV.

(** An entry of a remote listing, as far as the code reads it. *)
Record FsStat := mkStat {
  name : string;
  isDirectory : bool
}.

(** The interface [WebDAVFS] of the source, over the states [Remote] of the
    server: every request answers (or fails) and may change the server. *)
Record WebDAVFS (Remote : Type) := {
  mkdir : Uri → Remote → result unit * Remote;
  readdir : Uri → Remote → result (list FsStat) * Remote;
  readFile : Uri → Remote → result string * Remote;
  stat : Uri → Remote → result FsStat * Remote;
  writeFile : Uri → string → Remote → result unit * Remote
}.
Arguments mkdir {Remote} _ _ _.
Arguments readdir {Remote} _ _ _.
Arguments readFile {Remote} _ _ _.
Arguments stat {Remote} _ _ _.
Arguments writeFile {Remote} _ _ _ _.

(** A listing whose names are plain names. *)
Definition plain_listing (files : list FsStat) : Prop :=
  Forall (λ f, plain (name f) = true) files.

(** A server that lists plain names only, as long as it is in a state that
    satisfies [I]; reading it keeps [I]. *)
Definition plain_server {Remote} (fs : WebDAVFS Remote) (I : Remote → Prop)
    : Prop :=
  ∀ rem p, I rem →
    I (readdir fs p rem).2 ∧ I (readFile fs p rem).2
    ∧ ∀ files, (readdir fs p rem).1 = inr files → plain_listing files.

(** The fields of the class, the server it talks to, and the object
    [exists] of the push in progress: the code passes that object by
    reference to every [pushFile] and [ensureDir] of one push, so it is one
    cell of the state. *)
Record fields (Remote : Type) := mkFields {
  url : string;
  remote : Remote;
  exists_cache : gmap Uri bool
}.
Arguments mkFields {Remote} url remote exists_cache.
Arguments url {Remote} f.
Arguments remote {Remote} f.
Arguments exists_cache {Remote} f.

(** The double quote of the messages, by its code. *)
Definition dquote : string := String (Ascii.ascii_of_nat 34) EmptyString.

Definition is_ok {A} (r : result A) : bool :=
  match r with inl _ => false | inr _ => true end.

Section Repository.
Context {Remote : Type}.
Variable fs : WebDAVFS Remote.
Variable globby : list string → Disk → list (list string).
Variable TemporaryRepository_initialize : Disk → result unit * Disk.
Variables super_initialize super_download super_upload : BaseMethod.

Abbreviation Prog := (M (fields Remote)).

(** A request to the server: the answer comes back, the server moves on. *)
Definition request {A} (f : Remote → result A * Remote)
    (ev : result A → option event) : Prog A :=
  b <- get_backend ;;
  let '(res, r') := f (remote b) in
  put_backend (mkFields (url b) r' (exists_cache b)) ;;
  match ev res with Some e => emit e | None => ret tt end ;;
  lift_result res.

Definition this_fs_stat (p : Uri) : Prog FsStat :=
  request (stat fs p) (λ res, Some (RStat p (is_ok res))).

Definition this_fs_mkdir (p : Uri) : Prog unit :=
  request (mkdir fs p) (λ res, Some (RMkdir p (is_ok res))).

Definition this_fs_readdir (p : Uri) : Prog (list FsStat) :=
  request (readdir fs p) (λ _, Some (RReaddir p)).

Definition this_fs_readFile (p : Uri) : Prog string :=
  request (readFile fs p) (λ _, Some (RReadFile p)).

Definition this_fs_writeFile (p : Uri) (data : string) : Prog unit :=
  request (writeFile fs p data) (λ _, Some (RWriteFile p data)).

(** [exists[dir.path]] as a condition. *)
Definition cached (c : gmap Uri bool) (dir : Uri) : bool :=
  match c !! dir with Some true => true | _ => false end.

(** [exists[dir.path] = true] *)
Definition mark (dir : Uri) : Prog unit :=
  b <- get_backend ;;
  put_backend (mkFields (url b) (remote b) (<[dir := true]> (exists_cache b))) ;;
  emit (Mark dir).

(** [const exists = {}] *)
Definition new_exists : Prog unit :=
  b <- get_backend ;;
  put_backend (mkFields (url b) (remote b) ∅).

(** [ensureDir(dir, exists)].  The recursion of the source is on the parent
    of [dir]; [fuel] bounds its depth. *)
Fixpoint ensureDir_fuel (fuel : nat) (dir : Uri) : Prog unit :=
  match fuel with
  | 0 => out_of_fuel
  | S fuel' =>
      b <- get_backend ;;
      if cached (exists_cache b) dir then ret tt
      else
        (if bool_decide (dir ≠ Uri_root)
         then ensureDir_fuel fuel' (Uri_parent dir)
         else ret tt) ;;
        try_catch (this_fs_stat dir ;; ret tt) (λ _, this_fs_mkdir dir) ;;
        mark dir
  end.

(** The end of [ensureDir] on its own, from the [try] on: the lemmas on
    [ensureDir] go through it. *)
Definition settle (dir : Uri) : Prog unit :=
  try_catch (this_fs_stat dir ;; ret tt) (λ _, this_fs_mkdir dir) ;;
  mark dir.

(** The depth of [dir] and one more call is all the recursion needs: the
    parent of a path is shorter, and the root has no recursive call. *)
Definition ensureDir (dir : Uri) : Prog unit :=
  ensureDir_fuel (S (length dir)) dir.

Definition pushFile (localFile : list string) (remoteFile : Uri) : Prog unit :=
  Logger_info ("push file: " +:+ Uri_path remoteFile) ;;
  ensureDir (Uri_parent remoteFile) ;;
  data <- fs_readFile localFile ;;
  this_fs_writeFile remoteFile data.

Definition push : Prog unit :=
  Logger_info "push to webdav" ;;
  r <- get_repo ;;
  let files := globby (rootPath r) (disk r) in
  new_exists ;;
  for_of files (λ file,
    pushFile (path_join (rootPath r) file) (Uri_file file)) ;;
  Logger_info "push done".

Definition pullFile (localFile : list string) (remoteFile : Uri) : Prog unit :=
  data <- this_fs_readFile remoteFile ;;
  fs_writeFile localFile data.

(** [pullDirectory(localDir, remoteDir)]: the recursion follows the remote
    listing, [fuel] bounds its depth. *)
Fixpoint pullDirectory (fuel : nat) (localDir : list string) (remoteDir : Uri)
    : Prog unit :=
  match fuel with
  | 0 => out_of_fuel
  | S fuel' =>
      fse_mkdir localDir ;;
      files <- this_fs_readdir remoteDir ;;
      for_of files (λ file,
        if isDirectory file
        then pullDirectory fuel' (path_join localDir [name file])
               (Uri_joinPath remoteDir (name file))
        else pullFile (path_join localDir [name file])
               (Uri_joinPath remoteDir (name file)))
  end.

Definition pull (fuel : nat) : Prog unit :=
  Logger_info "pull from webdav" ;;
  r <- get_repo ;;
  fse_remove (rootPath r) ;;
  fse_mkdir (rootPath r) ;;
  files <- this_fs_readdir Uri_root ;;
  for_of files (λ file,
    if isDirectory file
    then pullDirectory fuel (path_join (rootPath r) [name file])
           (Uri_file [name file])
    else pullFile (path_join (rootPath r) [name file])
           (Uri_file [name file])) ;;
  Logger_info "pull done".

Definition download (fuel : nat) : Prog unit :=
  checkInitialized ;;
  pull fuel ;;
  call_base SuperDownload super_download.

Definition upload : Prog unit :=
  checkInitialized ;;
  call_base SuperUpload super_upload ;;
  push.

(** The three messages of the health check, and the fallback. *)
Definition refused_message (u : string) : string :=
  "The connection to " +:+ dquote +:+ u +:+ dquote +:+ " is refused.".

Definition unauthorized_message (u : string) : string :=
  "The connection to " +:+ dquote +:+ u +:+ dquote +:+ " isn't authorized.".

Definition not_found_message (u : string) : string :=
  "The url " +:+ dquote +:+ u +:+ dquote +:+ " can't be found.".

(** The [catch] block of [initialize], up to its [return]. *)
Definition health_message (u : string) (error : JsError) : string :=
  if bool_decide (code error = JsString "ECONNREFUSED") then refused_message u
  else if bool_decide (status error = JsNumber 401) then unauthorized_message u
  else if bool_decide (status error = JsNumber 404) then not_found_message u
  else String_ error.

(** [initialize()]: the [return] of the [catch] block leaves the method, so
    the [try] answers whether to go on. *)
Definition initialize : Prog unit :=
  call_static TemporaryInitialize TemporaryRepository_initialize ;;
  b <- get_backend ;;
  healthy <-
    try_catch (this_fs_stat Uri_root ;; ret true)
      (λ error, Logger_error (health_message (url b) error) ;; ret false) ;;
  if healthy : bool then call_base SuperInitialize super_initialize
  else ret tt.

End Repository.
End WebDAV.

(** * The local Git backend: [LocalGitRepository] *)

Module LocalGit.

(** [status()] as far as the code reads it. *)
Record StatusResult := mkStatus {
  staged : list (list string)
}.

(** The part of [SimpleGit] the class uses, over the states [Repo] of the
    repository; a command reads the disk and may fail. *)
Record SimpleGit (Repo : Type) := {
  cwd : list string → Repo → result unit * Repo;
  checkIsRepo : Disk → Repo → result bool * Repo;
  init : string → Disk → Repo → result unit * Repo;
  add : string → Disk → Repo → result unit * Repo;
  status : Disk → Repo → result StatusResult * Repo;
  commit : string → Disk → Repo → result unit * Repo
}.
Arguments cwd {Repo} _ _ _.
Arguments checkIsRepo {Repo} _ _ _.
Arguments init {Repo} _ _ _ _.
Arguments add {Repo} _ _ _ _.
Arguments status {Repo} _ _ _.
Arguments commit {Repo} _ _ _ _.

Record fields (Repo : Type) := mkFields {
  branch : string;
  git_state : Repo
}.
Arguments mkFields {Repo} branch git_state.
Arguments branch {Repo} f.
Arguments git_state {Repo} f.

Section Repository.
Context {Repo : Type}.
Variable git : SimpleGit Repo.
Variable super_upload : BaseMethod.
Variable super_duplicateProfileTo : string → string → BaseMethod.

Abbreviation Prog := (M (fields Repo)).

(** A command of the Git client; [ev] is what the trace keeps of it. *)
Definition command {A} (f : Disk → Repo → result A * Repo)
    (ev : result A → option event) : Prog A :=
  r <- get_repo ;;
  b <- get_backend ;;
  let '(res, g') := f (disk r) (git_state b) in
  put_backend (mkFields (branch b) g') ;;
  match ev res with Some e => emit e | None => ret tt end ;;
  lift_result res.

(** The state after a command that left the repository as [g] and added
    the events [t]. *)
Definition after (w : world (fields Repo)) (g : Repo) (t : list event)
    : world (fields Repo) :=
  World (repo w) (mkFields (branch (backend w)) g) (trace w ++ t).

Definition git_cwd (p : list string) : Prog unit :=
  command (λ _, cwd git p) (λ _, Some (GCwd p)).

Definition git_checkIsRepo : Prog bool :=
  command (checkIsRepo git) (λ _, Some GCheckIsRepo).

Definition git_init (initial_branch : string) : Prog unit :=
  command (init git initial_branch) (λ _, Some (GInit initial_branch)).

Definition git_add (pathspec : string) : Prog unit :=
  command (add git pathspec) (λ _, Some GAdd).

(** The trace keeps the staged paths of a status that answered. *)
Definition git_status : Prog StatusResult :=
  command (status git)
    (λ res, match res with
            | inr s => Some (GStatus (staged s))
            | inl _ => None
            end).

Definition git_commit (message : string) : Prog unit :=
  command (commit git message) (λ _, Some (GCommit message)).

(** The commit message of [push]. *)
Definition commit_message (type : CommitType) (profile : string) : string :=
  if bool_decide (type = CREATE) then profile +:+ ": create"
  else profile +:+ ": update".

(** [push(type, profile = this._profile)]: [None] is the omitted argument. *)
Definition push (type : CommitType) (profile_arg : option string) : Prog unit :=
  r <- get_repo ;;
  let profile := default (profile r) profile_arg in
  git_add "." ;;
  status <- git_status ;;
  if bool_decide (length (staged status) = 0)
  then Logger_info "no changes, no commit"
  else
    let message := commit_message type profile in
    Logger_info ("commit: " +:+ message) ;;
    git_commit message.

Definition pull : Prog bool :=
  r <- get_repo ;;
  fse_ensureDir (rootPath r) ;;
  git_cwd (rootPath r) ;;
  isRepo <- git_checkIsRepo ;;
  (if negb isRepo
   then
     Logger_info ("creating git at " +:+ Uri_path (rootPath r)) ;;
     b <- get_backend ;;
     git_init (branch b)
   else ret tt) ;;
  ret true.


Definition cannot_pull : string := "can not pull git repository".

(** [initialize()]: the [return] of the first branch leaves the method. *)
Definition initialize : Prog unit :=
  pulled <- pull ;;
  if negb pulled then Logger_error cannot_pull
  else
    r <- get_repo ;;
    let profilePath := path_join (rootPath r) ["profiles"; profile r] in
    let gitkeepPath := path_join profilePath [".gitkeep"] in
    found <- exists_ gitkeepPath ;;
    (if negb found
     then
       fs_mkdir_recursive profilePath ;;
       fs_writeFile gitkeepPath EmptyString ;;
       push CREATE None
     else ret tt) ;;
    r' <- get_repo ;;
    put_repo (set_initialized true r').

Definition upload : Prog unit :=
  call_base SuperUpload super_upload ;;
  push UPLOAD None.

End Repository.
End LocalGit.

(** * Reference models of the outside

    The properties of the traversals are proved for every server and every
    Git client; those of the pull that depend on where a listed name leads,
    for every server that lists plain names.  What a property says about the
    contents of the store or of the repository needs a store and a
    repository: the ones below. *)

(** ** A remote store: a tree of directories and text files

    The store keeps the bytes of its files; what it answers to [readFile]
    is those bytes decoded as text. *)

Module Store.
Import WebDAV.

Definition http_error (n : Z) : JsError :=
  {| code := JsUndefined; status := JsNumber n; String_ := "Error: Invalid response" |}.

(** The last segment of [k] when [k] is an entry of the directory [p]. *)
Definition child_name (p k : Uri) : option string :=
  if bool_decide (removelast k = p) then last k else None.

(** The listing of [p]: its entries, one level down. *)
Definition entries (r : Disk) (p : Uri) : list FsStat :=
  omap (λ kx, n ← child_name p kx.1; Some (mkStat n (bool_decide (kx.2 = Dir))))
       (map_to_list r).

Definition store_stat (p : Uri) (r : Disk) : result FsStat * Disk :=
  (if present r p
   then inr (mkStat (default EmptyString (last p)) (is_dir r p))
   else inl (http_error 404), r).

Definition store_readdir (p : Uri) (r : Disk) : result (list FsStat) * Disk :=
  (if is_dir r p then inr (entries r p) else inl (http_error 404), r).

(** [readFile(p, 'utf8')]: the bytes at [p], decoded as text. *)
Definition store_readFile (p : Uri) (r : Disk) : result string * Disk :=
  (match disk_readFile p r with
   | inr data => inr (utf8_text data)
   | inl e => inl e
   end, r).

Definition store_update (res : result Disk) (r : Disk) : result unit * Disk :=
  match res with
  | inl e => (inl e, r)
  | inr r' => (inr tt, r')
  end.

Definition store_mkdir (p : Uri) (r : Disk) : result unit * Disk :=
  store_update (disk_mkdir p r) r.

Definition store_writeFile (p : Uri) (data : string) (r : Disk) : result unit * Disk :=
  store_update (disk_writeFile p data r) r.

Definition store_fs : WebDAVFS Disk :=
  {| mkdir := store_mkdir; readdir := store_readdir; readFile := store_readFile;
     stat := store_stat; writeFile := store_writeFile |}.

(** A store is a tree: the root has no entry of its own, and what exists
    lies in a directory that exists. *)
Definition well_formed (r : Disk) : Prop :=
  r !! [] = None ∧ map_Forall (λ k _, is_dir r (removelast k) = true) r.

Global Instance well_formed_dec r : Decision (well_formed r).
Proof. unfold well_formed. apply _. Defined.

(** Every segment of every path of the store is a plain name. *)
Definition plain_names (r : Disk) : Prop :=
  map_Forall (λ k _, Forall (λ n, plain n = true) k) r.

Global Instance plain_names_dec r : Decision (plain_names r).
Proof. unfold plain_names. apply _. Defined.

(** The length of the longest path of the store. *)
Definition depth (r : Disk) : nat :=
  max_list (length <$> (map_to_list r).*1).

(** The body of the loops of [pull] and [pullDirectory], on the store. *)
Definition pull_entry (fuel : nat) (localDir : list string) (remoteDir : Uri)
    (file : FsStat) : M (fields Disk) unit :=
  if isDirectory file
  then pullDirectory store_fs fuel (path_join localDir [name file])
         (Uri_joinPath remoteDir (name file))
  else pullFile store_fs (path_join localDir [name file])
         (Uri_joinPath remoteDir (name file)).

(** What [pullDirectory] does on the store [r], with enough fuel, when the
    local directory can be made and nothing is below it yet: the local
    directory holds what the store holds, read as text. *)
Definition pullDirectory_spec (r : Disk) (fuel : nat) : Prop :=
  ∀ (localDir : list string) (remoteDir : Uri) (w : world (fields Disk)),
    remote (backend w) = r → r !! remoteDir = Some Dir →
    (∀ k, is_Some (r !! (remoteDir ++ k)) → length k < fuel) →
    localDir ≠ [] → is_dir (disk (repo w)) (removelast localDir) = true →
    (∀ k, disk (repo w) !! (localDir ++ k) = None) →
    ∃ w', pullDirectory store_fs fuel localDir remoteDir w = (Returned tt, w')
          ∧ backend w' = backend w
          ∧ (∀ k, disk (repo w') !! (localDir ++ k)
                  = text_node <$> r !! (remoteDir ++ k))
          ∧ (∀ k, ¬ localDir `prefix_of` k →
                  disk (repo w') !! k = disk (repo w) !! k).

(** A server that is down: every request fails with [e]. *)
Definition offline_fs (e : JsError) : WebDAVFS unit :=
  {| mkdir := λ _ r, (inl e, r); readdir := λ _ r, (inl e, r);
     readFile := λ _ r, (inl e, r); stat := λ _ r, (inl e, r);
     writeFile := λ _ _ r, (inl e, r) |}.

(** [globby('**', { cwd })]: the files below [cwd], relative to it, those
    whose name starts with a dot left out as the library does by default. *)
Definition hidden (n : string) : bool :=
  match n with
  | String c _ => bool_decide (c = "."%char)
  | EmptyString => false
  end.

Definition glob_all (cwd : list string) (d : Disk) : list (list string) :=
  omap (λ kx,
    match kx.2 with
    | File _ =>
        let rel := drop (length cwd) kx.1 in
        if bool_decide (cwd `prefix_of` kx.1) && forallb (λ n, negb (hidden n)) rel
        then Some rel else None
    | Dir => None
    end) (map_to_list d).

(** A method of the base class that does nothing. *)
Definition base_skip : BaseMethod := λ r, (inr tt, r).

End Store.

(** ** A Git repository: an index and a list of commits

    The simplest client that stages, reports and commits: a repository of
    its own at the directory of [cwd], not one that lies inside another
    repository, and a [status] that reports every path on which the index
    and the last commit differ as staged, so without the detection of
    renames.  It serves for what a second push does after a first one. *)

Module RefGit.
Import LocalGit.

Abbreviation Tree := (gmap (list string) string).

Record Repo := mkRepo {
  workdir : list string;
  is_repo : bool;
  index : Tree;
  commits : list (string * Tree)
}.

Definition not_a_repo : JsError :=
  mkError JsUndefined JsUndefined "fatal: not a git repository".

(** The files below [cwd], by their path relative to it. *)
Definition worktree (cwd : list string) (d : Disk) : Tree :=
  list_to_map (omap (λ kx,
    match kx.2 with
    | File data =>
        if bool_decide (cwd `prefix_of` kx.1)
        then Some (drop (length cwd) kx.1, data) else None
    | Dir => None
    end) (map_to_list d)).

(** The tree of the last commit. *)
Definition head_tree (g : Repo) : Tree :=
  match commits g with
  | [] => ∅
  | (_, t) :: _ => t
  end.

(** The paths on which the index and the last commit differ. *)
Definition changed (idx hd : Tree) : list (list string) :=
  filter (λ k, idx !! k ≠ hd !! k) (elements (dom idx ∪ dom hd)).

Arguments worktree : simpl never.
Arguments changed : simpl never.

Definition guarded {A} (g : Repo) (r : result A * Repo) : result A * Repo :=
  if is_repo g then r else (inl not_a_repo, g).

Definition ref_cwd (p : list string) (g : Repo) : result unit * Repo :=
  (inr tt, mkRepo p (is_repo g) (index g) (commits g)).

Definition ref_checkIsRepo (d : Disk) (g : Repo) : result bool * Repo :=
  (inr (is_repo g), g).

Definition ref_init (initial_branch : string) (d : Disk) (g : Repo)
    : result unit * Repo :=
  (inr tt, mkRepo (workdir g) true (index g) (commits g)).

(** [git add .]: the index becomes the work tree. *)
Definition ref_add (pathspec : string) (d : Disk) (g : Repo) : result unit * Repo :=
  guarded g (inr tt, mkRepo (workdir g) (is_repo g) (worktree (workdir g) d) (commits g)).

Definition ref_status (d : Disk) (g : Repo) : result StatusResult * Repo :=
  guarded g (inr (mkStatus (changed (index g) (head_tree g))), g).

Definition ref_commit (message : string) (d : Disk) (g : Repo) : result unit * Repo :=
  guarded g (inr tt, mkRepo (workdir g) (is_repo g) (index g)
                       ((message, index g) :: commits g)).

Definition ref_git : SimpleGit Repo :=
  {| cwd := ref_cwd; checkIsRepo := ref_checkIsRepo; init := ref_init;
     add := ref_add; status := ref_status; commit := ref_commit |}.

End RefGit.

(** * What a trace of requests must look like *)

Module Trace.

(** The directory a request to the server probes or creates. *)
Definition touches (e : event) : option Uri :=
  match e with
  | RStat p _ | RMkdir p _ => Some p
  | _ => None
  end.

Definition is_stat (p : Uri) (e : event) : bool :=
  match e with
  | RStat q _ => bool_decide (q = p)
  | _ => false
  end.

Definition is_mkdir (p : Uri) (e : event) : bool :=
  match e with
  | RMkdir q _ => bool_decide (q = p)
  | _ => false
  end.

(** How often [p] is probed, and how often it is created. *)
Definition stats (p : Uri) (t : list event) : nat :=
  length (filter (λ e, is_stat p e) t).

Definition mkdirs (p : Uri) (t : list event) : nat :=
  length (filter (λ e, is_mkdir p e) t).

(** [a] was found present, or was created, in [h]. *)
Definition settled (a : Uri) (h : list event) : Prop :=
  RStat a true ∈ h ∨ RMkdir a true ∈ h.

(** Every directory is probed at most once and created at most once. *)
Definition at_most_once (t : list event) : Prop :=
  ∀ p, stats p t ≤ 1 ∧ mkdirs p t ≤ 1.

(** After [exists[p] = true] no request probes or creates [p]. *)
Definition marked_is_final (t : list event) : Prop :=
  ∀ t1 p t2 e, t = t1 ++ Mark p :: t2 → e ∈ t2 → touches e ≠ Some p.

(** [exists[p] = true] is what follows a probe that succeeded, and what
    follows a creation that succeeded. *)
Definition mark_follows (t : list event) : Prop :=
  ∀ t1 p t2,
    t = t1 ++ RStat p true :: t2 ∨ t = t1 ++ RMkdir p true :: t2 →
    ∃ t2', t2 = Mark p :: t2'.

(** A directory is probed or created only after each of its proper
    ancestors was found present or created. *)
Definition root_to_leaf (t : list event) : Prop :=
  ∀ t1 e t2 p a,
    t = t1 ++ e :: t2 → touches e = Some p →
    a `prefix_of` p → a ≠ p → settled a t1.


(** The messages of the commits among the events, in order. *)
Definition commit_messages (t : list event) : list string :=
  omap (λ e, match e with GCommit m => Some m | _ => None end) t.

(** The local path a request creates or writes. *)
Definition creates (e : event) : option (list string) :=
  match e with
  | LMkdir p | LWriteFile p _ => Some p
  | _ => None
  end.

(** Below [root], a directory is created before anything is created or
    written in it. *)
Definition dirs_first (root : list string) (t : list event) : Prop :=
  ∀ t1 e t2 p,
    t = t1 ++ e :: t2 → creates e = Some p → p ≠ root →
    LMkdir (removelast p) ∈ t1.

(** The same with the directories [known] to exist before the trace
    starts: the directory of what is created or written is known, or was
    created earlier in the trace. *)
Definition ordered (known : list string → Prop) (t : list event) : Prop :=
  ∀ t1 e t2 p,
    t = t1 ++ e :: t2 → creates e = Some p →
    known (removelast p) ∨ LMkdir (removelast p) ∈ t1.

(** [Q h e] for every event [e] of the trace and the events [h] before it. *)
Definition each_after (Q : list event → event → Prop) (t : list event) : Prop :=
  ∀ t1 e t2, t = t1 ++ e :: t2 → Q t1 e.

(** The last event is no probe and no creation that succeeded. *)
Definition closed (t : list event) : Prop :=
  ∀ p, last t ≠ Some (RStat p true) ∧ last t ≠ Some (RMkdir p true).

(** What [ensureDir] respects at each request, given the requests [h]
    before it. *)
Definition step_ok (h : list event) (e : event) : Prop :=
  (∀ p, touches e = Some p →
     (Mark p ∉ h) ∧ (∀ a, a `prefix_of` p → a ≠ p → settled a h))
  ∧ (∀ p ok, e = RStat p ok → stats p h = 0)
  ∧ (∀ p ok, e = RMkdir p ok → mkdirs p h = 0)
  ∧ (∀ p, e = Mark p →
       last h = Some (RStat p true) ∨ last h = Some (RMkdir p true))
  ∧ (∀ p, last h = Some (RStat p true) ∨ last h = Some (RMkdir p true) →
       e = Mark p).

Definition good (t : list event) : Prop := each_after step_ok t ∧ closed t.

(** Every event a program adds to the trace satisfies [P]. *)
Definition emits {B A} (P : event → Prop) (m : M B A) : Prop :=
  ∀ w, ∃ t, trace (m w).2 = trace w ++ t ∧ Forall P t.

(** From a state that satisfies [J] the program reaches a state that
    satisfies [J], what it adds to the trace satisfies [T], and what it
    returns satisfies [R]. *)
Definition holds {B A} (J : world B → Prop) (T : list event → Prop)
    (R : A → Prop) (m : M B A) : Prop :=
  ∀ w, J w →
    J (m w).2
    ∧ (∃ t, trace (m w).2 = trace w ++ t ∧ T t)
    ∧ ∀ a, (m w).1 = Returned a → R a.

(** The server is in a state that satisfies [I] and the fields of the base
    class satisfy [Q]. *)
Definition on_server {Remote} (I : Remote → Prop) (Q : FileRepository → Prop)
    (w : world (WebDAV.fields Remote)) : Prop :=
  I (WebDAV.remote (backend w)) ∧ Q (repo w).

(** When the program returns, its result and the state satisfy [Q]. *)
Definition ensures {B A} (Q : A → world B → Prop) (m : M B A) : Prop :=
  ∀ w, match m w with
       | (Returned a, w') => Q a w'
       | _ => True
       end.

(** The invariant of a push between two calls of [ensureDir]: [c] is the
    object [exists] and [t] the requests of the push so far.  What is marked
    is what the trace marked, what was probed or created is marked, and the
    marked paths are closed under ancestors. *)
Definition push_inv (c : gmap Uri bool) (t : list event) : Prop :=
  good t
  ∧ (∀ p, WebDAV.cached c p = true ↔ Mark p ∈ t)
  ∧ (∀ e p, e ∈ t → touches e = Some p → Mark p ∈ t)
  ∧ (∀ p a, Mark p ∈ t → a `prefix_of` p → Mark a ∈ t).

(** An event that is no request for a directory and no mark. *)
Definition neutral (e : event) : Prop :=
  touches e = None ∧ ∀ p, e ≠ Mark p.

(** A program keeps the invariant of the push; when it throws, the trace
    is still a good one; it does not run out of fuel.  [t0] is the trace
    before the push. *)
Definition keeps {Remote A} (m : M (WebDAV.fields Remote) A) : Prop :=
  ∀ w t0 t,
    trace w = t0 ++ t → push_inv (WebDAV.exists_cache (backend w)) t →
    match m w with
    | (Returned _, w') =>
        ∃ t', trace w' = t0 ++ t'
              ∧ push_inv (WebDAV.exists_cache (backend w')) t'
    | (Thrown _, w') => ∃ t', trace w' = t0 ++ t' ∧ good t'
    | (OutOfFuel, _) => False
    end.

End Trace.

(** * Concrete worlds *)

Module Examples.

(** A local mirror with two files in one directory and one at the top. *)
Definition mirror : Disk :=
  list_to_map
    [ (["tmp"], Dir); (["tmp"; "m"], Dir);
      (["tmp"; "m"; "a"], Dir); (["tmp"; "m"; "a"; "b"], Dir);
      (["tmp"; "m"; "a"; "b"; "x.json"], File "X");
      (["tmp"; "m"; "a"; "b"; "y.json"], File "Y");
      (["tmp"; "m"; "z.json"], File "Z") ].

(** A remote store with a directory in a directory and three files. *)
Definition store : Disk :=
  list_to_map
    [ (["a"], Dir); (["a"; "b"], Dir);
      (["a"; "b"; "x.json"], File "X");
      (["a"; "b"; "y.json"], File "Y");
      (["z.json"], File "Z") ].

(** A store with one text file that starts with a byte order mark. *)
Definition marked_store : Disk :=
  list_to_map [ (["b.txt"], File (bom +:+ "A")) ].

(** A mirror with a file the store does not have. *)
Definition stale_mirror : Disk :=
  list_to_map
    [ (["tmp"], Dir); (["tmp"; "m"], Dir);
      (["tmp"; "m"; "old.json"], File "old") ].

Definition webdav_world (initialized : bool) (local remote : Disk)
    : world (WebDAV.fields Disk) :=
  World (mkFileRepository ["tmp"; "m"] "work" initialized local)
        (WebDAV.mkFields "http://dav.example" remote ∅) [].

(** A server that refuses the connection. *)
Definition refused : JsError :=
  {| code := JsString "ECONNREFUSED"; status := JsUndefined;
     String_ := "Error: connect ECONNREFUSED" |}.

Definition offline_world : world (WebDAV.fields unit) :=
  World (mkFileRepository ["tmp"; "m"] "work" false ∅)
        (WebDAV.mkFields "http://dav.example" tt ∅) [].

(** A directory with one settings file, not yet a Git repository. *)
Definition git_world : world (LocalGit.fields RefGit.Repo) :=
  World (mkFileRepository ["repo"] "work" false
           (list_to_map [ (["repo"], Dir);
                          (["repo"; "settings.json"], File "{}") ]))
        (LocalGit.mkFields "main" (RefGit.mkRepo [] false ∅ [])) [].

(** The same once [pull] has made it a repository. *)
Definition git_repo_world : world (LocalGit.fields RefGit.Repo) :=
  (LocalGit.pull RefGit.ref_git git_world).2.

End Examples.

(** * More to say about the traces and the states *)

Module Coverage.
Import Trace.

(** What a trace uploads: the remote path and the content of each
    [writeFile] request, in order. *)
Definition uploads (t : list event) : list (Uri * string) :=
  omap (λ e, match e with RWriteFile p d => Some (p, d) | _ => None end) t.

(** A file is sent only after each directory on the way to it was found
    present or created. *)
Definition dirs_before_files (t : list event) : Prop :=
  ∀ t1 p d t2 a,
    t = t1 ++ RWriteFile p d :: t2 → a `prefix_of` Uri_parent p →
    settled a t1.

(** The same for one request [e] after the requests [h]. *)
Definition upload_ok (h : list event) (e : event) : Prop :=
  ∀ p d, e = RWriteFile p d → ∀ a, a `prefix_of` Uri_parent p → settled a h.

Definition no_write (e : event) : Prop := ∀ p d, e ≠ RWriteFile p d.

(** No request to the server. *)
Definition no_request (e : event) : Prop :=
  match e with
  | RStat _ _ | RMkdir _ _ | RReaddir _ | RReadFile _ | RWriteFile _ _ => False
  | _ => True
  end.

(** An event of [ensureDir(dir)]: a probe, a creation or a mark of [dir] or
    of a directory above it. *)
Definition ensure_event (dir : Uri) (e : event) : Prop :=
  match e with
  | RStat p _ | RMkdir p _ | Mark p => p `prefix_of` dir
  | _ => False
  end.

(** An event of a push of the files [files] of the mirror at [root]: a log,
    the settling of a directory above one of the files, the reading of one
    of the files, or its upload. *)
Definition push_event (root : list string) (files : list (list string))
    (e : event) : Prop :=
  match e with
  | LogInfo _ => True
  | RStat p _ | RMkdir p _ | Mark p =>
      ∃ file, file ∈ files ∧ p `prefix_of` Uri_parent (Uri_file file)
  | LReadFile p => ∃ file, file ∈ files ∧ p = path_join root file
  | RWriteFile p _ => ∃ file, file ∈ files ∧ p = Uri_file file
  | _ => False
  end.

(** The upload [up] is the file [file] of the mirror [d] at [root], with
    its content. *)
Definition uploaded (d : Disk) (root file : list string) (up : Uri * string)
    : Prop :=
  up.1 = Uri_file file ∧ d !! path_join root file = Some (File up.2).

(** The program leaves the fields of the base class and the local disk as
    they are, however it ends. *)
Definition leaves_repo {B A} (m : M B A) : Prop :=
  ∀ w, repo (m w).2 = repo w.

(** The invariant of a push with the order of its uploads: like [keeps],
    and every upload so far came after its directories. *)
Definition keeps_uploads {Remote A} (m : M (WebDAV.fields Remote) A) : Prop :=
  ∀ w t0 t,
    trace w = t0 ++ t → push_inv (WebDAV.exists_cache (backend w)) t →
    each_after upload_ok t →
    match m w with
    | (Returned _, w') =>
        ∃ t', trace w' = t0 ++ t'
              ∧ push_inv (WebDAV.exists_cache (backend w')) t'
              ∧ each_after upload_ok t'
    | (_, w') => ∃ t', trace w' = t0 ++ t' ∧ each_after upload_ok t'
    end.

(** An event of a pull into the mirror at [root]: a log, a listing or a
    download from the server, the removal of the mirror, and directories and
    files created at or below [root]. *)
Definition pull_event (root : list string) (e : event) : Prop :=
  match e with
  | LogInfo _ | RReaddir _ | RReadFile _ => True
  | LRemove p => p = root
  | LMkdir p | LWriteFile p _ => root `prefix_of` p
  | _ => False
  end.

(** [r] is [r0] up to what the disk holds at and below [root]. *)
Definition same_outside (root : list string) (r0 r : FileRepository) : Prop :=
  rootPath r = rootPath r0 ∧ profile r = profile r0
  ∧ initialized r = initialized r0
  ∧ ∀ k, ¬ root `prefix_of` k → disk r !! k = disk r0 !! k.

(** An event of a pull, whatever its path. *)
Definition pull_kind (e : event) : Prop :=
  match e with
  | LogInfo _ | RReaddir _ | RReadFile _
  | LRemove _ | LMkdir _ | LWriteFile _ _ => True
  | _ => False
  end.

(** A server whose root lists one file, under a name that is no plain
    name. *)
Definition climbing_fs : WebDAV.WebDAVFS unit :=
  {| WebDAV.mkdir := λ _ r, (inr tt, r);
     WebDAV.readdir := λ _ r, (inr [WebDAV.mkStat "../x" false], r);
     WebDAV.readFile := λ _ r, (inr "X", r);
     WebDAV.stat := λ _ r, (inr (WebDAV.mkStat EmptyString true), r);
     WebDAV.writeFile := λ _ _ r, (inr tt, r) |}.

(** The body of [pull], once [this._rootPath] has been read. *)
Definition pull_body {Remote : Type} (fs : WebDAV.WebDAVFS Remote) (fuel : nat)
    (root : list string) : M (WebDAV.fields Remote) unit :=
  fse_remove root ;;
  fse_mkdir root ;;
  files <- WebDAV.this_fs_readdir fs Uri_root ;;
  for_of files (λ file,
    if WebDAV.isDirectory file
    then WebDAV.pullDirectory fs fuel (path_join root [WebDAV.name file])
           (Uri_file [WebDAV.name file])
    else WebDAV.pullFile fs (path_join root [WebDAV.name file])
           (Uri_file [WebDAV.name file])) ;;
  Logger_info "pull done".

(** [pull] between its two logs. *)
Definition pull_front {Remote : Type} (fs : WebDAV.WebDAVFS Remote) (fuel : nat)
    (root : list string) : M (WebDAV.fields Remote) unit :=
  fse_remove root ;;
  fse_mkdir root ;;
  files <- WebDAV.this_fs_readdir fs Uri_root ;;
  for_of files (λ file,
    if WebDAV.isDirectory file
    then WebDAV.pullDirectory fs fuel (path_join root [WebDAV.name file])
           (Uri_file [WebDAV.name file])
    else WebDAV.pullFile fs (path_join root [WebDAV.name file])
           (Uri_file [WebDAV.name file])).

(** A [TemporaryRepository.initialize] that has nothing to do, one that
    fails, and an [initialize] of the base class that sets the flag. *)
Definition tmp_skip : Disk → result unit * Disk := λ d, (inr tt, d).

Definition tmp_fail (e : JsError) : Disk → result unit * Disk := λ d, (inl e, d).

Definition base_initialize : BaseMethod := λ r, (inr tt, set_initialized true r).

Definition lifted (res : result unit) : outcome unit :=
  match res with
  | inl e => Thrown e
  | inr _ => Returned tt
  end.


(** What the object [exists] holds is true of the store [r]. *)
Definition cache_sound (c : gmap Uri bool) (r : Disk) : Prop :=
  ∀ p, WebDAV.cached c p = true → is_dir r p = true.

(** No file of the store is at [dir] or above it. *)
Definition no_file_above (r : Disk) (dir : Uri) : Prop :=
  ∀ a data, a `prefix_of` dir → r !! a ≠ Some (File data).

(** The file [f] can be put on the store [r]: no directory is where the
    file goes, and no file where one of its directories has to be. *)
Definition writable (r : Disk) (f : Uri) : Prop :=
  f ≠ [] ∧ r !! f ≠ Some Dir ∧ no_file_above r (Uri_parent f).

(** No listed path lies below another one. *)
Definition unrelated (files : list (list string)) : Prop :=
  ∀ f g, f ∈ files → g ∈ files → f `prefix_of` g → f = g.

(** The mirror at [root] holds a file at every listed path. *)
Definition readable (d : Disk) (root : list string)
    (files : list (list string)) : Prop :=
  ∀ f, f ∈ files → ∃ data, d !! path_join root f = Some (File data).

(** The store [r'] is [r] with the directories down to [dir] added where
    they were missing. *)
Definition grown_along (r r' : Disk) (dir : Uri) : Prop :=
  r ⊆ r' ∧ ∀ k, r !! k = None → is_Some (r' !! k) →
            r' !! k = Some Dir ∧ k `prefix_of` dir.

(** The example mirror, and a server that holds nothing yet. *)
Definition first_push_world : world (WebDAV.fields Disk) :=
  Examples.webdav_world true Examples.mirror ∅.

(** A mirror with an old file, and a server that refuses the connection. *)
Definition offline_mirror_world : world (WebDAV.fields unit) :=
  World (mkFileRepository ["tmp"; "m"] "work" true Examples.stale_mirror)
        (WebDAV.mkFields "http://dav.example" tt ∅) [].

End Coverage.

(** * Joining plain names *)

Module PathFacts.

Lemma plain_spec (n : string) :
  plain n = true →
  segments n = [n] ∧ n ≠ EmptyString ∧ n ≠ "." ∧ n ≠ "..".
Proof.
  unfold plain. intros [H1 H2]%andb_true_iff.
  apply bool_decide_eq_true in H1. apply negb_true_iff in H2.
  apply orb_false_iff in H2 as [H2 H4]. apply orb_false_iff in H2 as [H2 H3].
  apply bool_decide_eq_false in H2, H3, H4. done.
Qed.

Lemma resolve_plain (acc : list string) (n : string) :
  plain n = true → resolve acc n = acc ++ [n].
Proof.
  intros (_ & H1 & H2 & H3)%plain_spec. unfold resolve.
  by rewrite !bool_decide_eq_false_2.
Qed.

(** A plain name is one more segment. *)
Lemma Uri_joinPath_plain (dir : Uri) (n : string) :
  plain n = true → Uri_joinPath dir n = dir ++ [n].
Proof.
  intros Hn. unfold Uri_joinPath.
  rewrite (proj1 (plain_spec n Hn)). simpl. by apply resolve_plain.
Qed.

Lemma path_join_plain (b : list string) :
  ∀ a, Forall (λ n, plain n = true) b → path_join a b = a ++ b.
Proof.
  unfold path_join. induction b as [|n b IH]; intros a Hb; simpl.
  { by rewrite app_nil_r. }
  apply Forall_cons in Hb as [Hn Hb].
  rewrite (proj1 (plain_spec n Hn)). simpl.
  rewrite resolve_plain by done. rewrite IH by done.
  by rewrite <- app_assoc.
Qed.

Lemma path_join_snoc (a : list string) (n : string) :
  plain n = true → path_join a [n] = a ++ [n].
Proof. intros Hn. apply path_join_plain. by apply Forall_singleton. Qed.

(** The name ['..'] is the parent, for both joins. *)
Lemma Uri_joinPath_parent (dir : Uri) : Uri_joinPath dir ".." = Uri_parent dir.
Proof. reflexivity. Qed.

Lemma path_join_parent (a : list string) : path_join a [".."] = removelast a.
Proof. reflexivity. Qed.

End PathFacts.

(** * Proofs *)

Set Warnings "-clear-no-such-hyp".

(** ** The monad *)

Module MonadFacts.
Import Trace.

Section Facts.
Context {B : Type}.
Implicit Types P : event → Prop.

Lemma emits_ret {A} P (a : A) : emits (B:=B) P (ret a).
Proof. intros w. exists []. by rewrite app_nil_r. Qed.

Lemma emits_throw {A} P e : emits (B:=B) (A:=A) P (throw e).
Proof. intros w. exists []. by rewrite app_nil_r. Qed.

Lemma emits_lift {A} P (r : result A) : emits (B:=B) P (lift_result r).
Proof. destruct r; [apply emits_throw|apply emits_ret]. Qed.

Lemma emits_get_repo P : emits (B:=B) P get_repo.
Proof. intros w. exists []. by rewrite app_nil_r. Qed.

Lemma emits_get_backend P : emits (B:=B) P get_backend.
Proof. intros w. exists []. by rewrite app_nil_r. Qed.

Lemma emits_put_repo P r : emits (B:=B) P (put_repo r).
Proof. intros w. exists []. by rewrite app_nil_r. Qed.

Lemma emits_put_backend P b : emits (B:=B) P (put_backend b).
Proof. intros w. exists []. by rewrite app_nil_r. Qed.

Lemma emits_emit P e : P e → emits (B:=B) P (emit e).
Proof. intros He w. exists [e]. split; [done|]. by apply Forall_singleton. Qed.

Lemma emits_bind {A C} P (m : M B A) (k : A → M B C) :
  emits P m → (∀ a, emits P (k a)) → emits P (bind m k).
Proof.
  intros Hm Hk w. unfold bind. destruct (Hm w) as (t & Ht & HP).
  destruct (m w) as [[a|e|] w']; simpl in *; [|by exists t..].
  destruct (Hk a w') as (t' & Ht' & HP'). exists (t ++ t').
  rewrite Ht', Ht, app_assoc. split; [done|]. by apply Forall_app.
Qed.

Lemma emits_try_catch {A} P (m : M B A) h :
  emits P m → (∀ e, emits P (h e)) → emits P (try_catch m h).
Proof.
  intros Hm Hh w. unfold try_catch. destruct (Hm w) as (t & Ht & HP).
  destruct (m w) as [[a|e|] w']; simpl in *; [by exists t| |by exists t].
  destruct (Hh e w') as (t' & Ht' & HP'). exists (t ++ t').
  rewrite Ht', Ht, app_assoc. split; [done|]. by apply Forall_app.
Qed.

Lemma emits_for_of {A} P (xs : list A) (body : A → M B unit) :
  (∀ x, emits P (body x)) → emits P (for_of xs body).
Proof.
  intros Hb. induction xs as [|x xs IH]; simpl; [apply emits_ret|].
  apply emits_bind; [apply Hb|]. intros _. apply IH.
Qed.

Lemma emits_call_base P e (m : BaseMethod) : P e → emits (B:=B) P (call_base e m).
Proof.
  intros He. unfold call_base.
  apply emits_bind; [by apply emits_emit|]. intros _.
  apply emits_bind; [apply emits_get_repo|]. intros r.
  destruct (m r) as [res r'].
  apply emits_bind; [apply emits_put_repo|]. intros _. apply emits_lift.
Qed.

Lemma emits_update_disk P f : emits (B:=B) P (update_disk f).
Proof.
  unfold update_disk.
  apply emits_bind; [apply emits_get_repo|]. intros r.
  apply emits_bind; [apply emits_lift|]. intros d. apply emits_put_repo.
Qed.

Lemma emits_on_disk {A} P (f : Disk → result A) : emits (B:=B) P (on_disk f).
Proof.
  unfold on_disk.
  apply emits_bind; [apply emits_get_repo|]. intros r. apply emits_lift.
Qed.

Lemma emits_exists P p : emits (B:=B) P (exists_ p).
Proof.
  unfold exists_.
  apply emits_bind; [apply emits_get_repo|]. intros r. apply emits_ret.
Qed.

Lemma ensures_ret {A} (Q : A → world B → Prop) a :
  (∀ w, Q a w) → ensures Q (ret a).
Proof. intros H w. simpl. apply H. Qed.

Lemma ensures_bind {A C} (R : A → Prop) (Q : C → world B → Prop)
    (m : M B A) (k : A → M B C) :
  ensures (λ a _, R a) m → (∀ a, R a → ensures Q (k a)) → ensures Q (bind m k).
Proof.
  intros Hm Hk w. unfold bind. specialize (Hm w).
  destruct (m w) as [[a|e|] w']; [|done..]. by apply Hk.
Qed.

Lemma ensures_bind_any {A C} (Q : C → world B → Prop)
    (m : M B A) (k : A → M B C) :
  (∀ a, ensures Q (k a)) → ensures Q (bind m k).
Proof.
  intros Hk. apply (ensures_bind (λ _, True)); [|by intros a _].
  intros w. by destruct (m w) as [[a|e|] w'].
Qed.

(** [bind] when the first program returns only results with [R]. *)
Lemma emits_bind_ensures {A C} (R : A → Prop) P (m : M B A) (k : A → M B C) :
  ensures (λ a _, R a) m → emits P m → (∀ a, R a → emits P (k a)) →
  emits P (bind m k).
Proof.
  intros HR Hm Hk w. unfold bind. destruct (Hm w) as (t & Ht & HP).
  specialize (HR w).
  destruct (m w) as [[a|e|] w']; simpl in *; [|by exists t..].
  destruct (Hk a HR w') as (t' & Ht' & HP'). exists (t ++ t').
  rewrite Ht', Ht, app_assoc. split; [done|]. by apply Forall_app.
Qed.

(** What a program added to the trace is determined by the two states. *)
Lemma trace_delta (t0 t t' : list event) : t0 ++ t = t0 ++ t' → t = t'.
Proof. apply app_inv_head. Qed.

End Facts.
End MonadFacts.

(** * Programs under an invariant of the state *)

Module HoldsFacts.
Import Trace.

Section Facts.
Context {B : Type}.
Variable J : world B → Prop.
Hypothesis J_trace : ∀ w t, J w → J (World (repo w) (backend w) t).

Lemma holds_ret {A : Type} (T : list event → Prop) (R : A → Prop) (a : A) :
  T [] → R a → holds J T R (ret a).
Proof using Type.
  intros HT HR w Hw. split; [done|]. split.
  - exists []. by rewrite app_nil_r.
  - by intros a' [= <-].
Qed.

Lemma holds_emit (T : list event → Prop) (e : event) :
  T [e] → holds J T (λ _ : unit, True) (emit e).
Proof using J_trace.
  intros HT w Hw. split; [by apply J_trace|]. split; [by exists [e]|done].
Qed.

Lemma holds_bind {A C : Type} (T : list event → Prop) (R : A → Prop)
    (R' : C → Prop) (m : M B A) (k : A → M B C) :
  (∀ t u, T t → T u → T (t ++ u)) →
  holds J T R m → (∀ a, R a → holds J T R' (k a)) → holds J T R' (bind m k).
Proof using Type.
  intros Happ Hm Hk w Hw. unfold bind.
  destruct (Hm w Hw) as (HJ & (t & Ht & HT) & HR).
  destruct (m w) as [[a|e|] w1]; simpl in *.
  - destruct (Hk a (HR a eq_refl) w1 HJ) as (HJ' & (u & Hu & HU) & HR').
    split; [done|]. split; [|done]. exists (t ++ u).
    rewrite Hu, Ht, app_assoc. split; [done|]. by apply Happ.
  - split; [done|]. split; [by exists t|done].
  - split; [done|]. split; [by exists t|done].
Qed.

Lemma holds_for_of {A : Type} (T : list event → Prop) (Rx : A → Prop)
    (xs : list A) (body : A → M B unit) :
  T [] → (∀ t u, T t → T u → T (t ++ u)) →
  Forall Rx xs →
  (∀ x, Rx x → holds J T (λ _, True) (body x)) →
  holds J T (λ _, True) (for_of xs body).
Proof using Type.
  intros Hnil Happ Hxs Hb. induction Hxs as [|x xs Hx Hxs IH]; simpl.
  - by apply holds_ret.
  - eapply holds_bind; [done|by apply Hb|]. intros _ _. apply IH.
Qed.

Lemma holds_mono {A : Type} (T T' : list event → Prop) (R R' : A → Prop)
    (m : M B A) :
  (∀ t, T t → T' t) → (∀ a, R a → R' a) → holds J T R m → holds J T' R' m.
Proof using Type.
  intros HT HR Hm w Hw. destruct (Hm w Hw) as (HJ & (t & Ht & H) & Hret).
  split; [done|]. split; [exists t; auto|]. auto.
Qed.

End Facts.

Section WebDAV.
Import WebDAV.
Context {Remote : Type}.
Variable fs : WebDAVFS Remote.
Variable I : Remote → Prop.
Variable Q : FileRepository → Prop.
Hypothesis Hplain : plain_server fs I.

Lemma on_server_trace (w : world (fields Remote)) (t : list event) :
  on_server I Q w → on_server I Q (World (repo w) (backend w) t).
Proof using Type. by intros [? ?]. Qed.

(** A listing of such a server holds plain names. *)
Lemma holds_readdir (T : list event → Prop) (p : Uri) :
  T [RReaddir p] →
  holds (on_server I Q) T plain_listing (this_fs_readdir fs p).
Proof using Hplain.
  intros HT [r [u rem c] t] [HI HQ]. simpl in HI, HQ.
  destruct (Hplain rem p HI) as (H1 & _ & H3).
  unfold this_fs_readdir, request, bind, get_backend, put_backend. simpl.
  destruct (readdir fs p rem) as [[e|files] rem']; simpl in *.
  - split; [done|]. split; [by exists [RReaddir p]|done].
  - split; [done|]. split; [by exists [RReaddir p]|].
    intros a [= <-]. by apply H3.
Qed.

Lemma holds_readFile (T : list event → Prop) (p : Uri) :
  T [RReadFile p] →
  holds (on_server I Q) T (λ _, True) (this_fs_readFile fs p).
Proof using Hplain.
  intros HT [r [u rem c] t] [HI HQ]. simpl in HI, HQ.
  destruct (Hplain rem p HI) as (_ & H2 & _).
  unfold this_fs_readFile, request, bind, get_backend, put_backend. simpl.
  destruct (readFile fs p rem) as [[e|data] rem']; simpl in *;
    (split; [done|]); (split; [by exists [RReadFile p]|done]).
Qed.

(** A step on the local disk that keeps [Q]. *)
Lemma holds_local (T : list event → Prop) (e : event)
    (f : Disk → result Disk) :
  T [e] → (∀ r d, Q r → f (disk r) = inr d → Q (set_disk d r)) →
  holds (on_server I Q) T (λ _, True) (emit e ;; update_disk f).
Proof using Type.
  intros HT Hf [r b t] [HI HQ]. simpl in HI, HQ.
  cbv [update_disk bind emit get_repo put_repo lift_result ret throw].
  simpl. destruct (f (disk r)) as [err|d] eqn:E; simpl.
  - split; [done|]. split; [by exists [e]|done].
  - split; [split; [done|by apply Hf]|]. split; [by exists [e]|done].
Qed.

End WebDAV.
End HoldsFacts.


(** ** Traces *)

Module TraceFacts.
Import Trace.

Lemma each_after_nil Q : each_after Q [].
Proof. intros t1 e t2 H. by destruct t1. Qed.

Lemma each_after_snoc Q t e :
  each_after Q t → Q t e → each_after Q (t ++ [e]).
Proof.
  intros Ht He t1 e' t2 Heq.
  destruct t2 as [|x t2 _] using rev_ind.
  - apply app_inj_tail in Heq as [-> ->]. done.
  - rewrite app_comm_cons, app_assoc in Heq.
    apply app_inj_tail in Heq as [-> _]. by eapply Ht.
Qed.

Lemma each_after_prefix Q t u : each_after Q (t ++ u) → each_after Q t.
Proof.
  intros H t1 e t2 ->. apply (H t1 e (t2 ++ u)).
  by rewrite <- app_assoc.
Qed.

Lemma stats_snoc p t e :
  stats p (t ++ [e]) = stats p t + (if is_stat p e then 1 else 0).
Proof.
  unfold stats. rewrite filter_app, length_app. f_equal.
  rewrite filter_cons, filter_nil. destruct (is_stat p e); by case_decide.
Qed.

Lemma mkdirs_snoc p t e :
  mkdirs p (t ++ [e]) = mkdirs p t + (if is_mkdir p e then 1 else 0).
Proof.
  unfold mkdirs. rewrite filter_app, length_app. f_equal.
  rewrite filter_cons, filter_nil. destruct (is_mkdir p e); by case_decide.
Qed.

Lemma is_stat_touches p e : is_stat p e = true → touches e = Some p.
Proof. destruct e; try done. simpl. by intros ->%bool_decide_eq_true. Qed.

Lemma is_mkdir_touches p e : is_mkdir p e = true → touches e = Some p.
Proof. destruct e; try done. simpl. by intros ->%bool_decide_eq_true. Qed.

(** A directory no request of [t] touches is neither probed nor created. *)
Lemma untouched_counts p t :
  (∀ e, e ∈ t → touches e ≠ Some p) → stats p t = 0 ∧ mkdirs p t = 0.
Proof.
  induction t as [|e t IH] using rev_ind; [done|].
  intros H. rewrite stats_snoc, mkdirs_snoc.
  destruct IH as [-> ->].
  { intros e' He'. apply H. apply elem_of_app. by left. }
  assert (touches e ≠ Some p) as Hne.
  { apply H. apply elem_of_app. right. by apply list_elem_of_singleton. }
  destruct (is_stat p e) eqn:Hs.
  { by apply is_stat_touches in Hs. }
  destruct (is_mkdir p e) eqn:Hm.
  { by apply is_mkdir_touches in Hm. }
  done.
Qed.

(** What was marked was found present or created before. *)
Lemma marked_settled t p :
  each_after step_ok t → Mark p ∈ t → settled p t.
Proof.
  intros Ht (t1 & t2 & ->)%list_elem_of_split.
  destruct (Ht t1 (Mark p) t2 eq_refl) as (_ & _ & _ & Hm & _).
  unfold settled.
  destruct (Hm p eq_refl) as [H|H]; apply last_Some_elem_of in H;
    [left|right]; apply elem_of_app; by left.
Qed.

Lemma good_nil : good [].
Proof. split; [apply each_after_nil|]. by intros p. Qed.

Lemma good_at_most_once t : good t → at_most_once t.
Proof.
  intros [Ht _] p. induction t as [|e t IH] using rev_ind.
  { unfold stats, mkdirs. simpl. lia. }
  specialize (IH (each_after_prefix _ _ _ Ht)).
  destruct (Ht t e [] eq_refl) as (_ & Hs & Hm & _).
  rewrite stats_snoc, mkdirs_snoc. split.
  - destruct e; simpl; try lia. case_bool_decide; [subst|lia].
    rewrite (Hs _ _ eq_refl). lia.
  - destruct e; simpl; try lia. case_bool_decide; [subst|lia].
    rewrite (Hm _ _ eq_refl). lia.
Qed.

Lemma good_marked_is_final t : good t → marked_is_final t.
Proof.
  intros [Ht _] t1 p t2 e -> (u1 & u2 & ->)%list_elem_of_split Htouch.
  destruct (Ht (t1 ++ Mark p :: u1) e u2) as [H _].
  { by rewrite <- app_assoc. }
  destruct (H p Htouch) as [Hnot _]. apply Hnot.
  apply elem_of_app. right. by left.
Qed.

Lemma good_mark_follows t : good t → mark_follows t.
Proof.
  intros [Ht Hc] t1 p t2 Heq.
  destruct t2 as [|e t2].
  - destruct (Hc p) as [H1 H2].
    destruct Heq as [->| ->]; rewrite last_snoc in *; congruence.
  - exists t2. f_equal.
    assert (step_ok (t1 ++ [RStat p true]) e ∨ step_ok (t1 ++ [RMkdir p true]) e)
      as [H|H].
    { destruct Heq as [->| ->]; [left|right];
        (eapply Ht; rewrite <- app_assoc; reflexivity). }
    + apply H. left. apply last_snoc.
    + apply H. right. apply last_snoc.
Qed.

Lemma good_root_to_leaf t : good t → root_to_leaf t.
Proof.
  intros [Ht _] t1 e t2 p a -> Htouch Hpre Hne.
  destruct (Ht t1 e t2 eq_refl) as [H _].
  by apply (H p Htouch).
Qed.

End TraceFacts.

Module PushInv.
Import Trace TraceFacts WebDAV.

Lemma push_inv_nil : push_inv ∅ [].
Proof.
  split; [apply good_nil|]. split; [|split].
  - intros p. unfold cached. rewrite lookup_empty. split; [done|].
    by intros ?%elem_of_nil.
  - by intros e p ?%elem_of_nil.
  - by intros p a ?%elem_of_nil.
Qed.

Lemma neutral_not_closing e p :
  neutral e → e ≠ RStat p true ∧ e ≠ RMkdir p true.
Proof. intros [H _]. split; intros ->; done. Qed.

Lemma good_neutral t e : good t → neutral e → good (t ++ [e]).
Proof.
  intros [Ht Hc] He. split.
  - apply each_after_snoc; [done|].
    destruct He as [He1 He2].
    split; [|split; [|split; [|split]]].
    + intros p Hp. congruence.
    + intros p ok ->. done.
    + intros p ok ->. done.
    + intros p ->. by destruct (He2 p).
    + intros p [H|H]; by destruct (Hc p).
  - intros p. rewrite last_snoc.
    destruct (neutral_not_closing e p He). split; congruence.
Qed.

Lemma push_inv_neutral c t e :
  push_inv c t → neutral e → push_inv c (t ++ [e]).
Proof.
  intros (Hg & Hc & Ht & Ha) He. split; [by apply good_neutral|].
  assert (∀ p, Mark p ∈ t ++ [e] ↔ Mark p ∈ t) as Hm.
  { intros p. rewrite elem_of_app, list_elem_of_singleton.
    split; [|by left]. intros [H|H]; [done|].
    destruct He as [_ He]. by destruct (He p). }
  split; [|split].
  - intros p. by rewrite Hm.
  - intros e' p [H| ->%list_elem_of_singleton]%elem_of_app Hp.
    + apply Hm. by eapply Ht.
    + destruct He. congruence.
  - intros p a Hp%Hm Hpre. apply Hm. by eapply Ha.
Qed.

Lemma settled_mono a t u : settled a t → settled a (t ++ u).
Proof. intros [H|H]; [left|right]; apply elem_of_app; by left. Qed.

Lemma cached_insert c dir p :
  cached (<[dir := true]> c) p = true ↔ p = dir ∨ cached c p = true.
Proof.
  unfold cached. destruct (decide (p = dir)) as [->|Hne].
  - rewrite lookup_insert_eq. naive_solver.
  - rewrite lookup_insert_ne by done. naive_solver.
Qed.

Section Settle.
Variables (c : gmap Uri bool) (t : list event) (dir : Uri).
Hypothesis Hinv : push_inv c t.
Hypothesis Hfresh : cached c dir = false.
Hypothesis Hparents : ∀ a, a `prefix_of` dir → a ≠ dir → Mark a ∈ t.

Lemma fresh_unmarked : Mark dir ∉ t.
Proof using Hinv Hfresh.
  destruct Hinv as (_ & Hc & _). intros H%Hc. congruence.
Qed.

Lemma fresh_untouched e : e ∈ t → touches e ≠ Some dir.
Proof using Hinv Hfresh.
  intros He Hp. apply fresh_unmarked.
  destruct Hinv as (_ & _ & Ht & _). by eapply Ht.
Qed.

Lemma step_stat ok : step_ok t (RStat dir ok).
Proof using Hinv Hfresh Hparents.
  destruct Hinv as ([Hg Hcl] & _).
  split; [|split; [|split; [|split]]].
  - intros p [= <-]. split; [apply fresh_unmarked|].
    intros a Ha Hne. apply marked_settled; [done|]. by apply Hparents.
  - intros p ok' [= <- _]. apply untouched_counts, fresh_untouched.
  - done.
  - done.
  - intros p [H|H]; by destruct (Hcl p).
Qed.

Lemma step_mkdir ok : step_ok (t ++ [RStat dir false]) (RMkdir dir ok).
Proof using Hinv Hfresh Hparents.
  destruct Hinv as ([Hg Hcl] & _).
  split; [|split; [|split; [|split]]].
  - intros p [= <-]. split.
    + intros [H|H%list_elem_of_singleton]%elem_of_app; [|done].
      by apply fresh_unmarked.
    + intros a Ha Hne. apply settled_mono, marked_settled; [done|].
      by apply Hparents.
  - done.
  - intros p ok' [= <- _]. rewrite mkdirs_snoc. simpl.
    destruct (untouched_counts dir t fresh_untouched) as [_ ->]. done.
  - done.
  - intros p. rewrite last_snoc. intros [H|H]; congruence.
Qed.

Lemma step_mark h e :
  e = RStat dir true ∨ e = RMkdir dir true → step_ok (h ++ [e]) (Mark dir).
Proof.
  intros He. split; [|split; [|split; [|split]]]; try done.
  - intros p [= <-]. rewrite last_snoc. destruct He as [->| ->]; auto.
  - intros p. rewrite last_snoc.
    destruct He as [->| ->]; intros [H|H]; congruence.
Qed.

Lemma good_stat_failed : good (t ++ [RStat dir false; RMkdir dir false]).
Proof using Hinv Hfresh Hparents.
  destruct Hinv as ([Hg Hcl] & _). split.
  - change (each_after step_ok (t ++ [RStat dir false] ++ [RMkdir dir false])).
    rewrite app_assoc.
    apply each_after_snoc; [|apply step_mkdir].
    apply each_after_snoc; [done|apply step_stat].
  - intros p. rewrite last_app. simpl. split; congruence.
Qed.

Lemma marks_after h :
  (∀ p, Mark p ∈ h ↔ Mark p ∈ t) → (∀ e, e ∈ h → e ∈ t ∨ touches e = Some dir) →
  each_after step_ok (h ++ [Mark dir]) →
  push_inv (<[dir := true]> c) (h ++ [Mark dir]).
Proof using Hinv Hfresh Hparents.
  intros Hm Hh Hgood.
  destruct Hinv as ([Hg Hcl] & Hc & Ht & Ha).
  assert (∀ p, Mark p ∈ h ++ [Mark dir] ↔ p = dir ∨ Mark p ∈ t) as Hm'.
  { intros p. rewrite elem_of_app, list_elem_of_singleton, Hm.
    naive_solver. }
  split; [|split; [|split]].
  - split; [done|]. intros p. rewrite last_snoc. split; congruence.
  - intros p. rewrite cached_insert, Hm', Hc. done.
  - intros e p [He| ->%list_elem_of_singleton]%elem_of_app Hp; [|done].
    apply Hm'. destruct (Hh e He) as [H|H]; [|left; congruence].
    right. by eapply Ht.
  - intros p a [->|Hp]%Hm' Hpre; apply Hm'.
    + destruct (decide (a = dir)); [by left|right]. by apply Hparents.
    + right. by eapply Ha.
Qed.

Lemma push_inv_found :
  push_inv (<[dir := true]> c) (t ++ [RStat dir true; Mark dir]).
Proof using Hinv Hfresh Hparents.
  change (push_inv (<[dir := true]> c)
            (t ++ [RStat dir true] ++ [Mark dir])).
  rewrite app_assoc. apply marks_after.
  - intros p. rewrite elem_of_app, list_elem_of_singleton. naive_solver.
  - intros e [H| ->%list_elem_of_singleton]%elem_of_app; auto.
  - apply each_after_snoc; [|apply step_mark; auto].
    apply each_after_snoc; [apply Hinv|apply step_stat].
Qed.

Lemma push_inv_created :
  push_inv (<[dir := true]> c)
    (t ++ [RStat dir false; RMkdir dir true; Mark dir]).
Proof using Hinv Hfresh Hparents.
  change (push_inv (<[dir := true]> c)
            (t ++ ([RStat dir false] ++ [RMkdir dir true]) ++ [Mark dir])).
  rewrite !app_assoc. apply marks_after.
  - intros p. rewrite !elem_of_app, !list_elem_of_singleton. naive_solver.
  - intros e [[H| ->%list_elem_of_singleton]%elem_of_app
             | ->%list_elem_of_singleton]%elem_of_app; auto.
  - apply each_after_snoc; [|apply step_mark; auto].
    apply each_after_snoc; [|apply step_mkdir].
    apply each_after_snoc; [apply Hinv|apply step_stat].
Qed.

End Settle.
End PushInv.

(** ** The push of the WebDAV backend *)

Module PushProofs.
Import Trace TraceFacts PushInv WebDAV.

Lemma removelast_shorter {A} (l : list A) :
  l ≠ [] → length (removelast l) < length l.
Proof.
  destruct l as [|x l _] using rev_ind; [done|]. intros _.
  rewrite removelast_last, length_app. simpl. lia.
Qed.

Lemma prefix_removelast {A} (a l : list A) :
  a `prefix_of` l → a ≠ l → a `prefix_of` removelast l.
Proof.
  intros [k ->] Hne. destruct k as [|x k _] using rev_ind.
  - by rewrite app_nil_r in Hne.
  - rewrite app_assoc, removelast_last. by apply prefix_app_r.
Qed.

Lemma removelast_prefix {A} (l : list A) : removelast l `prefix_of` l.
Proof.
  destruct l as [|x l _] using rev_ind; [done|].
  rewrite removelast_last. by apply prefix_app_r.
Qed.

Section Proofs.
Context {Remote : Type}.
Variable fs : WebDAVFS Remote.
Variable globby : list string → Disk → list (list string).

Abbreviation cache w := (exists_cache (backend w)).

Lemma settle_run dir (w : world (fields Remote)) :
  let b := backend w in
  (∃ r', settle fs dir w =
     (Returned tt,
      World (repo w) (mkFields (url b) r' (<[dir := true]> (exists_cache b)))
        (trace w ++ [RStat dir true; Mark dir])))
  ∨ (∃ r', settle fs dir w =
     (Returned tt,
      World (repo w) (mkFields (url b) r' (<[dir := true]> (exists_cache b)))
        (trace w ++ [RStat dir false; RMkdir dir true; Mark dir])))
  ∨ (∃ r' e, settle fs dir w =
     (Thrown e,
      World (repo w) (mkFields (url b) r' (exists_cache b))
        (trace w ++ [RStat dir false; RMkdir dir false]))).
Proof.
  destruct w as [r [u rem c] t].
  unfold settle, this_fs_stat, this_fs_mkdir, request, mark.
  unfold try_catch, bind, get_backend, put_backend, emit, lift_result, ret,
    throw. simpl.
  destruct (stat fs dir rem) as [[e|s] r1]; simpl.
  - destruct (mkdir fs dir r1) as [[e'|[]] r2]; simpl;
      rewrite <- ?app_assoc; simpl; eauto 10.
  - rewrite <- ?app_assoc; simpl; eauto 10.
Qed.

Lemma ensureDir_fuel_S fuel dir (w : world (fields Remote)) :
  ensureDir_fuel fs (S fuel) dir w =
  if cached (cache w) dir then (Returned tt, w)
  else
    match (if bool_decide (dir ≠ Uri_root)
           then ensureDir_fuel fs fuel (Uri_parent dir)
           else ret tt) w with
    | (Returned _, w1) => settle fs dir w1
    | (Thrown e, w1) => (Thrown e, w1)
    | (OutOfFuel, w1) => (OutOfFuel, w1)
    end.
Proof.
  simpl. unfold bind at 1. unfold get_backend.
  destruct (cached (cache w) dir); [done|].
  unfold bind at 1. reflexivity.
Qed.

Lemma keeps_ret {A} (a : A) : keeps (Remote:=Remote) (ret a).
Proof. intros w t0 t Ht Hi. simpl. eauto. Qed.

Lemma keeps_throw {A} e : keeps (Remote:=Remote) (throw (A:=A) e).
Proof. intros w t0 t Ht Hi. simpl. exists t. split; [done|apply Hi]. Qed.

Lemma keeps_bind {A C} (m : M (fields Remote) A) (k : A → M (fields Remote) C) :
  keeps m → (∀ a, keeps (k a)) → keeps (bind m k).
Proof.
  intros Hm Hk w t0 t Ht Hi. unfold bind.
  specialize (Hm w t0 t Ht Hi).
  destruct (m w) as [[a|e|] w']; [|done..].
  destruct Hm as (t' & Ht' & Hi'). by apply (Hk a w' t0 t').
Qed.

Lemma keeps_emit e : neutral e → keeps (Remote:=Remote) (emit e).
Proof.
  intros He w t0 t Ht Hi. simpl. exists (t ++ [e]).
  rewrite Ht, app_assoc. split; [done|]. by apply push_inv_neutral.
Qed.

Lemma keeps_lift {A} (r : result A) : keeps (Remote:=Remote) (lift_result r).
Proof. destruct r; [apply keeps_throw|apply keeps_ret]. Qed.

Lemma keeps_request {A} (f : Remote → result A * Remote) ev :
  (∀ res e, ev res = Some e → neutral e) → keeps (request f ev).
Proof.
  intros Hev w t0 t Ht Hi. unfold request, bind, get_backend, put_backend. simpl.
  destruct (f (remote (backend w))) as [res r'] eqn:Hf. simpl.
  destruct (ev res) as [e|] eqn:He; simpl.
  - destruct res as [err|a]; simpl; exists (t ++ [e]);
      rewrite Ht, app_assoc; (split; [done|]).
    + apply good_neutral; [apply Hi|by eapply Hev].
    + apply push_inv_neutral; [done|by eapply Hev].
  - destruct res as [err|a]; simpl; exists t; (split; [done|]);
      [apply Hi|done].
Qed.

Lemma keeps_get_repo : keeps (Remote:=Remote) get_repo.
Proof. intros w t0 t Ht Hi. simpl. eauto. Qed.

Lemma keeps_fs_readFile p : keeps (fs_readFile (B:=fields Remote) p).
Proof.
  apply keeps_bind; [by apply keeps_emit|]. intros _.
  apply keeps_bind; [apply keeps_get_repo|]. intros r. apply keeps_lift.
Qed.

Lemma settle_keeps dir (w : world (fields Remote)) t0 t :
  trace w = t0 ++ t → push_inv (cache w) t → cached (cache w) dir = false →
  (∀ a, a `prefix_of` dir → a ≠ dir → Mark a ∈ t) →
  match settle fs dir w with
  | (Returned _, w') =>
      ∃ t', trace w' = t0 ++ t' ∧ push_inv (cache w') t'
            ∧ cached (cache w') dir = true
  | (Thrown _, w') => ∃ t', trace w' = t0 ++ t' ∧ good t'
  | (OutOfFuel, _) => False
  end.
Proof.
  intros Ht Hi Hfresh Hparents.
  destruct (settle_run dir w) as [(r' & ->)|[(r' & ->)|(r' & e & ->)]];
    simpl; rewrite Ht, <- app_assoc; eexists; (split; [reflexivity|]).
  - split; [by apply push_inv_found|]. apply cached_insert. by left.
  - split; [by apply push_inv_created|]. apply cached_insert. by left.
  - by eapply good_stat_failed.
Qed.

(** [ensureDir(dir)] leaves alone the marks of the paths longer than [dir]. *)
Lemma ensureDir_fuel_frame fuel :
  ∀ dir (w : world (fields Remote)) p, length dir < length p →
    cached (cache (ensureDir_fuel fs fuel dir w).2) p = cached (cache w) p.
Proof.
  induction fuel as [|fuel IH]; intros dir w p Hlen; [done|].
  rewrite ensureDir_fuel_S. destruct (cached (cache w) dir); [done|].
  assert (∀ w1 : world (fields Remote),
    cached (cache (settle fs dir w1).2) p = cached (cache w1) p) as Hsettle.
  { intros w1.
    destruct (settle_run dir w1) as [(r' & ->)|[(r' & ->)|(r' & e & ->)]];
      simpl; [| |done]; unfold cached;
      (rewrite lookup_insert_ne; [done|]); intros ->; lia. }
  case_bool_decide as Hroot.
  - specialize (IH (Uri_parent dir) w p).
    pose proof (removelast_shorter dir Hroot) as Hshort.
    unfold Uri_parent in *.
    destruct (ensureDir_fuel fs fuel (removelast dir) w) as [[[]|e|] w1];
      simpl in *; [rewrite Hsettle|..]; apply IH; lia.
  - simpl. apply Hsettle.
Qed.

Lemma ensureDir_fuel_keeps fuel :
  ∀ dir (w : world (fields Remote)) t0 t,
    length dir < fuel → trace w = t0 ++ t → push_inv (cache w) t →
    match ensureDir_fuel fs fuel dir w with
    | (Returned _, w') =>
        ∃ t', trace w' = t0 ++ t' ∧ push_inv (cache w') t'
              ∧ cached (cache w') dir = true
    | (Thrown _, w') => ∃ t', trace w' = t0 ++ t' ∧ good t'
    | (OutOfFuel, _) => False
    end.
Proof.
  induction fuel as [|fuel IH]; intros dir w t0 t Hlen Ht Hi; [lia|].
  rewrite ensureDir_fuel_S. destruct (cached (cache w) dir) eqn:Hfresh.
  { exists t. done. }
  case_bool_decide as Hroot.
  - pose proof (removelast_shorter dir Hroot) as Hshort.
    specialize (IH (Uri_parent dir) w t0 t).
    pose proof (ensureDir_fuel_frame fuel (Uri_parent dir) w dir) as Hframe.
    unfold Uri_parent in *.
    destruct (ensureDir_fuel fs fuel (removelast dir) w) as [[[]|e|] w1];
      simpl in *; [|apply IH; (lia || done)..].
    destruct IH as (t1 & Ht1 & Hi1 & Hc1); [lia|done..|].
    apply (settle_keeps dir w1 t0 t1); [done..| |].
    + rewrite Hframe; [done|lia].
    + intros a Ha Hne. destruct Hi1 as (_ & Hm & _ & Hanc).
      apply (Hanc (removelast dir)); [by apply Hm|].
      by apply prefix_removelast.
  - simpl. apply (settle_keeps dir w t0 t); [done..|].
    intros a Ha Hne. unfold Uri_root in Hroot. subst dir.
    apply prefix_nil_inv in Ha. done.
Qed.

Lemma keeps_ensureDir dir : keeps (ensureDir fs dir).
Proof.
  intros w t0 t Ht Hi. unfold ensureDir.
  pose proof (ensureDir_fuel_keeps (S (length dir)) dir w t0 t) as H.
  destruct (ensureDir_fuel fs (S (length dir)) dir w) as [[[]|e|] w'].
  - destruct H as (t' & ? & ? & _); [lia|done..|]. eauto.
  - apply H; [lia|done..].
  - apply H; [lia|done..].
Qed.

Lemma keeps_for_of {A} (xs : list A) body :
  (∀ x, keeps (Remote:=Remote) (body x)) → keeps (for_of xs body).
Proof.
  intros Hb. induction xs as [|x xs IH]; simpl.
  - apply keeps_ret.
  - apply keeps_bind; [apply Hb|]. intros _. apply IH.
Qed.

Lemma neutral_log msg : neutral (LogInfo msg).
Proof. by split. Qed.

Lemma keeps_pushFile localFile remoteFile :
  keeps (pushFile fs localFile remoteFile).
Proof.
  unfold pushFile.
  apply keeps_bind; [apply keeps_emit, neutral_log|]. intros _.
  apply keeps_bind; [apply keeps_ensureDir|]. intros _.
  apply keeps_bind; [apply keeps_fs_readFile|]. intros data.
  apply keeps_request. intros res e [= <-]. by split.
Qed.

(** The requests of a push form a good trace, however the push ends. *)
Lemma push_good (w : world (fields Remote)) :
  (push fs globby w).1 ≠ OutOfFuel
  ∧ ∃ t, trace (push fs globby w).2 = trace w ++ t ∧ good t.
Proof.
  set (body := λ file, pushFile fs (path_join (rootPath (repo w)) file)
                         (Uri_file file)).
  set (rest := for_of (globby (rootPath (repo w)) (disk (repo w))) body ;;
               Logger_info "push done").
  set (w0 := World (repo w) (mkFields (url (backend w)) (remote (backend w)) ∅)
               (trace w ++ [LogInfo "push to webdav"])).
  assert (push fs globby w = rest w0) as ->.
  { unfold push. unfold bind at 1. unfold Logger_info at 1, emit at 1.
    unfold bind at 1. unfold get_repo at 1. cbn [repo].
    unfold bind at 1. unfold new_exists at 1.
    unfold bind at 1. unfold get_backend at 1, put_backend at 1.
    cbn [repo backend trace]. reflexivity. }
  assert (keeps rest) as Hrest.
  { apply keeps_bind.
    - apply keeps_for_of. intros file. unfold body.
      exact (keeps_pushFile _ _).
    - intros _. apply keeps_emit, neutral_log. }
  specialize (Hrest w0 (trace w) [LogInfo "push to webdav"] eq_refl).
  assert (push_inv (cache w0) [LogInfo "push to webdav"]) as Hstart.
  { apply (push_inv_neutral _ []); [apply push_inv_nil|apply neutral_log]. }
  specialize (Hrest Hstart).
  destruct (rest w0) as [[[]|e|] w']; [|done..].
  split; [done|].
  destruct Hrest as (t' & Ht' & Hi'). exists t'. split; [done|apply Hi'].
Qed.

(** [ensureDir] marks its directory whenever it returns, in whatever state
    it starts. *)
Lemma ensureDir_fuel_marks fuel dir (w : world (fields Remote)) :
  (ensureDir_fuel fs fuel dir w).1 = Returned tt →
  cached (cache (ensureDir_fuel fs fuel dir w).2) dir = true.
Proof.
  destruct fuel as [|fuel]; [done|].
  rewrite ensureDir_fuel_S. destruct (cached (cache w) dir) eqn:Hc; [done|].
  destruct ((if bool_decide (dir ≠ Uri_root)
             then ensureDir_fuel fs fuel (Uri_parent dir)
             else ret tt) w) as [[[]|e|] w1]; [|done..].
  destruct (settle_run dir w1) as [(r' & ->)|[(r' & ->)|(r' & e & ->)]];
    simpl; [| |done]; intros _; apply cached_insert; by left.
Qed.

Lemma settle_not_out_of_fuel dir (w : world (fields Remote)) :
  (settle fs dir w).1 ≠ OutOfFuel.
Proof.
  by destruct (settle_run dir w) as [(r' & ->)|[(r' & ->)|(r' & e & ->)]].
Qed.

(** The depth of the path bounds the depth of the recursion. *)
Lemma ensureDir_fuel_total fuel :
  ∀ dir (w : world (fields Remote)),
    length dir < fuel → (ensureDir_fuel fs fuel dir w).1 ≠ OutOfFuel.
Proof.
  induction fuel as [|fuel IH]; intros dir w Hlen; [lia|].
  rewrite ensureDir_fuel_S. destruct (cached (cache w) dir); [done|].
  case_bool_decide as Hroot.
  - pose proof (removelast_shorter dir Hroot) as Hshort.
    specialize (IH (Uri_parent dir) w). unfold Uri_parent in *.
    destruct (ensureDir_fuel fs fuel (removelast dir) w) as [[[]|e|] w1];
      simpl in *; [apply settle_not_out_of_fuel|done|].
    apply IH. lia.
  - apply settle_not_out_of_fuel.
Qed.

(** Fuel beyond the depth of the path changes nothing. *)
Lemma ensureDir_fuel_enough fuel :
  ∀ fuel' dir (w : world (fields Remote)),
    length dir < fuel → length dir < fuel' →
    ensureDir_fuel fs fuel dir w = ensureDir_fuel fs fuel' dir w.
Proof.
  induction fuel as [|fuel IH]; intros fuel' dir w Hlen Hlen'; [lia|].
  destruct fuel' as [|fuel']; [lia|].
  rewrite !ensureDir_fuel_S. destruct (cached (cache w) dir); [done|].
  case_bool_decide as Hroot; [|done].
  pose proof (removelast_shorter dir Hroot) as Hshort. unfold Uri_parent.
  rewrite (IH fuel' (removelast dir) w); [done|lia..].
Qed.

(** C1: a push ends (it returns or throws), and among its requests every
    remote directory is probed at most once and created at most once; once
    [exists] marks a path, no request probes or creates it for the rest of
    the push; and the mark is what follows a probe that succeeded as well
    as a creation that succeeded, so that a call of [ensureDir] that
    returns leaves its path marked. *)
Theorem push_each_directory_once (w : world (fields Remote)) :
  (push fs globby w).1 ≠ OutOfFuel
  ∧ (∃ t, trace (push fs globby w).2 = trace w ++ t
          ∧ at_most_once t ∧ marked_is_final t ∧ mark_follows t)
  ∧ ∀ dir (w0 : world (fields Remote)),
      (ensureDir fs dir w0).1 = Returned tt →
      cached (cache (ensureDir fs dir w0).2) dir = true.
Proof.
  destruct (push_good w) as (Hfuel & t & Ht & Hg).
  split; [done|]. split.
  - exists t.
    split; [done|]. split; [by apply good_at_most_once|].
    split; [by apply good_marked_is_final|by apply good_mark_follows].
  - intros dir w0. apply ensureDir_fuel_marks.
Qed.

(** C2: during a push, a request that probes or creates a directory comes
    only after each proper ancestor of the directory was found present or
    was created, whatever the depth: the directories are settled from the
    root to the leaf. *)
Theorem push_settles_root_to_leaf (w : world (fields Remote)) :
  ∃ t, trace (push fs globby w).2 = trace w ++ t ∧ root_to_leaf t.
Proof.
  destruct (push_good w) as (_ & t & Ht & Hg). exists t.
  split; [done|by apply good_root_to_leaf].
Qed.

(** C9: [ensureDir] terminates on every path.  The parent of a path other
    than the root is strictly shorter; with the depth of the path and one
    more call the recursion never runs out, and more fuel changes nothing;
    at the root no recursive call is made; and on a path that is marked the
    call returns at once, leaving the state as it is. *)
Theorem ensureDir_terminates :
  (∀ dir : Uri, dir ≠ Uri_root → length (Uri_parent dir) < length dir)
  ∧ (∀ dir (w : world (fields Remote)), (ensureDir fs dir w).1 ≠ OutOfFuel)
  ∧ (∀ fuel dir (w : world (fields Remote)),
       length dir < fuel → ensureDir_fuel fs fuel dir w = ensureDir fs dir w)
  ∧ (∀ w : world (fields Remote),
       (ensureDir_fuel fs 1 Uri_root w).1 ≠ OutOfFuel)
  ∧ (∀ dir (w : world (fields Remote)),
       cached (cache w) dir = true →
       ensureDir_fuel fs 1 dir w = (Returned tt, w)).
Proof.
  split; [|split; [|split; [|split]]].
  - intros dir Hroot. by apply removelast_shorter.
  - intros dir w. apply ensureDir_fuel_total. lia.
  - intros fuel dir w Hlen. apply ensureDir_fuel_enough; [done|lia].
  - intros w. apply ensureDir_fuel_total. simpl. lia.
  - intros dir w Hc. rewrite ensureDir_fuel_S. by rewrite Hc.
Qed.

End Proofs.

(** The push of the example mirror to an empty store: the directory [a/b]
    of two of the three files is probed once and created once, after [a]
    and the root. *)
Example push_example :
  let run := WebDAV.push Store.store_fs Store.glob_all
               (Examples.webdav_world true Examples.mirror ∅) in
  run.1 = Returned tt
  ∧ filter (λ e, is_Some (touches e)) (trace run.2)
    = [ RStat [] true;
        RStat ["a"] false; RMkdir ["a"] true;
        RStat ["a"; "b"] false; RMkdir ["a"; "b"] true ]
  ∧ map_to_list (remote (backend run.2)) = map_to_list Examples.store.
Proof. vm_compute. repeat split. Qed.

End PushProofs.

(** ** The local Git backend *)

Module GitProofs.
Import Trace MonadFacts LocalGit.

Section Proofs.
Context {Repo : Type}.
Variable git : SimpleGit Repo.
Variable super_upload : BaseMethod.
Variable super_duplicateProfileTo : string → string → BaseMethod.

Abbreviation W := (world (fields Repo)).

(** [push] by cases: the three ways it can go once [add] has answered. *)
Lemma push_run type p (w : W) :
  let d := disk (repo w) in
  let message := commit_message type (default (profile (repo w)) p) in
  push git type p w =
  match add git "." d (git_state (backend w)) with
  | (inl e, g1) => (Thrown e, after w g1 [GAdd])
  | (inr _, g1) =>
      match status git d g1 with
      | (inl e, g2) => (Thrown e, after w g2 [GAdd])
      | (inr s, g2) =>
          if bool_decide (length (staged s) = 0)
          then (Returned tt,
                after w g2 [GAdd; GStatus (staged s);
                            LogInfo "no changes, no commit"])
          else
            match commit git message d g2 with
            | (res, g3) =>
                (match res with inl e => Thrown e | inr _ => Returned tt end,
                 after w g3 [GAdd; GStatus (staged s);
                             LogInfo ("commit: " +:+ message);
                             GCommit message])
            end
      end
  end.
Proof.
  destruct w as [r [br g] t]. unfold push, git_add, git_status, git_commit,
    command, Logger_info, after.
  unfold bind, get_repo, get_backend, put_backend, emit, lift_result, ret,
    throw. simpl.
  destruct (add git "." (disk r) g) as [[e|[]] g1]; simpl; [done|].
  destruct (status git (disk r) g1) as [[e|s] g2]; simpl; [done|].
  case_bool_decide; simpl.
  { by rewrite <- !app_assoc. }
  destruct (commit git _ (disk r) g2) as [[e|[]] g3]; simpl;
    by rewrite <- !app_assoc.
Qed.









(** C5: when the staged change set is not empty, [push(type, profile)]
    commits: once [git add] has returned and [status] has answered with a
    staged list that is not empty, the push logs the message and hands it
    to [git commit], exactly once, and ends as the commit ends.  The
    message is made of the commit type and the profile name alone: the
    profile followed by [": create"] for CREATE and by [": update"] for
    UPLOAD; for the profile [work] these are ["work: create"] and
    ["work: update"]. *)
Theorem push_commit_message type p (w : W) (s : StatusResult) (g1 g2 : Repo) :
  let d := disk (repo w) in
  let name := default (profile (repo w)) p in
  let message := commit_message type name in
  add git "." d (git_state (backend w)) = (inr tt, g1) →
  status git d g1 = (inr s, g2) →
  staged s ≠ [] →
  (∀ t, trace (push git type p w).2 = trace w ++ t →
     t = [GAdd; GStatus (staged s); LogInfo ("commit: " +:+ message);
          GCommit message]
     ∧ commit_messages t = [message])
  ∧ git_state (backend (push git type p w).2) = (commit git message d g2).2
  ∧ (push git type p w).1
    = match (commit git message d g2).1 with
      | inl e => Thrown e
      | inr _ => Returned tt
      end
  ∧ message = match type with
              | CREATE => name +:+ ": create"
              | UPLOAD => name +:+ ": update"
              end
  ∧ commit_message CREATE "work" = "work: create"
  ∧ commit_message UPLOAD "work" = "work: update".
Proof.
  intros d name message Hadd Hstatus Hstaged.
  rewrite push_run. fold d name message. rewrite Hadd, Hstatus.
  rewrite bool_decide_eq_false_2.
  2:{ intros Hlen. by apply nil_length_inv in Hlen. }
  destruct (commit git message d g2) as [res g3]. simpl.
  split; [|split; [done|split; [done|split; [by destruct type|done]]]].
  intros t <-%trace_delta. done.
Qed.

(** The events of a push that found nothing staged. *)
Lemma push_nothing_staged type p (w : W) t :
  trace (push git type p w).2 = trace w ++ t → GStatus [] ∈ t →
  (push git type p w).1 = Returned tt
  ∧ t = [GAdd; GStatus []; LogInfo "no changes, no commit"].
Proof.
  rewrite push_run.
  destruct (add git _ _ _) as [[e|[]] g1]; simpl.
  { intros <-%trace_delta Hin.
    apply elem_of_cons in Hin as [[=]|Hin]. by apply elem_of_nil in Hin. }
  destruct (status git _ _) as [[e|s] g2]; simpl.
  { intros <-%trace_delta Hin.
    apply elem_of_cons in Hin as [[=]|Hin]. by apply elem_of_nil in Hin. }
  case_bool_decide as Hs; simpl.
  - apply nil_length_inv in Hs. rewrite Hs. by intros <-%trace_delta _.
  - destruct (commit git _ _ _) as [res g3]. simpl.
    intros <-%trace_delta Hin. exfalso.
    apply elem_of_cons in Hin as [[=]|Hin].
    apply elem_of_cons in Hin as [[= Hl]|Hin]; [by rewrite <- Hl in Hs|].
    apply elem_of_cons in Hin as [[=]|Hin].
    apply elem_of_cons in Hin as [[=]|Hin]. by apply elem_of_nil in Hin.
Qed.


Lemma emits_command {A} (P : event → Prop) (f : Disk → Repo → result A * Repo) ev :
  (∀ res e, ev res = Some e → P e) → emits P (command f ev).
Proof.
  intros Hev. unfold command.
  apply emits_bind; [apply emits_get_repo|]. intros r.
  apply emits_bind; [apply emits_get_backend|]. intros b.
  destruct (f (disk r) (git_state b)) as [res g'].
  apply emits_bind; [apply emits_put_backend|]. intros _.
  apply emits_bind; [|intros _; apply emits_lift].
  destruct (ev res) as [e|] eqn:He; [|apply emits_ret].
  apply emits_emit. by eapply Hev.
Qed.

(** [push] logs no error. *)
Lemma emits_push (P : event → Prop) type p :
  (∀ msg, P (LogInfo msg)) → P GAdd → (∀ l, P (GStatus l)) →
  (∀ m, P (GCommit m)) → emits P (push git type p).
Proof.
  intros Hlog Hadd Hstatus Hcommit. unfold push.
  apply emits_bind; [apply emits_get_repo|]. intros r.
  apply emits_bind; [apply emits_command; by intros res e [= <-]|]. intros _.
  apply emits_bind.
  { apply emits_command. intros [e|s] ev [= <-]. apply Hstatus. }
  intros s. case_bool_decide; [apply emits_emit, Hlog|].
  apply emits_bind; [apply emits_emit, Hlog|]. intros _.
  apply emits_command. by intros res e [= <-].
Qed.

Lemma emits_pull (P : event → Prop) :
  (∀ msg, P (LogInfo msg)) → (∀ p, P (LMkdirs p)) → (∀ p, P (GCwd p)) →
  P GCheckIsRepo → (∀ b, P (GInit b)) → emits P (pull git).
Proof.
  intros Hlog Hmk Hcwd Hcheck Hinit. unfold pull.
  apply emits_bind; [apply emits_get_repo|]. intros r.
  apply emits_bind.
  { apply emits_bind; [apply emits_emit, Hmk|]. intros _.
    apply emits_update_disk. }
  intros _.
  apply emits_bind; [apply emits_command; intros res e [= <-]; apply Hcwd|].
  intros _.
  apply emits_bind; [apply emits_command; by intros res e [= <-]|].
  intros isRepo. apply emits_bind; [|intros _; apply emits_ret].
  destruct isRepo; simpl; [apply emits_ret|].
  apply emits_bind; [apply emits_emit, Hlog|]. intros _.
  apply emits_bind; [apply emits_get_backend|]. intros b.
  apply emits_command. intros res e [= <-]. apply Hinit.
Qed.

Lemma pull_returns_true : ensures (λ pulled _, pulled = true) (pull git).
Proof.
  unfold pull. repeat (apply ensures_bind_any; intros ?).
  by apply ensures_ret.
Qed.

Lemma initialize_sets_flag :
  ensures (λ _ w', initialized (repo w') = true) (initialize git).
Proof.
  unfold initialize.
  apply (ensures_bind (λ pulled, pulled = true)); [apply pull_returns_true|].
  intros ? ->. simpl. repeat (apply ensures_bind_any; intros ?).
  by intros w.
Qed.

(** C8: [pull()] of the Git backend never returns [false]: it returns
    [true] or it throws.  So [initialize()] never logs that it can not pull
    the repository, and whenever it returns it has set the initialized
    flag. *)
Theorem pull_always_succeeds (w : W) :
  (pull git w).1 ≠ Returned false
  ∧ (∃ t, trace (initialize git w).2 = trace w ++ t
          ∧ LogError cannot_pull ∉ t)
  ∧ ((initialize git w).1 = Returned tt →
     initialized (repo (initialize git w).2) = true).
Proof.
  split; [|split].
  - pose proof (pull_returns_true w) as H.
    destruct (pull git w) as [[[]|e|] w']; simpl in *; congruence.
  - assert (emits (λ e, ∀ msg, e ≠ LogError msg) (initialize git)) as H.
    { unfold initialize.
      apply (emits_bind_ensures (λ pulled, pulled = true));
        [apply pull_returns_true|by apply emits_pull|].
      intros ? ->. simpl.
      apply emits_bind; [apply emits_get_repo|]. intros r.
      apply emits_bind; [apply emits_exists|]. intros found.
      apply emits_bind.
      { destruct found; simpl; [apply emits_ret|].
        apply emits_bind.
        { apply emits_bind; [by apply emits_emit|]. intros _.
          apply emits_update_disk. }
        intros _. apply emits_bind.
        { apply emits_bind; [by apply emits_emit|]. intros _.
          apply emits_update_disk. }
        intros _. by apply emits_push. }
      intros _. apply emits_bind; [apply emits_get_repo|]. intros r'.
      apply emits_put_repo. }
    destruct (H w) as (t & Ht & Hall). exists t. split; [done|].
    intros Hin. rewrite Forall_forall in Hall. by apply (Hall _ Hin cannot_pull).
  - pose proof (initialize_sets_flag w) as H.
    destruct (initialize git w) as [[[]|e|] w']; simpl in *; [done|congruence..].
Qed.

End Proofs.

Lemma changed_same (m : RefGit.Tree) : RefGit.changed m m = [].
Proof.
  unfold RefGit.changed. induction (elements (dom m ∪ dom m)) as [|k l IH];
    [done|].
  rewrite filter_cons. by case_decide.
Qed.

(** After a push that returned, the index is the work tree and nothing
    is staged. *)
Lemma ref_push_clean type p (w : world (fields RefGit.Repo)) :
  (push RefGit.ref_git type p w).1 = Returned tt →
  let w1 := (push RefGit.ref_git type p w).2 in
  let g1 := git_state (backend w1) in
  RefGit.is_repo g1 = true
  ∧ RefGit.index g1 = RefGit.worktree (RefGit.workdir g1) (disk (repo w1))
  ∧ RefGit.changed (RefGit.index g1) (RefGit.head_tree g1) = [].
Proof.
  rewrite push_run. destruct w as [r [br [wd [|] idx cs]] t]; cbn; [|done].
  case_bool_decide as Hstaged; cbn.
  - intros _. apply nil_length_inv in Hstaged. done.
  - intros _. unfold RefGit.head_tree. cbn. by rewrite changed_same.
Qed.

(** A push on a repository in that state stages nothing and commits
    nothing. *)
Lemma ref_push_noop type p (w : world (fields RefGit.Repo)) :
  let g := git_state (backend w) in
  RefGit.is_repo g = true →
  RefGit.index g = RefGit.worktree (RefGit.workdir g) (disk (repo w)) →
  RefGit.changed (RefGit.index g) (RefGit.head_tree g) = [] →
  push RefGit.ref_git type p w =
    (Returned tt,
     World (repo w) (backend w)
       (trace w ++ [GAdd; GStatus []; LogInfo "no changes, no commit"])).
Proof.
  rewrite push_run. destruct w as [r [br [wd isrepo idx cs]] t]. cbn.
  intros -> Hidx Hclean. subst idx. cbn.
  unfold RefGit.head_tree in *. cbn in *. by rewrite Hclean.
Qed.

(** C4: a push that finds nothing staged commits nothing: it issues [add]
    and [status], logs that there are no changes, and returns.  On a Git
    repository a second push that follows a push, with the same files on
    disk, finds nothing staged: the index and the list of commits stay as
    the first push left them. *)
Theorem push_without_changes_commits_nothing :
  (∀ Repo (git : SimpleGit Repo) type p (w : world (fields Repo)) t,
     trace (push git type p w).2 = trace w ++ t → GStatus [] ∈ t →
     (push git type p w).1 = Returned tt
     ∧ t = [GAdd; GStatus []; LogInfo "no changes, no commit"]
     ∧ commit_messages t = [])
  ∧ (∀ type1 p1 type2 p2 (w : world (fields RefGit.Repo)),
       (push RefGit.ref_git type1 p1 w).1 = Returned tt →
       let w1 := (push RefGit.ref_git type1 p1 w).2 in
       let w2 := (push RefGit.ref_git type2 p2 w1).2 in
       (push RefGit.ref_git type2 p2 w1).1 = Returned tt
       ∧ trace w2 =
           trace w1 ++ [GAdd; GStatus []; LogInfo "no changes, no commit"]
       ∧ RefGit.index (git_state (backend w2))
           = RefGit.index (git_state (backend w1))
       ∧ RefGit.commits (git_state (backend w2))
           = RefGit.commits (git_state (backend w1))).
Proof.
  split.
  - intros Repo git type p w t Ht Hin.
    destruct (push_nothing_staged git type p w t Ht Hin) as [Hret ->]. done.
  - intros type1 p1 type2 p2 w Hret.
    destruct (ref_push_clean type1 p1 w Hret) as (Hrepo & Hidx & Hclean).
    intros w1 w2. subst w2.
    rewrite (ref_push_noop type2 p2 w1 Hrepo Hidx Hclean). done.
Qed.

(** On the example repository: the first push commits ["work: update"], the
    second one commits nothing. *)
Lemma push_twice_example :
  let w := Examples.git_repo_world in
  let w1 := (push RefGit.ref_git UPLOAD None w).2 in
  let w2 := (push RefGit.ref_git UPLOAD None w1).2 in
  commit_messages (trace w1) = ["work: update"]
  ∧ trace w2 = trace w1 ++ [GAdd; GStatus []; LogInfo "no changes, no commit"].
Proof.
  split; [by vm_compute|].
  apply (proj2 push_without_changes_commits_nothing
           UPLOAD None UPLOAD None Examples.git_repo_world).
  by vm_compute.
Defined.

(** On the example repository the settings file is staged: the push
    commits it, with the message of an UPLOAD for the profile [work]. *)
Lemma push_commit_example :
  trace (push RefGit.ref_git UPLOAD None Examples.git_repo_world).2
  = trace Examples.git_repo_world
    ++ [GAdd; GStatus [["settings.json"]]; LogInfo "commit: work: update";
        GCommit "work: update"].
Proof.
  set (w := Examples.git_repo_world).
  set (g1 := (RefGit.ref_add "." (disk (repo w)) (git_state (backend w))).2).
  set (s := mkStatus (RefGit.changed (RefGit.index g1) (RefGit.head_tree g1))).
  destruct (push_commit_message RefGit.ref_git UPLOAD None w s g1 g1)
    as (H & _); [by vm_compute|by vm_compute|by vm_compute|].
  destruct (H (drop (length (trace w))
                 (trace (push RefGit.ref_git UPLOAD None w).2))) as [Ht _];
    [by vm_compute|].
  transitivity (trace w ++ drop (length (trace w))
                             (trace (push RefGit.ref_git UPLOAD None w).2));
    [by vm_compute|].
  rewrite Ht. by vm_compute.
Defined.

(** The messages of the two kinds of push for the profile [work], on the
    example repository. *)
Lemma commit_message_example :
  commit_messages (trace (push RefGit.ref_git CREATE None
                            Examples.git_repo_world).2) = ["work: create"]
  ∧ commit_messages (trace (push RefGit.ref_git UPLOAD (Some "home")
                              Examples.git_repo_world).2) = ["home: update"].
Proof. split; by vm_compute. Qed.


End GitProofs.

(** ** The life cycle of the WebDAV backend *)

Module WebDAVProofs.
Import Trace MonadFacts WebDAV.

Lemma append_inv_head (u a b : string) : u +:+ a = u +:+ b → a = b.
Proof. induction u as [|c u IH]; simpl; [done|]. intros [= H]. by apply IH. Qed.

(** The three messages differ, whatever the url. *)
Lemma health_messages_differ (u : string) :
  refused_message u ≠ unauthorized_message u
  ∧ refused_message u ≠ not_found_message u
  ∧ unauthorized_message u ≠ not_found_message u.
Proof.
  unfold refused_message, unauthorized_message, not_found_message.
  split; [|split]; simpl; intros H; [|discriminate..].
  injection H as H. do 2 apply append_inv_head in H. discriminate.
Qed.

Section Proofs.
Context {Remote : Type}.
Variable fs : WebDAVFS Remote.
Variable globby : list string → Disk → list (list string).
Variable TemporaryRepository_initialize : Disk → result unit * Disk.
Variables super_initialize super_download super_upload : BaseMethod.

Abbreviation W := (world (fields Remote)).

Lemma initialize_run (w : W) :
  let b := backend w in
  let '(started, d0) := TemporaryRepository_initialize (disk (repo w)) in
  let r0 := set_disk d0 (repo w) in
  let '(res, rem') := stat fs Uri_root (remote b) in
  let b' := mkFields (url b) rem' (exists_cache b) in
  initialize fs TemporaryRepository_initialize super_initialize w =
  match started with
  | inl e => (Thrown e, World r0 b (trace w ++ [TemporaryInitialize]))
  | inr _ =>
      match res with
      | inl error =>
          (Returned tt,
           World r0 b'
             (trace w ++ [TemporaryInitialize; RStat Uri_root false;
                          LogError (health_message (url b) error)]))
      | inr _ =>
          call_base SuperInitialize super_initialize
            (World r0 b' (trace w ++ [TemporaryInitialize; RStat Uri_root true]))
      end
  end.
Proof.
  destruct w as [r [u rem c] t]. simpl.
  destruct (TemporaryRepository_initialize (disk r)) as [started d0] eqn:Hstart.
  destruct (stat fs Uri_root rem) as [res rem'] eqn:Hstat.
  unfold initialize.
  set (S := call_base SuperInitialize super_initialize). clearbody S.
  cbv [call_static this_fs_stat request Logger_error try_catch bind emit
       get_repo get_backend put_repo put_backend lift_result ret throw
       repo backend trace url remote exists_cache].
  rewrite Hstart. destruct started as [e|[]]; [done|].
  rewrite Hstat. destruct res as [error|s]; simpl; by rewrite <- !app_assoc.
Qed.

(** C6: when the health check, the [stat] of the root, fails, [initialize]
    logs one message and returns without throwing and without going on to
    the initialization of the base class, so that the initialized flag
    stays as it was.  The message is the one for a refused connection when
    the code of the error is ECONNREFUSED, else the one for a missing
    authorization when its status is 401, else the one for a missing url
    when its status is 404, else the error as a string; the first three
    differ from each other. *)
Theorem initialize_health_check (w : W) error rem' :
  (TemporaryRepository_initialize (disk (repo w))).1 = inr tt →
  stat fs Uri_root (remote (backend w)) = (inl error, rem') →
  let run := initialize fs TemporaryRepository_initialize super_initialize w in
  let u := url (backend w) in
  run.1 = Returned tt
  ∧ trace run.2 = trace w ++ [TemporaryInitialize; RStat Uri_root false;
                              LogError (health_message u error)]
  ∧ initialized (repo run.2) = initialized (repo w)
  ∧ (code error = JsString "ECONNREFUSED" →
     health_message u error = refused_message u)
  ∧ (code error ≠ JsString "ECONNREFUSED" → status error = JsNumber 401 →
     health_message u error = unauthorized_message u)
  ∧ (code error ≠ JsString "ECONNREFUSED" → status error ≠ JsNumber 401 →
     status error = JsNumber 404 →
     health_message u error = not_found_message u)
  ∧ (code error ≠ JsString "ECONNREFUSED" → status error ≠ JsNumber 401 →
     status error ≠ JsNumber 404 →
     health_message u error = String_ error)
  ∧ refused_message u ≠ unauthorized_message u
  ∧ refused_message u ≠ not_found_message u
  ∧ unauthorized_message u ≠ not_found_message u.
Proof.
  intros Hstart Hstat. pose proof (initialize_run w) as Hrun. simpl in Hrun.
  destruct (TemporaryRepository_initialize (disk (repo w))) as [started d0].
  simpl in Hstart. subst started. rewrite Hstat in Hrun. simpl.
  rewrite Hrun. simpl. repeat split.
  - unfold health_message. intros ->. by rewrite bool_decide_eq_true_2.
  - unfold health_message. intros H1 H2.
    by rewrite bool_decide_eq_false_2, H2, bool_decide_eq_true_2.
  - unfold health_message. intros H1 H2 H3.
    rewrite bool_decide_eq_false_2 by done.
    rewrite bool_decide_eq_false_2 by done.
    by rewrite H3, bool_decide_eq_true_2.
  - unfold health_message. intros H1 H2 H3.
    by rewrite !bool_decide_eq_false_2.
  - apply health_messages_differ.
  - apply health_messages_differ.
  - apply health_messages_differ.
Qed.

End Proofs.

(** A server that refuses the connection, on a repository that is not
    initialized: the message says so and the flag stays down. *)
Lemma initialize_refused_example :
  let run := initialize (Store.offline_fs Examples.refused) (λ d, (inr tt, d))
               Store.base_skip Examples.offline_world in
  run.1 = Returned tt
  ∧ trace run.2 = [TemporaryInitialize; RStat Uri_root false;
                   LogError (refused_message "http://dav.example")]
  ∧ initialized (repo run.2) = false.
Proof.
  destruct (initialize_health_check (Store.offline_fs Examples.refused)
              (λ d, (inr tt, d)) Store.base_skip Examples.offline_world
              Examples.refused tt eq_refl eq_refl)
    as (H1 & H2 & H3 & _).
  split; [exact H1|]. split; [exact H2|exact H3].
Defined.

End WebDAVProofs.

(** ** The check of the initialized flag *)

Module CheckProofs.
Import Trace MonadFacts.

Section WebDAV.
Import WebDAV.
Context {Remote : Type}.
Variable fs : WebDAVFS Remote.
Variable globby : list string → Disk → list (list string).
Variables super_download super_upload : BaseMethod.

Abbreviation W := (world (fields Remote)).
Abbreviation any := (λ _ : event, True).

Lemma emits_request {A} (f : Remote → result A * Remote) ev :
  emits any (request f ev).
Proof.
  unfold request. apply emits_bind; [apply emits_get_backend|]. intros b.
  destruct (f (remote b)) as [res r'].
  apply emits_bind; [apply emits_put_backend|]. intros _.
  apply emits_bind; [|intros _; apply emits_lift].
  destruct (ev res); [by apply emits_emit|apply emits_ret].
Qed.

Lemma emits_ensureDir_fuel fuel : ∀ dir, emits any (ensureDir_fuel fs fuel dir).
Proof.
  induction fuel as [|fuel IH]; intros dir; simpl.
  { intros w. exists []. by rewrite app_nil_r. }
  apply emits_bind; [apply emits_get_backend|]. intros b.
  destruct (cached (exists_cache b) dir); [apply emits_ret|].
  apply emits_bind; [case_bool_decide; [apply IH|apply emits_ret]|]. intros _.
  apply emits_bind.
  { apply emits_try_catch; [|intros e; apply emits_request].
    apply emits_bind; [apply emits_request|]. intros _. apply emits_ret. }
  intros _. unfold mark.
  apply emits_bind; [apply emits_get_backend|]. intros b'.
  apply emits_bind; [apply emits_put_backend|]. intros _. by apply emits_emit.
Qed.

Lemma emits_webdav_push : emits any (push fs globby).
Proof.
  unfold push. apply emits_bind; [by apply emits_emit|]. intros _.
  apply emits_bind; [apply emits_get_repo|]. intros r.
  apply emits_bind.
  { unfold new_exists. apply emits_bind; [apply emits_get_backend|].
    intros b. apply emits_put_backend. }
  intros _. apply emits_bind; [|intros _; by apply emits_emit].
  apply emits_for_of. intros file. unfold pushFile.
  apply emits_bind; [by apply emits_emit|]. intros _.
  apply emits_bind; [apply emits_ensureDir_fuel|]. intros _.
  apply emits_bind; [|intros data; apply emits_request].
  apply emits_bind; [by apply emits_emit|]. intros _. apply emits_on_disk.
Qed.

Lemma emits_pullFile l r : emits any (pullFile fs l r).
Proof.
  unfold pullFile. apply emits_bind; [apply emits_request|]. intros data.
  apply emits_bind; [by apply emits_emit|]. intros _. apply emits_update_disk.
Qed.

Lemma emits_fse_mkdir p : emits (B:=fields Remote) any (fse_mkdir p).
Proof.
  apply emits_bind; [by apply emits_emit|]. intros _. apply emits_update_disk.
Qed.

Lemma emits_pullDirectory fuel : ∀ l r, emits any (pullDirectory fs fuel l r).
Proof.
  induction fuel as [|fuel IH]; intros l r; simpl.
  { intros w. exists []. by rewrite app_nil_r. }
  apply emits_bind; [apply emits_fse_mkdir|]. intros _.
  apply emits_bind; [apply emits_request|]. intros files.
  apply emits_for_of. intros file.
  destruct (isDirectory file); [apply IH|apply emits_pullFile].
Qed.

Lemma emits_webdav_pull fuel : emits any (pull fs fuel).
Proof.
  unfold pull. apply emits_bind; [by apply emits_emit|]. intros _.
  apply emits_bind; [apply emits_get_repo|]. intros r.
  apply emits_bind.
  { apply emits_bind; [by apply emits_emit|]. intros _. apply emits_update_disk. }
  intros _. apply emits_bind; [apply emits_fse_mkdir|]. intros _.
  apply emits_bind; [apply emits_request|]. intros files.
  apply emits_bind; [|intros _; by apply emits_emit].
  apply emits_for_of. intros file.
  destruct (isDirectory file); [apply emits_pullDirectory|apply emits_pullFile].
Qed.

(** A method that starts with [checkInitialized]: the check is its first
    event, and on an instance that is not initialized its only one. *)
Lemma checked_first {A} (rest : M (fields Remote) A) (w : W) :
  emits any rest →
  ∃ t, trace ((checkInitialized ;; rest) w).2 = trace w ++ CheckInitialized :: t
       ∧ (initialized (repo w) = false →
          t = [] ∧ ∃ e, ((checkInitialized ;; rest) w).1 = Thrown e).
Proof.
  intros Hrest. unfold bind at 1. unfold checkInitialized.
  cbv [bind emit get_repo ret throw repo]. destruct w as [r b t0]. simpl.
  destruct (initialized r) eqn:Hflag.
  - destruct (Hrest (World r b (t0 ++ [CheckInitialized]))) as (t & Ht & _).
    exists t. simpl in Ht. rewrite Ht, <- app_assoc. done.
  - exists []. simpl. split; [done|]. intros _. split; [done|]. eauto.
Qed.

End WebDAV.

(** C10: [upload()] of the Git backend checks no initialized flag: on every
    instance, initialized or not, it calls the upload of the base class
    first and, when that returns, goes on with [push(UPLOAD)]; no check is
    among its events.  [download()] and [upload()] of the WebDAV backend
    start with the check, before any pull or push: on an instance that is
    not initialized they throw with the check as their only event. *)
Theorem upload_checks_initialized :
  (∀ Repo (git : LocalGit.SimpleGit Repo) (super_upload : BaseMethod)
     (w : world (LocalGit.fields Repo)),
     let run := LocalGit.upload git super_upload w in
     let entered := World (super_upload (repo w)).2 (backend w)
                      (trace w ++ [SuperUpload]) in
     (∃ t, trace run.2 = trace w ++ SuperUpload :: t ∧ CheckInitialized ∉ t)
     ∧ run = match (super_upload (repo w)).1 with
             | inl e => (Thrown e, entered)
             | inr _ => LocalGit.push git UPLOAD None entered
             end)
  ∧ (∀ Remote (fs : WebDAV.WebDAVFS Remote) globby
       (super_download super_upload : BaseMethod) fuel
       (w : world (WebDAV.fields Remote)),
       let up := WebDAV.upload fs globby super_upload w in
       let down := WebDAV.download fs super_download fuel w in
       (∃ t, trace up.2 = trace w ++ CheckInitialized :: t
             ∧ (initialized (repo w) = false →
                t = [] ∧ ∃ e, up.1 = Thrown e))
       ∧ (∃ t, trace down.2 = trace w ++ CheckInitialized :: t
               ∧ (initialized (repo w) = false →
                  t = [] ∧ ∃ e, down.1 = Thrown e))).
Proof.
  split.
  - intros Repo git super_upload w run entered.
    assert (run = match (super_upload (repo w)).1 with
                  | inl e => (Thrown e, entered)
                  | inr _ => LocalGit.push git UPLOAD None entered
                  end) as Hrun.
    { subst run entered. unfold LocalGit.upload.
      set (P := LocalGit.push git UPLOAD None). clearbody P.
      cbv [call_base bind emit get_repo put_repo lift_result ret throw
           repo backend trace].
      destruct w as [r b t]. simpl.
      by destruct (super_upload r) as [[e|[]] r1]. }
    split; [|done]. rewrite Hrun.
    destruct (super_upload (repo w)).1 as [e|[]].
    { exists []. split; [done|apply not_elem_of_nil]. }
    assert (emits (λ e, e ≠ CheckInitialized)
              (LocalGit.push git UPLOAD None)) as Hpush.
    { by apply GitProofs.emits_push. }
    destruct (Hpush entered) as (t & Ht & Hall). exists t.
    rewrite Ht. subst entered. simpl. rewrite <- app_assoc. split; [done|].
    intros Hin. rewrite Forall_forall in Hall. by apply (Hall _ Hin).
  - intros Remote fs globby super_download super_upload fuel w up down.
    split.
    + apply checked_first. apply emits_bind; [by apply emits_call_base|].
      intros _. apply emits_webdav_push.
    + apply checked_first. apply emits_bind; [apply emits_webdav_pull|].
      intros _. by apply emits_call_base.
Qed.

End CheckProofs.

(** ** The pull of the WebDAV backend *)

Module PullProofs.
Import Trace MonadFacts WebDAV.

(** *** Directories before their entries, on a server that lists plain names *)

Lemma ordered_nil (K : list string → Prop) : ordered K [].
Proof. intros t1 e t2 p H. by destruct t1. Qed.

Lemma ordered_mono (K K' : list string → Prop) t :
  (∀ d, K d → K' d) → ordered K t → ordered K' t.
Proof.
  intros HK Ht t1 e t2 p Heq Hp.
  destruct (Ht t1 e t2 p Heq Hp); auto.
Qed.

Lemma ordered_app (K : list string → Prop) t u :
  ordered K t → ordered (λ d, K d ∨ LMkdir d ∈ t) u → ordered K (t ++ u).
Proof.
  intros Ht Hu t1 e t2 p Heq Hp.
  apply app_eq_app in Heq as (k & [[Ht1 Heq]|[-> Heq]]).
  - destruct k as [|e' k]; simpl in Heq.
    + rewrite app_nil_r in Ht1. subst t1.
      destruct (Hu [] e t2 p) as [[?|?]|H]; auto.
      by apply elem_of_nil in H.
    + injection Heq as <- ->. by eapply Ht.
  - destruct (Hu k e t2 p Heq Hp) as [[?|?]|H]; auto; right;
      apply elem_of_app; auto.
Qed.

Lemma ordered_app_same (K : list string → Prop) t u : ordered K t → ordered K u → ordered K (t ++ u).
Proof.
  intros Ht Hu. apply ordered_app; [done|].
  eapply ordered_mono; [|done]. auto.
Qed.

Lemma ordered_single (K : list string → Prop) (e : event) :
  (∀ p, creates e = Some p → K (removelast p)) → ordered K [e].
Proof.
  intros He t1 e' t2 p Heq Hp.
  destruct t1 as [|x t1]; [|by destruct t1].
  injection Heq as <- _. left. by apply He.
Qed.

Section Ordering.
Context {Remote : Type}.
Variable fs : WebDAVFS Remote.
Variable I : Remote → Prop.
Hypothesis Hplain : plain_server fs I.

Abbreviation W := (world (fields Remote)).
Abbreviation J := (on_server I (λ _ : FileRepository, True)).

Lemma holds_stuck {A : Type} (K : list string → Prop) :
  holds J (ordered K) (λ _ : A, True) out_of_fuel.
Proof using Type.
  intros w Hw. split; [done|]. split; [|done].
  exists []. split; [by rewrite app_nil_r|apply ordered_nil].
Qed.

Lemma holds_pullFile (K : list string → Prop) (localFile : list string)
    (remoteFile : Uri) :
  K (removelast localFile) →
  holds J (ordered K) (λ _, True) (pullFile fs localFile remoteFile).
Proof using Hplain.
  intros HK. unfold pullFile.
  eapply HoldsFacts.holds_bind; [apply ordered_app_same| |].
  - apply (HoldsFacts.holds_readFile fs I _ Hplain).
    by apply ordered_single.
  - intros data _. unfold fs_writeFile.
    apply HoldsFacts.holds_local; [|done].
    apply ordered_single. by intros p [= <-].
Qed.

(** After [fse.mkdir(q)] the directory [q] is known. *)
Lemma holds_after_mkdir {A : Type} (K : list string → Prop) (q : list string)
    (R : A → Prop) (rest : M (fields Remote) A) :
  K (removelast q) →
  holds J (ordered (λ d, K d ∨ d = q)) R rest →
  holds J (ordered K) R (fse_mkdir q ;; rest).
Proof using Type.
  intros HK Hrest w Hw. unfold bind.
  destruct (HoldsFacts.holds_local I (λ _, True) (λ t, t = [LMkdir q])
              (LMkdir q) (disk_mkdir q) eq_refl ltac:(done) w Hw)
    as (HJ1 & (t1 & Hq & ->) & _).
  fold (fse_mkdir (B:=fields Remote) q) in Hq, HJ1.
  assert (ordered K [LMkdir q]) as Hone.
  { apply ordered_single. by intros p [= <-]. }
  destruct (fse_mkdir q w) as [[[]|e|] w1]; simpl in *.
  - destruct (Hrest w1 HJ1) as (HJ' & (t & Ht & Hord) & HR).
    split; [done|]. split; [|done]. exists ([LMkdir q] ++ t).
    rewrite Ht, Hq, app_assoc. split; [done|].
    apply ordered_app; [done|].
    eapply ordered_mono; [|done]. intros d [?| ->]; auto.
    right. by apply list_elem_of_singleton.
  - split; [done|]. split; [by exists [LMkdir q]|done].
  - split; [done|]. split; [by exists [LMkdir q]|done].
Qed.

Lemma removelast_snoc (l : list string) (n : string) :
  plain n = true → removelast (path_join l [n]) = l.
Proof.
  intros Hn. rewrite PathFacts.path_join_snoc by done. apply removelast_last.
Qed.

Lemma holds_pullDirectory (fuel : nat) :
  ∀ (K : list string → Prop) (localDir : list string) (remoteDir : Uri),
    K (removelast localDir) →
    holds J (ordered K) (λ _, True) (pullDirectory fs fuel localDir remoteDir).
Proof using Hplain.
  induction fuel as [|fuel IH]; intros K localDir remoteDir HK; simpl.
  { apply holds_stuck. }
  apply holds_after_mkdir; [done|].
  eapply HoldsFacts.holds_bind; [apply ordered_app_same| |].
  - apply (HoldsFacts.holds_readdir fs I _ Hplain). by apply ordered_single.
  - intros files Hfiles.
    eapply HoldsFacts.holds_for_of;
      [apply ordered_nil|apply ordered_app_same|exact Hfiles|].
    intros file Hfile. simpl in Hfile. destruct (isDirectory file).
    + apply IH. right. by apply removelast_snoc.
    + apply holds_pullFile. right. by apply removelast_snoc.
Qed.

Lemma dirs_first_pull root msg u :
  ordered (λ d, d = root) u →
  dirs_first root (LogInfo msg :: LRemove root :: LMkdir root :: u).
Proof.
  intros Hu t1 e t2 p Heq Hp Hne.
  destruct t1 as [|e1 t1]; simpl in Heq; injection Heq as <- Heq; [done|].
  destruct t1 as [|e2 t1]; simpl in Heq; injection Heq as <- Heq; [done|].
  destruct t1 as [|e3 t1]; simpl in Heq; injection Heq as <- Heq.
  { simpl in Hp. congruence. }
  rewrite !elem_of_cons.
  destruct (Hu t1 e t2 p Heq Hp) as [->|H]; [by right; right; left|].
  by do 3 right.
Qed.

Lemma dirs_first_prefix root t u : dirs_first root (t ++ u) → dirs_first root t.
Proof.
  intros H t1 e t2 p ->. apply (H t1 e (t2 ++ u)). by rewrite <- app_assoc.
Qed.

(** On a server that lists plain names, the requests of a pull create each
    directory of the mirror before anything in it. *)
Lemma pull_dirs_first fuel (w : W) :
  I (remote (backend w)) →
  ∃ t, trace (pull fs fuel w).2 = trace w ++ t
       ∧ dirs_first (rootPath (repo w)) t.
Proof using Hplain.
  intros HI.
  set (root := rootPath (repo w)).
  set (rest :=
    files <- this_fs_readdir fs Uri_root ;;
    for_of files (λ file,
      if isDirectory file
      then pullDirectory fs fuel (path_join root [name file])
             (Uri_file [name file])
      else pullFile fs (path_join root [name file]) (Uri_file [name file])) ;;
    Logger_info "pull done").
  assert (holds J (ordered (λ d, d = root)) (λ _, True) rest) as Hrest.
  { eapply HoldsFacts.holds_bind; [apply ordered_app_same| |].
    - apply (HoldsFacts.holds_readdir fs I _ Hplain). by apply ordered_single.
    - intros files Hfiles.
      eapply HoldsFacts.holds_bind; [apply ordered_app_same| |].
      + eapply HoldsFacts.holds_for_of;
          [apply ordered_nil|apply ordered_app_same|exact Hfiles|].
        intros file Hfile. simpl in Hfile. destruct (isDirectory file).
        * apply holds_pullDirectory. by apply removelast_snoc.
        * apply holds_pullFile. by apply removelast_snoc.
      + intros _ _. apply HoldsFacts.holds_emit.
        * intros w0 t0. apply HoldsFacts.on_server_trace.
        * by apply ordered_single. }
  assert (pull fs fuel w =
    (Logger_info "pull from webdav" ;; fse_remove root ;; fse_mkdir root ;;
     rest) w) as -> by reflexivity.
  set (w1 := World (repo w) (backend w) (trace w ++ [LogInfo "pull from webdav"])).
  assert (J w1) as HJ1 by done.
  unfold bind at 1. simpl. fold w1. unfold bind at 1.
  destruct (HoldsFacts.holds_local I (λ _, True) (λ t, t = [LRemove root])
              (LRemove root) (λ d, inr (disk_remove root d)) eq_refl
              ltac:(done) w1 HJ1) as (HJ2 & (t2 & H2 & ->) & _).
  fold (fse_remove (B:=fields Remote) root) in H2, HJ2.
  assert (∀ u, ordered (λ d, d = root) u →
    dirs_first root ([LogInfo "pull from webdav"; LRemove root; LMkdir root] ++ u))
    as Hall by (intros u Hu; by apply dirs_first_pull).
  destruct (fse_remove root w1) as [[[]|e|] w2]; simpl in H2, HJ2.
  2,3: exists [LogInfo "pull from webdav"; LRemove root];
       (split; [by simpl; rewrite H2; unfold w1; simpl; rewrite <- app_assoc|]);
       apply (dirs_first_prefix _ _ [LMkdir root]), (Hall []), ordered_nil.
  unfold bind at 1.
  destruct (HoldsFacts.holds_local I (λ _, True) (λ t, t = [LMkdir root])
              (LMkdir root) (disk_mkdir root) eq_refl
              ltac:(done) w2 HJ2) as (HJ3 & (t3 & H3 & ->) & _).
  fold (fse_mkdir (B:=fields Remote) root) in H3, HJ3.
  destruct (fse_mkdir root w2) as [[[]|e|] w3]; simpl in H3, HJ3.
  2,3: exists [LogInfo "pull from webdav"; LRemove root; LMkdir root];
       (split; [by simpl; rewrite H3, H2; unfold w1; simpl; rewrite <- !app_assoc|]);
       rewrite <- (app_nil_r [_; _; _]); apply Hall, ordered_nil.
  destruct (Hrest w3 HJ3) as (_ & (u & Hu & Hord) & _).
  exists ([LogInfo "pull from webdav"; LRemove root; LMkdir root] ++ u).
  split; [|by apply Hall].
  simpl. rewrite Hu, H3, H2. unfold w1. simpl. by rewrite <- !app_assoc.
Qed.

End Ordering.

(** *** The store *)

Import Store.

Lemma is_dir_spec (d : Disk) (p : list string) : is_dir d p = true ↔ p = [] ∨ d !! p = Some Dir.
Proof.
  unfold is_dir. rewrite orb_true_iff, !bool_decide_eq_true. done.
Qed.

Lemma present_false (d : Disk) (p : list string) : present d p = false ↔ p ≠ [] ∧ d !! p = None.
Proof.
  unfold present. rewrite orb_false_iff, !bool_decide_eq_false.
  by rewrite <- eq_None_not_Some.
Qed.

Lemma child_name_spec (p k : Uri) (n : string) : child_name p k = Some n ↔ k = p ++ [n].
Proof.
  unfold child_name. split.
  - case_bool_decide as Hk; [|done]. intros (l & ->)%last_Some.
    rewrite removelast_last in Hk. by subst l.
  - intros ->. rewrite removelast_last, bool_decide_eq_true_2 by done.
    apply last_snoc.
Qed.

Lemma elem_of_entries (r : Disk) (p : Uri) (f : FsStat) :
  f ∈ entries r p ↔
  ∃ x, r !! (p ++ [name f]) = Some x ∧ isDirectory f = bool_decide (x = Dir).
Proof.
  unfold entries. rewrite list_elem_of_omap. split.
  - intros ([k x] & Hin%elem_of_map_to_list & Hf). simpl in Hf.
    destruct (child_name p k) as [n|] eqn:Hn; [|done]. simpl in Hf.
    injection Hf as <-. apply child_name_spec in Hn as ->. by exists x.
  - intros (x & Hx & Hd). exists (p ++ [name f], x).
    split; [by apply elem_of_map_to_list|]. simpl.
    rewrite (proj2 (child_name_spec p _ (name f)) eq_refl). simpl.
    destruct f as [n b]. simpl in *. by rewrite Hd.
Qed.

Lemma NoDup_entries (r : Disk) (p : Uri) : NoDup (name <$> entries r p).
Proof.
  unfold entries.
  pose proof (NoDup_fst_map_to_list r) as Hnd.
  induction (map_to_list r) as [|[k x] l IH]; simpl; [constructor|].
  apply NoDup_cons in Hnd as [Hk Hnd]. specialize (IH Hnd).
  destruct (child_name p k) as [n|] eqn:Hn; simpl; [|done].
  apply NoDup_cons. split; [|done].
  intros (f & Hname & Hf)%list_elem_of_fmap.
  apply list_elem_of_omap in Hf as ([k' x'] & Hin & Hf'). simpl in Hf'.
  destruct (child_name p k') as [n'|] eqn:Hn'; [|done]. simpl in Hf'.
  injection Hf' as <-. simpl in Hname. subst n'.
  apply child_name_spec in Hn, Hn'. subst k k'.
  apply Hk. apply list_elem_of_fmap. by exists (p ++ [n], x').
Qed.

Lemma depth_bound (r : Disk) (k : Uri) (x : node) : r !! k = Some x → length k ≤ depth r.
Proof.
  intros Hk. unfold depth. apply max_list_elem_of_le.
  apply list_elem_of_fmap. exists k. split; [done|].
  apply list_elem_of_fmap. exists (k, x). split; [done|].
  by apply elem_of_map_to_list.
Qed.

Lemma disk_remove_lookup (p : list string) (d : Disk) (k : list string) :
  disk_remove p d !! k = if decide (p `prefix_of` k) then None else d !! k.
Proof.
  unfold disk_remove. case_decide as Hp.
  - apply map_lookup_filter_None. right. intros x _. simpl. tauto.
  - destruct (d !! k) as [x|] eqn:Hk.
    + apply map_lookup_filter_Some. done.
    + apply map_lookup_filter_None. by left.
Qed.

Lemma entries_plain (r : Disk) (p : Uri) (f : FsStat) :
  plain_names r → f ∈ entries r p → plain (name f) = true.
Proof.
  intros Hr (x & Hx & _)%elem_of_entries. specialize (Hr _ _ Hx). simpl in Hr.
  apply Forall_app in Hr as [_ Hn]. exact (proj1 (Forall_singleton _ _) Hn).
Qed.

(** A store with plain names is a server that lists plain names. *)
Lemma store_plain_server (r : Disk) :
  plain_names r → plain_server store_fs (λ rem, rem = r).
Proof.
  intros Hr rem p ->. split; [done|]. split; [done|].
  simpl. unfold store_readdir. intros files.
  destruct (is_dir r p); [|done]. intros [= <-].
  apply Forall_forall. intros f Hf. by eapply entries_plain.
Qed.

Lemma utf8_text_cases (data : string) :
  utf8_text data = data ∨ data = bom +:+ utf8_text data.
Proof.
  unfold utf8_text. destruct data as [|a [|b [|c rest]]]; try by left.
  case_bool_decide as H; [right|by left].
  injection H as -> -> ->. done.
Qed.

Lemma for_of_ext {B A : Type} (xs : list A) (f g : A → M B unit) (w : world B) :
  Forall (λ x, f x = g x) xs → for_of xs f w = for_of xs g w.
Proof.
  intros H. revert w. induction H as [|x xs Hx _ IH]; intros w; simpl; [done|].
  unfold bind. rewrite Hx. destruct (g x w) as [[[]|e|] w1]; [apply IH|done..].
Qed.

Section WellFormed.
Variable r : Disk.
Hypothesis Hwf : well_formed r.
Hypothesis Hnames : plain_names r.

Lemma wf_parent (p : Uri) (n : string) : is_Some (r !! (p ++ [n])) → is_dir r p = true.
Proof using Hwf.
  intros [x Hx]. destruct Hwf as [_ Hall].
  specialize (Hall _ _ Hx). simpl in Hall. by rewrite removelast_last in Hall.
Qed.

(** Nothing lies below what is no directory. *)
Lemma wf_below (p k : Uri) :
  k ≠ [] → r !! p ≠ Some Dir → p ≠ [] → r !! (p ++ k) = None.
Proof using Hwf.
  intros Hk Hp Hne. induction k as [|n k IH] using rev_ind; [done|].
  apply eq_None_not_Some. intros Hsome.
  rewrite app_assoc in Hsome. apply wf_parent, is_dir_spec in Hsome.
  destruct Hsome as [Hnil|Hdir].
  { by apply app_nil in Hnil as [-> _]. }
  destruct k as [|m k].
  - by rewrite app_nil_r in Hdir.
  - rewrite IH in Hdir; done.
Qed.


Abbreviation WS := (world (fields Disk)).

Lemma run_bind {A C : Type} (m : M (fields Disk) A) (k : A → M (fields Disk) C)
    (w w1 : WS) (a : A) :
  m w = (Returned a, w1) → bind m k w = k a w1.
Proof. intros H. unfold bind. by rewrite H. Qed.

Lemma update_disk_ok (e : event) (f : Disk → result Disk) (w : WS) (d' : Disk) :
  f (disk (repo w)) = inr d' →
  ∃ w', (emit e ;; update_disk f) w = (Returned tt, w')
        ∧ backend w' = backend w ∧ disk (repo w') = d'.
Proof.
  intros H. destruct w as [rp b t].
  cbv [update_disk bind emit get_repo put_repo lift_result ret repo backend
       trace]. simpl in H. rewrite H. eexists. by split.
Qed.

Lemma readdir_ok (p : Uri) (w : WS) :
  remote (backend w) = r → is_dir r p = true →
  ∃ w', this_fs_readdir store_fs p w = (Returned (entries r p), w')
        ∧ backend w' = backend w ∧ disk (repo w') = disk (repo w).
Proof using Type.
  destruct w as [rp [u rem c] t]. simpl. intros -> Hd.
  cbv [this_fs_readdir request bind emit get_backend put_backend lift_result
       ret repo backend trace url remote exists_cache readdir store_fs
       store_readdir].
  rewrite Hd. eexists. by split.
Qed.

Lemma readFile_ok (p : Uri) (data : string) (w : WS) :
  remote (backend w) = r → r !! p = Some (File data) →
  ∃ w', this_fs_readFile store_fs p w = (Returned (utf8_text data), w')
        ∧ backend w' = backend w ∧ disk (repo w') = disk (repo w).
Proof using Type.
  destruct w as [rp [u rem c] t]. simpl. intros -> Hp.
  cbv [this_fs_readFile request bind emit get_backend put_backend lift_result
       ret repo backend trace url remote exists_cache readFile store_fs
       store_readFile disk_readFile].
  rewrite Hp. eexists. by split.
Qed.

Lemma mkdir_ok (p : list string) (w : WS) :
  p ≠ [] → disk (repo w) !! p = None →
  is_dir (disk (repo w)) (removelast p) = true →
  ∃ w', fse_mkdir p w = (Returned tt, w')
        ∧ backend w' = backend w
        ∧ disk (repo w') = <[p := Dir]> (disk (repo w)).
Proof using Type.
  intros Hne Hp Hparent. apply update_disk_ok. unfold disk_mkdir.
  by rewrite (proj2 (present_false _ p)), Hparent.
Qed.

Lemma pullFile_ok (localFile : list string) (remoteFile : Uri)
    (data : string) (w : WS) :
  remote (backend w) = r → r !! remoteFile = Some (File data) →
  localFile ≠ [] → disk (repo w) !! localFile = None →
  is_dir (disk (repo w)) (removelast localFile) = true →
  ∃ w', pullFile store_fs localFile remoteFile w = (Returned tt, w')
        ∧ backend w' = backend w
        ∧ disk (repo w')
          = <[localFile := File (utf8_text data)]> (disk (repo w)).
Proof using Type.
  intros Hr Hp Hne Hl Hparent. unfold pullFile.
  destruct (readFile_ok remoteFile data w Hr Hp) as (w1 & Hrun & Hb & Hd).
  rewrite (run_bind _ _ _ _ _ Hrun).
  destruct (update_disk_ok (LWriteFile localFile (utf8_text data))
              (disk_writeFile localFile (utf8_text data)) w1
              (<[localFile := File (utf8_text data)]> (disk (repo w))))
    as (w2 & H2 & Hb2 & Hd2).
  { rewrite Hd. unfold disk_writeFile.
    assert (is_dir (disk (repo w)) localFile = false) as ->.
    { apply not_true_is_false. intros [?|?]%is_dir_spec; congruence. }
    by rewrite Hparent. }
  exists w2. split; [done|]. split; [congruence|done].
Qed.

Lemma snoc_prefix_cons (l : list string) (n m : string) (k : list string) :
  (l ++ [n]) `prefix_of` (l ++ m :: k) → n = m.
Proof. intros H%prefix_app_inv. by apply prefix_cons_inv_1 in H. Qed.

Lemma snoc_not_prefix (l : list string) (n : string) : ¬ (l ++ [n]) `prefix_of` l.
Proof. intros H%prefix_length. rewrite length_app in H. simpl in H. lia. Qed.


(** One entry of a listing. *)
Lemma body_ok (fuel : nat) (localDir : list string) (remoteDir : Uri) (f : FsStat)
    (x : node) (w : WS) :
  pullDirectory_spec r fuel →
  remote (backend w) = r →
  r !! (remoteDir ++ [name f]) = Some x →
  isDirectory f = bool_decide (x = Dir) →
  (∀ k, is_Some (r !! (remoteDir ++ name f :: k)) → length k < fuel) →
  is_dir (disk (repo w)) localDir = true →
  (∀ k, disk (repo w) !! (localDir ++ name f :: k) = None) →
  ∃ w', pull_entry fuel localDir remoteDir f w = (Returned tt, w')
        ∧ backend w' = backend w
        ∧ (∀ k, disk (repo w') !! (localDir ++ name f :: k)
                = text_node <$> r !! (remoteDir ++ name f :: k))
        ∧ (∀ k, ¬ (localDir ++ [name f]) `prefix_of` k →
                disk (repo w') !! k = disk (repo w) !! k).
Proof using Hwf Hnames.
  intros IH Hr Hx Hkind Hfuel Hdir Hfree. unfold pull_entry. rewrite Hkind.
  set (n := name f) in *.
  assert (plain n = true) as Hn.
  { specialize (Hnames _ _ Hx). simpl in Hnames.
    apply Forall_app in Hnames as [_ Hn].
    exact (proj1 (Forall_singleton _ _) Hn). }
  rewrite (PathFacts.path_join_snoc localDir n Hn),
    (PathFacts.Uri_joinPath_plain remoteDir n Hn).
  assert (∀ k, (localDir ++ [n]) ++ k = localDir ++ n :: k) as Hl
    by (intros k; by rewrite <- app_assoc).
  assert (∀ k, (remoteDir ++ [n]) ++ k = remoteDir ++ n :: k) as Hrm
    by (intros k; by rewrite <- app_assoc).
  case_bool_decide as Hd.
  - subst x.
    destruct (IH (localDir ++ [n]) (remoteDir ++ [n]) w)
      as (w' & Hrun & Hb & Hin & Hout).
    + done.
    + done.
    + intros k. rewrite Hrm. apply Hfuel.
    + by intros [? ?]%app_nil.
    + by rewrite removelast_last.
    + intros k. rewrite Hl. apply Hfree.
    + exists w'. split; [done|]. split; [done|]. split; [|done].
      intros k. by rewrite <- Hl, <- Hrm.
  - destruct x as [data|]; [|done].
    assert (localDir ++ [n] ≠ []) as Hne by (by intros [? ?]%app_nil).
    assert (disk (repo w) !! (localDir ++ [n]) = None) as Hnew
      by apply (Hfree []).
    assert (is_dir (disk (repo w)) (removelast (localDir ++ [n])) = true)
      as Hparent by (by rewrite removelast_last).
    destruct (pullFile_ok (localDir ++ [n]) (remoteDir ++ [n])
                data w Hr Hx Hne Hnew Hparent) as (w' & Hrun & Hb & Hd').
    exists w'. split; [done|]. split; [done|]. rewrite Hd'. split.
    + intros k. destruct k as [|m k].
      { by rewrite lookup_insert_eq, Hx. }
      rewrite lookup_insert_ne, Hfree.
      2: { intros H%app_inv_head. done. }
      rewrite <- Hrm. rewrite (wf_below (remoteDir ++ [n])); [done..| |].
      * by rewrite Hx.
      * by intros [? ?]%app_nil.
    + intros k Hk. rewrite lookup_insert_ne; [done|]. by intros <-.
Qed.

(** The loop over a listing without repeated names. *)
Lemma loop_ok (fuel : nat) (localDir : list string) (remoteDir : Uri) :
  pullDirectory_spec r fuel →
  ∀ (files : list FsStat) (w : WS),
    remote (backend w) = r →
    (∀ f, f ∈ files →
       ∃ x, r !! (remoteDir ++ [name f]) = Some x
            ∧ isDirectory f = bool_decide (x = Dir)) →
    NoDup (name <$> files) →
    (∀ n k, is_Some (r !! (remoteDir ++ n :: k)) → length k < fuel) →
    is_dir (disk (repo w)) localDir = true →
    (∀ f k, f ∈ files → disk (repo w) !! (localDir ++ name f :: k) = None) →
    ∃ w', for_of files (pull_entry fuel localDir remoteDir) w = (Returned tt, w')
          ∧ backend w' = backend w
          ∧ (∀ f k, f ∈ files →
               disk (repo w') !! (localDir ++ name f :: k)
               = text_node <$> r !! (remoteDir ++ name f :: k))
          ∧ (∀ k, (∀ f, f ∈ files → ¬ (localDir ++ [name f]) `prefix_of` k) →
                  disk (repo w') !! k = disk (repo w) !! k).
Proof using Hwf Hnames.
  intros IH files. induction files as [|f files IHf];
    intros w Hr Hfiles Hnd Hfuel Hdir Hfree.
  { exists w. split; [done|]. split; [done|]. split; [|done].
    by intros f k ?%elem_of_nil. }
  simpl in Hnd. apply NoDup_cons in Hnd as [Hfresh Hnd].
  destruct (Hfiles f) as (x & Hx & Hkind); [by left|].
  assert (∀ k, disk (repo w) !! (localDir ++ name f :: k) = None) as Hfree1.
  { intros k. apply Hfree. by left. }
  destruct (body_ok fuel localDir remoteDir f x w IH Hr Hx Hkind
              (Hfuel (name f)) Hdir Hfree1)
    as (w1 & Hrun1 & Hb1 & Hin1 & Hout1).
  assert (∀ f', f' ∈ files → ∀ k,
            ¬ (localDir ++ [name f]) `prefix_of` (localDir ++ name f' :: k))
    as Hother.
  { intros f' Hf' k Hpre%snoc_prefix_cons. apply Hfresh.
    rewrite Hpre. apply list_elem_of_fmap. by exists f'. }
  destruct (IHf w1) as (w' & Hrun & Hb & Hin & Hout).
  - congruence.
  - intros f' Hf'. apply Hfiles. by right.
  - done.
  - done.
  - apply is_dir_spec in Hdir. apply is_dir_spec.
    destruct Hdir as [?|Hdir]; [by left|right].
    rewrite Hout1; [done|apply snoc_not_prefix].
  - intros f' k Hf'. rewrite Hout1; [|by apply Hother].
    apply Hfree. by right.
  - exists w'. simpl. rewrite (run_bind _ _ _ _ _ Hrun1).
    split; [done|]. split; [congruence|]. split.
    + intros f' k [->|Hf']%elem_of_cons; [|by apply Hin].
      rewrite Hout; [apply Hin1|].
      intros f' Hf' Hpre%snoc_prefix_cons. apply Hfresh.
      rewrite <- Hpre. apply list_elem_of_fmap. by exists f'.
    + intros k Hk. rewrite Hout, Hout1; [done| |].
      * apply Hk. by left.
      * intros f' Hf'. apply Hk. by right.
Qed.

(** The listing of a directory and the loop over it. *)
Lemma listing_ok (fuel : nat) (localDir : list string) (remoteDir : Uri) (w : WS) :
  pullDirectory_spec r fuel →
  remote (backend w) = r → is_dir r remoteDir = true →
  (∀ n k, is_Some (r !! (remoteDir ++ n :: k)) → length k < fuel) →
  is_dir (disk (repo w)) localDir = true →
  (∀ n k, disk (repo w) !! (localDir ++ n :: k) = None) →
  ∃ w', (files <- this_fs_readdir store_fs remoteDir ;;
         for_of files (pull_entry fuel localDir remoteDir)) w = (Returned tt, w')
        ∧ backend w' = backend w
        ∧ (∀ n k, disk (repo w') !! (localDir ++ n :: k)
                  = text_node <$> r !! (remoteDir ++ n :: k))
        ∧ (∀ k, (∀ n, ¬ (localDir ++ [n]) `prefix_of` k) →
                disk (repo w') !! k = disk (repo w) !! k).
Proof using Hwf Hnames.
  intros IH Hr Hrdir Hfuel Hdir Hfree.
  destruct (readdir_ok remoteDir w Hr Hrdir) as (w1 & Hrun1 & Hb1 & Hd1).
  rewrite (run_bind _ _ _ _ _ Hrun1).
  destruct (loop_ok fuel localDir remoteDir IH (entries r remoteDir) w1)
    as (w' & Hrun & Hb & Hin & Hout).
  - congruence.
  - intros f Hf. by apply elem_of_entries.
  - apply NoDup_entries.
  - done.
  - by rewrite Hd1.
  - intros f k _. rewrite Hd1. apply Hfree.
  - exists w'. split; [done|]. split; [congruence|]. split.
    + intros n k. destruct (r !! (remoteDir ++ [n])) as [x|] eqn:Hx.
      * apply (Hin (mkStat n (bool_decide (x = Dir)))).
        apply elem_of_entries. by exists x.
      * rewrite Hout, Hd1, Hfree.
        2: { intros f (x & Hfx & _)%elem_of_entries Hpre%snoc_prefix_cons.
             congruence. }
        destruct k as [|m k]; [by rewrite Hx|].
        change (remoteDir ++ n :: m :: k) with (remoteDir ++ [n] ++ m :: k).
        rewrite app_assoc. rewrite wf_below; [done..| |].
        -- by rewrite Hx.
        -- by intros [? ?]%app_nil.
    + intros k Hk. rewrite Hout, Hd1; [done|]. intros f _. apply Hk.
Qed.

Lemma pullDirectory_ok (fuel : nat) : pullDirectory_spec r fuel.
Proof using Hwf Hnames.
  induction fuel as [|fuel IH];
    intros localDir remoteDir w Hr Hrdir Hfuel Hne Hparent Hfree.
  { specialize (Hfuel []). rewrite app_nil_r in Hfuel.
    assert (0 < 0) by (apply Hfuel; by exists Dir). lia. }
  assert (disk (repo w) !! localDir = None) as Hnew.
  { specialize (Hfree []). by rewrite app_nil_r in Hfree. }
  destruct (mkdir_ok localDir w Hne Hnew Hparent) as (w1 & Hrun1 & Hb1 & Hd1).
  destruct (listing_ok fuel localDir remoteDir w1 IH)
    as (w' & Hrun & Hb & Hin & Hout).
  - congruence.
  - apply is_dir_spec. by right.
  - intros n k Hk. specialize (Hfuel (n :: k) Hk). simpl in Hfuel. lia.
  - rewrite Hd1. apply is_dir_spec. right. apply lookup_insert_eq.
  - intros n k. rewrite Hd1, lookup_insert_ne; [apply Hfree|].
    intros H. apply (f_equal length) in H. rewrite length_app in H.
    simpl in H. lia.
  - exists w'. split.
    { change (pullDirectory store_fs (S fuel) localDir remoteDir w)
        with ((fse_mkdir localDir ;;
               files <- this_fs_readdir store_fs remoteDir ;;
               for_of files (pull_entry fuel localDir remoteDir)) w).
      by rewrite (run_bind _ _ _ _ _ Hrun1). }
    split; [congruence|]. split.
    + intros [|n k]; [|apply Hin].
      rewrite !app_nil_r, Hout, Hd1, lookup_insert_eq; [by rewrite Hrdir|].
      intros n. apply snoc_not_prefix.
    + intros k Hk. rewrite Hout, Hd1, lookup_insert_ne; [done| |].
      * intros <-. by apply Hk.
      * intros n Hpre. apply Hk. etrans; [|done]. by apply prefix_app_r.
Qed.

(** On a listing of plain names the loop of [pull] is the loop of
    [pullDirectory] at the root. *)
Lemma root_listing_eq (fuel : nat) (root : list string) (w : WS) :
  remote (backend w) = r →
  (files <- this_fs_readdir store_fs Uri_root ;;
   for_of files (λ file,
     if isDirectory file
     then pullDirectory store_fs fuel (path_join root [name file])
            (Uri_file [name file])
     else pullFile store_fs (path_join root [name file])
            (Uri_file [name file]))) w
  = (files <- this_fs_readdir store_fs Uri_root ;;
     for_of files (pull_entry fuel root Uri_root)) w.
Proof using Hnames.
  intros Hr.
  destruct (readdir_ok Uri_root w Hr (proj2 (is_dir_spec r []) (or_introl eq_refl)))
    as (w1 & Hrun & _ & _).
  rewrite !(run_bind _ _ _ _ _ Hrun). apply for_of_ext.
  apply Forall_forall. intros f Hf. unfold pull_entry.
  rewrite (PathFacts.Uri_joinPath_plain Uri_root (name f)); [done|].
  by eapply entries_plain.
Qed.

End WellFormed.


Lemma bind_assoc {B A C D : Type} (m : M B A) (k : A → M B C) (h : C → M B D)
    (w : world B) :
  (x <- m ;; y <- k x ;; h y) w = (y <- (x <- m ;; k x) ;; h y) w.
Proof. unfold bind. by destruct (m w) as [[a|e|] w']. Qed.

(** The pull from a store, as far as the disk and the store go. *)
Lemma pull_from_store (w : world (fields Disk)) (fuel : nat) :
  let r := remote (backend w) in
  let root := rootPath (repo w) in
  let d := disk (repo w) in
  well_formed r → plain_names r → depth r ≤ fuel →
  root ≠ [] → is_dir d (removelast root) = true →
  let run := pull store_fs fuel w in
  run.1 = Returned tt
  ∧ remote (backend run.2) = r
  ∧ disk (repo run.2) !! root = Some Dir
  ∧ (∀ rel, rel ≠ [] →
       disk (repo run.2) !! (root ++ rel) = text_node <$> r !! rel)
  ∧ (∀ k, ¬ root `prefix_of` k → disk (repo run.2) !! k = d !! k).
Proof.
  intros r root d Hwf Hnames Hdepth Hroot Hparent run.
  set (w1 := World (repo w) (backend w)
               (trace w ++ [LogInfo "pull from webdav"])).
  destruct (update_disk_ok (LRemove root) (λ d, inr (disk_remove root d)) w1
              (disk_remove root d) eq_refl) as (w2 & Hrun2 & Hb2 & Hd2).
  destruct (mkdir_ok root w2) as (w3 & Hrun3 & Hb3 & Hd3).
  { done. }
  { rewrite Hd2, disk_remove_lookup. by rewrite decide_True. }
  { apply is_dir_spec in Hparent. apply is_dir_spec.
    destruct Hparent as [?|Hp]; [by left|right].
    rewrite Hd2, disk_remove_lookup, decide_False; [done|].
    intros Hpre%prefix_length.
    pose proof (PushProofs.removelast_shorter root Hroot). lia. }
  assert (remote (backend w3) = r) as Hr3 by (by rewrite Hb3, Hb2).
  destruct (listing_ok r Hwf Hnames fuel root Uri_root w3
              (pullDirectory_ok r Hwf Hnames fuel))
    as (w4 & Hrun4 & Hb4 & Hin & Hout).
  { done. }
  { done. }
  { intros n k [x Hx]. apply depth_bound in Hx. simpl in Hx. fold r in Hx. lia. }
  { rewrite Hd3. apply is_dir_spec. right. apply lookup_insert_eq. }
  { intros n k. rewrite Hd3, lookup_insert_ne, Hd2, disk_remove_lookup.
    - rewrite decide_True; [done|]. by apply prefix_app_r.
    - intros H. apply (f_equal length) in H. rewrite length_app in H.
      simpl in H. lia. }
  assert (run = (Returned tt,
                 World (repo w4) (backend w4) (trace w4 ++ [LogInfo "pull done"])))
    as ->.
  { subst run.
    change (pull store_fs fuel w) with
      ((fse_remove root ;; fse_mkdir root ;;
        files <- this_fs_readdir store_fs Uri_root ;;
        _ <- for_of files (λ file,
               if isDirectory file
               then pullDirectory store_fs fuel (path_join root [name file])
                      (Uri_file [name file])
               else pullFile store_fs (path_join root [name file])
                      (Uri_file [name file])) ;;
        Logger_info "pull done") w1).
    fold (fse_remove (B:=fields Disk) root) in Hrun2.
    rewrite (run_bind _ _ _ _ _ Hrun2), (run_bind _ _ _ _ _ Hrun3).
    rewrite bind_assoc. unfold bind at 1.
    rewrite (root_listing_eq r Hnames fuel root w3 Hr3), Hrun4. done. }
  simpl. split; [done|]. split; [by rewrite Hb4, Hb3, Hb2|]. split; [|split].
  - rewrite Hout, Hd3, lookup_insert_eq; [done|]. intros n. apply snoc_not_prefix.
  - intros [|n k] Hrel; [done|]. apply Hin.
  - intros k Hk. rewrite Hout, Hd3, lookup_insert_ne, Hd2, disk_remove_lookup.
    + by rewrite decide_False.
    + intros <-. by apply Hk.
    + intros n Hpre. apply Hk. etrans; [|done]. by apply prefix_app_r.
Qed.

(** C3: whatever the local mirror held before, a pull from a store (a tree
    of directories and text files with plain names, read with enough fuel
    for its depth) into a mirror whose parent directory exists returns, and
    leaves the mirror equal to the store read as text: the root of the
    mirror is a directory, and every path below it holds what the store
    holds at that path, and nothing where the store has nothing.  The
    content of a file is the content on the store decoded as UTF-8 text and
    written again: the same bytes, but for a byte order mark at the start,
    which is dropped.  The store and the disk outside the mirror are as
    before.  Among the requests of the pull, every directory of the mirror
    is made before anything is made or written in it. *)
Theorem pull_replaces_mirror (w : world (fields Disk)) (fuel : nat) :
  let r := remote (backend w) in
  let root := rootPath (repo w) in
  let d := disk (repo w) in
  well_formed r → plain_names r → depth r ≤ fuel →
  root ≠ [] → is_dir d (removelast root) = true →
  let run := pull store_fs fuel w in
  run.1 = Returned tt
  ∧ remote (backend run.2) = r
  ∧ disk (repo run.2) !! root = Some Dir
  ∧ (∀ rel, rel ≠ [] →
       disk (repo run.2) !! (root ++ rel) = text_node <$> r !! rel)
  ∧ (∀ data, utf8_text data = data ∨ data = bom +:+ utf8_text data)
  ∧ (∀ k, ¬ root `prefix_of` k → disk (repo run.2) !! k = d !! k)
  ∧ (∃ t, trace run.2 = trace w ++ t ∧ dirs_first root t).
Proof.
  intros r root d Hwf Hnames Hdepth Hroot Hparent run.
  destruct (pull_from_store w fuel Hwf Hnames Hdepth Hroot Hparent)
    as (H1 & H2 & H3 & H4 & H5).
  do 4 (split; [done|]). split; [apply utf8_text_cases|].
  split; [done|].
  by apply (pull_dirs_first store_fs (λ rem, rem = r)
              (store_plain_server r Hnames)).
Qed.

(** Pulling the example store into a mirror that held an old file: the
    mirror holds the files of the store, the old file is gone. *)
Lemma pull_example :
  let w := Examples.webdav_world true Examples.stale_mirror Examples.store in
  let d' := disk (repo (pull store_fs 3 w).2) in
  (pull store_fs 3 w).1 = Returned tt
  ∧ d' !! ["tmp"; "m"; "a"; "b"; "x.json"] = Some (File "X")
  ∧ d' !! ["tmp"; "m"; "old.json"] = None.
Proof.
  intros w d'.
  assert (well_formed (remote (backend w))) as Hwf.
  { apply (bool_decide_unpack _). by vm_compute. }
  assert (plain_names (remote (backend w))) as Hnames.
  { apply (bool_decide_unpack _). by vm_compute. }
  assert (depth (remote (backend w)) ≤ 3) as Hdepth by (vm_compute; lia).
  assert (rootPath (repo w) ≠ []) as Hroot by discriminate.
  assert (is_dir (disk (repo w)) (removelast (rootPath (repo w))) = true)
    as Hparent by (by vm_compute).
  destruct (pull_replaces_mirror w 3 Hwf Hnames Hdepth Hroot Hparent)
    as (H1 & _ & _ & H4 & _).
  split; [exact H1|]. split.
  - transitivity (text_node <$> remote (backend w) !! ["a"; "b"; "x.json"]);
      [exact (H4 ["a"; "b"; "x.json"] ltac:(discriminate))|by vm_compute].
  - transitivity (text_node <$> remote (backend w) !! ["old.json"]);
      [exact (H4 ["old.json"] ltac:(discriminate))|by vm_compute].
Defined.

(** A file of the store that starts with a byte order mark: the pull
    returns, and the file of the mirror is not byte for byte the file of
    the store, it lacks the mark. *)
Lemma pull_drops_byte_order_mark :
  let w := Examples.webdav_world true Examples.stale_mirror Examples.marked_store in
  let run := pull store_fs 3 w in
  run.1 = Returned tt
  ∧ remote (backend run.2) !! ["b.txt"] = Some (File (bom +:+ "A"))
  ∧ disk (repo run.2) !! ["tmp"; "m"; "b.txt"] = Some (File "A")
  ∧ ¬ (∀ rel, rel ≠ [] →
         disk (repo run.2) !! (rootPath (repo w) ++ rel)
         = remote (backend run.2) !! rel).
Proof.
  assert (let w := Examples.webdav_world true Examples.stale_mirror
                     Examples.marked_store in
          let run := pull store_fs 3 w in
          run.1 = Returned tt
          ∧ remote (backend run.2) !! ["b.txt"] = Some (File (bom +:+ "A"))
          ∧ disk (repo run.2) !! ["tmp"; "m"; "b.txt"] = Some (File "A"))
    as (H1 & H2 & H3) by (by vm_compute).
  intros w run. split; [exact H1|]. split; [exact H2|]. split; [exact H3|].
  intros H. specialize (H ["b.txt"] ltac:(discriminate)).
  assert (Some (File "A") = Some (File (bom +:+ "A"))) as E.
  { etrans; [symmetry; exact H3|]. etrans; [exact H|exact H2]. }
  discriminate E.
Qed.

End PullProofs.

(** ** More on the push of the WebDAV backend *)

Module PushMore.
Import Trace TraceFacts PushInv PushProofs MonadFacts Coverage WebDAV.

Lemma emits_mono {B A : Type} (P P' : event → Prop) (m : M B A) :
  (∀ e, P e → P' e) → emits P m → emits P' m.
Proof.
  intros HP Hm w. destruct (Hm w) as (t & Ht & Hall). exists t.
  split; [done|]. eapply Forall_impl; eauto.
Qed.

Section Repo.
Context {B : Type}.

Lemma leaves_repo_ret {A : Type} (a : A) : leaves_repo (B:=B) (ret a).
Proof. by intros w. Qed.

Lemma leaves_repo_emit (e : event) : leaves_repo (B:=B) (emit e).
Proof. by intros w. Qed.

Lemma leaves_repo_lift {A : Type} (r : result A) :
  leaves_repo (B:=B) (lift_result r).
Proof. by destruct r; intros w. Qed.

Lemma leaves_repo_bind {A C : Type} (m : M B A) (k : A → M B C) :
  leaves_repo m → (∀ a, leaves_repo (k a)) → leaves_repo (bind m k).
Proof.
  intros Hm Hk w. unfold bind. specialize (Hm w).
  destruct (m w) as [[a|e|] w']; simpl in *; [|done..].
  by rewrite Hk.
Qed.

Lemma leaves_repo_try_catch {A : Type} (m : M B A) (h : JsError → M B A) :
  leaves_repo m → (∀ e, leaves_repo (h e)) → leaves_repo (try_catch m h).
Proof.
  intros Hm Hh w. unfold try_catch. specialize (Hm w).
  destruct (m w) as [[a|e|] w']; simpl in *; [done| |done].
  by rewrite Hh.
Qed.

Lemma leaves_repo_for_of {A : Type} (xs : list A) (body : A → M B unit) :
  (∀ x, leaves_repo (body x)) → leaves_repo (for_of xs body).
Proof.
  intros Hb. induction xs as [|x xs IH]; simpl; [apply leaves_repo_ret|].
  apply leaves_repo_bind; [apply Hb|]. intros _. apply IH.
Qed.

Lemma leaves_repo_fs_readFile (p : list string) :
  leaves_repo (B:=B) (fs_readFile p).
Proof.
  apply leaves_repo_bind; [apply leaves_repo_emit|]. intros _.
  apply leaves_repo_bind; [by intros w|]. intros r. apply leaves_repo_lift.
Qed.

End Repo.

Section Proofs.
Context {Remote : Type}.
Variable fs : WebDAVFS Remote.
Variable globby : list string → Disk → list (list string).

Abbreviation W := (world (fields Remote)).

Lemma leaves_repo_request {A : Type} (f : Remote → result A * Remote)
    (ev : result A → option event) :
  leaves_repo (request f ev).
Proof.
  intros w. unfold request, bind, get_backend, put_backend. simpl.
  destruct (f (remote (backend w))) as [[err|a] r']; simpl;
    by destruct (ev _).
Qed.

Lemma leaves_repo_ensureDir_fuel (fuel : nat) :
  ∀ dir, leaves_repo (ensureDir_fuel fs fuel dir).
Proof.
  induction fuel as [|fuel IH]; intros dir; simpl; [by intros w|].
  apply leaves_repo_bind; [by intros w|]. intros b.
  destruct (cached (exists_cache b) dir); [apply leaves_repo_ret|].
  apply leaves_repo_bind.
  { case_bool_decide; [apply IH|apply leaves_repo_ret]. }
  intros _. apply leaves_repo_bind.
  { apply leaves_repo_try_catch; [|intros e; apply leaves_repo_request].
    apply leaves_repo_bind; [apply leaves_repo_request|].
    intros _. apply leaves_repo_ret. }
  intros _. by intros w.
Qed.

Lemma leaves_repo_pushFile (localFile : list string) (remoteFile : Uri) :
  leaves_repo (pushFile fs localFile remoteFile).
Proof.
  unfold pushFile. apply leaves_repo_bind; [apply leaves_repo_emit|]. intros _.
  apply leaves_repo_bind; [apply leaves_repo_ensureDir_fuel|]. intros _.
  apply leaves_repo_bind; [apply leaves_repo_fs_readFile|]. intros data.
  apply leaves_repo_request.
Qed.

(** [push] after its first log and [const exists = {}]. *)
Lemma push_unfold (w : W) :
  push fs globby w =
  (for_of (globby (rootPath (repo w)) (disk (repo w)))
     (λ file, pushFile fs (path_join (rootPath (repo w)) file) (Uri_file file)) ;;
   Logger_info "push done")
    (World (repo w) (mkFields (url (backend w)) (remote (backend w)) ∅)
       (trace w ++ [LogInfo "push to webdav"])).
Proof.
  unfold push. unfold bind at 1. unfold Logger_info at 1, emit at 1.
  unfold bind at 1. unfold get_repo at 1. cbn [repo].
  unfold bind at 1. unfold new_exists at 1.
  unfold bind at 1. unfold get_backend at 1, put_backend at 1.
  cbn [repo backend trace]. reflexivity.
Qed.

(** X1: a push never changes the local side: the mirror on disk, the root
    path, the profile and the initialized flag are after the push what they
    were before, whether the push returns or throws. *)
Theorem push_leaves_local (w : W) : repo (push fs globby w).2 = repo w.
Proof.
  rewrite push_unfold.
  set (w0 := World _ _ _).
  assert (leaves_repo (B:=fields Remote)
            (for_of (globby (rootPath (repo w)) (disk (repo w)))
               (λ file, pushFile fs (path_join (rootPath (repo w)) file)
                          (Uri_file file)) ;;
             Logger_info "push done")) as H.
  { apply leaves_repo_bind; [|intros _; apply leaves_repo_emit].
    apply leaves_repo_for_of. intros file.
    exact (leaves_repo_pushFile _ _). }
  by rewrite H.
Qed.


Lemma emits_any_request {A : Type} (P : event → Prop)
    (f : Remote → result A * Remote) (ev : result A → option event) :
  (∀ res e, ev res = Some e → P e) → emits P (request f ev).
Proof.
  intros Hev. unfold request. apply emits_bind; [apply emits_get_backend|].
  intros b. destruct (f (remote b)) as [res r'].
  apply emits_bind; [apply emits_put_backend|]. intros _.
  apply emits_bind; [|intros _; apply emits_lift].
  destruct (ev res) as [e|] eqn:He; [|apply emits_ret].
  apply emits_emit. by eapply Hev.
Qed.

(** [ensureDir(dir)] probes, creates and marks [dir] and directories above
    it, and nothing else. *)
Lemma emits_ensure_event (fuel : nat) :
  ∀ dir, emits (ensure_event dir) (ensureDir_fuel fs fuel dir).
Proof.
  induction fuel as [|fuel IH]; intros dir; simpl.
  { intros w. exists []. by rewrite app_nil_r. }
  apply emits_bind; [apply emits_get_backend|]. intros b.
  destruct (cached (exists_cache b) dir); [apply emits_ret|].
  apply emits_bind.
  { case_bool_decide; [|apply emits_ret].
    eapply emits_mono; [|apply IH]. intros e He.
    destruct e; try done; simpl in *;
      (etrans; [done|apply removelast_prefix]). }
  intros _. apply emits_bind.
  { apply emits_try_catch.
    - apply emits_bind; [|intros _; apply emits_ret].
      apply emits_any_request. intros res e [= <-]. simpl. reflexivity.
    - intros _. apply emits_any_request. intros res e [= <-]. simpl.
      reflexivity. }
  intros _. unfold mark.
  apply emits_bind; [apply emits_get_backend|]. intros b'.
  apply emits_bind; [apply emits_put_backend|]. intros _.
  apply emits_emit. simpl. reflexivity.
Qed.

Lemma emits_pushFile (root : list string) (files : list (list string))
    (file : list string) :
  file ∈ files →
  emits (push_event root files)
    (pushFile fs (path_join root file) (Uri_file file)).
Proof.
  intros Hfile. unfold pushFile.
  apply emits_bind; [by apply emits_emit|]. intros _.
  apply emits_bind.
  { eapply emits_mono; [|apply emits_ensure_event]. intros e He.
    destruct e; try done; simpl in *; by exists file. }
  intros _. apply emits_bind.
  { apply emits_bind; [apply emits_emit; by exists file|]. intros _.
    apply emits_on_disk. }
  intros data. apply emits_any_request. intros res e [= <-]. by exists file.
Qed.

Lemma emits_push_loop (root : list string) (files sub : list (list string)) :
  (∀ file, file ∈ sub → file ∈ files) →
  emits (push_event root files)
    (for_of sub (λ file, pushFile fs (path_join root file) (Uri_file file))).
Proof.
  intros Hsub. induction sub as [|file sub IH]; simpl; [apply emits_ret|].
  apply emits_bind.
  - apply emits_pushFile. apply Hsub. by left.
  - intros _. apply IH. intros f Hf. apply Hsub. by right.
Qed.

(** X2: the events of a push are its two logs and, for files that [globby]
    listed, a log, the settling of directories above the file, the reading
    of the local file and its upload.  So a push sends no listing and no
    download request, probes and creates no directory but those above a
    listed file, and with no file listed sends no request at all. *)
Theorem push_events_scope (w : W) :
  let root := rootPath (repo w) in
  let files := globby root (disk (repo w)) in
  ∃ t, trace (push fs globby w).2 = trace w ++ t
       ∧ Forall (push_event root files) t
       ∧ (files = [] →
          t = [LogInfo "push to webdav"; LogInfo "push done"]
          ∧ (push fs globby w).1 = Returned tt).
Proof.
  intros root files. rewrite push_unfold. fold root files.
  set (w0 := World _ _ _).
  assert (emits (B:=fields Remote) (push_event root files)
            (for_of files
               (λ file, pushFile fs (path_join root file) (Uri_file file)) ;;
             Logger_info "push done")) as H.
  { apply emits_bind; [|intros _; by apply emits_emit].
    by apply emits_push_loop. }
  destruct (H w0) as (t & Ht & Hall).
  exists (LogInfo "push to webdav" :: t). split; [|split].
  - rewrite Ht. unfold w0. simpl. by rewrite <- app_assoc.
  - by constructor.
  - intros Hnil. revert Ht. rewrite Hnil. simpl.
    intros Ht. split; [|done]. f_equal.
    unfold bind, w0 in Ht. simpl in Ht.
    by apply (app_inv_head (trace w ++ [LogInfo "push to webdav"])) in Ht.
Qed.


Lemma uploads_app (t u : list event) : uploads (t ++ u) = uploads t ++ uploads u.
Proof. apply omap_app. Qed.

Lemma uploads_no_write (t : list event) : Forall no_write t → uploads t = [].
Proof.
  induction 1 as [|e t He _ IH]; [done|].
  change (e :: t) with ([e] ++ t). rewrite uploads_app, IH, app_nil_r.
  destruct e; try done. by destruct (He p data).
Qed.

Lemma ensure_event_no_write (dir : Uri) (e : event) :
  ensure_event dir e → no_write e.
Proof. intros He p d ->. done. Qed.

(** [pushFile] by cases, after [ensureDir]. *)
Lemma pushFile_run (localFile : list string) (remoteFile : Uri) (w : W) :
  let w1 := World (repo w) (backend w)
              (trace w ++ [LogInfo ("push file: " +:+ Uri_path remoteFile)]) in
  pushFile fs localFile remoteFile w =
  match ensureDir fs (Uri_parent remoteFile) w1 with
  | (Returned _, w2) =>
      let w3 := World (repo w2) (backend w2) (trace w2 ++ [LReadFile localFile]) in
      match disk_readFile localFile (disk (repo w2)) with
      | inl e => (Thrown e, w3)
      | inr data => this_fs_writeFile fs remoteFile data w3
      end
  | (Thrown e, w2) => (Thrown e, w2)
  | (OutOfFuel, w2) => (OutOfFuel, w2)
  end.
Proof.
  intros w1. unfold pushFile. unfold bind at 1. simpl. fold w1.
  unfold bind at 1. destruct (ensureDir fs (Uri_parent remoteFile) w1)
    as [[[]|e|] w2]; [|done..].
  unfold bind at 1. unfold fs_readFile, on_disk.
  unfold bind at 1 2. simpl.
  by destruct (disk_readFile localFile (disk (repo w2))).
Qed.

Lemma writeFile_run (p : Uri) (data : string) (w : W) :
  ∃ o r', this_fs_writeFile fs p data w =
          (o, World (repo w)
                (mkFields (url (backend w)) r' (exists_cache (backend w)))
                (trace w ++ [RWriteFile p data])).
Proof.
  unfold this_fs_writeFile, request, bind, get_backend, put_backend. simpl.
  destruct (writeFile fs p data (remote (backend w))) as [[e|[]] r']; simpl;
    eauto.
Qed.

Lemma disk_readFile_inr (p : list string) (d : Disk) (data : string) :
  disk_readFile p d = inr data → d !! p = Some (File data).
Proof.
  unfold disk_readFile. destruct (d !! p) as [[x|]|]; try done.
  - by intros [= ->].
  - by case_bool_decide.
Qed.

(** One [pushFile] uploads nothing and does not return, or uploads its file
    with the content the mirror has. *)
Lemma pushFile_uploads (root file : list string) (w : W) :
  let run := pushFile fs (path_join root file) (Uri_file file) w in
  ∃ u, trace run.2 = trace w ++ u
       ∧ ((uploads u = [] ∧ run.1 ≠ Returned tt)
          ∨ ∃ up, uploads u = [up] ∧ uploaded (disk (repo w)) root file up).
Proof.
  intros run. subst run. rewrite pushFile_run.
  set (w1 := World _ _ (trace w ++ [LogInfo _])).
  destruct (emits_ensure_event (S (length (Uri_parent (Uri_file file))))
              (Uri_parent (Uri_file file)) w1) as (u & Hu & Hall).
  pose proof (leaves_repo_ensureDir_fuel
                (S (length (Uri_parent (Uri_file file))))
                (Uri_parent (Uri_file file)) w1) as Hrepo.
  fold (ensureDir fs (Uri_parent (Uri_file file))) in Hu, Hrepo.
  assert (uploads u = []) as Hnone.
  { apply uploads_no_write. eapply Forall_impl; [done|].
    apply ensure_event_no_write. }
  destruct (ensureDir fs (Uri_parent (Uri_file file)) w1) as [[[]|e|] w2];
    simpl in *.
  - destruct (disk_readFile _ (disk (repo w2))) as [e|data] eqn:Hread; simpl.
    + eexists. split.
      { rewrite Hu. unfold w1. simpl. rewrite <- !app_assoc. reflexivity. }
      left. split; [|done]. rewrite !uploads_app, Hnone. done.
    + destruct (writeFile_run (Uri_file file) data
                  (World (repo w2) (backend w2)
                     (trace w2 ++ [LReadFile (path_join root file)])))
        as (o & r' & ->). simpl. eexists. split.
      { rewrite Hu. unfold w1. simpl. rewrite <- !app_assoc. reflexivity. }
      right. exists (Uri_file file, data). split.
      * rewrite !uploads_app, Hnone. done.
      * split; [done|]. simpl. rewrite Hrepo in Hread. unfold w1 in Hread.
        simpl in Hread. by apply disk_readFile_inr.
  - eexists. split.
    { rewrite Hu. unfold w1. simpl. rewrite <- !app_assoc. reflexivity. }
    left. split; [|done]. rewrite !uploads_app, Hnone. done.
  - eexists. split.
    { rewrite Hu. unfold w1. simpl. rewrite <- !app_assoc. reflexivity. }
    left. split; [|done]. rewrite !uploads_app, Hnone. done.
Qed.

Lemma loop_uploads (root : list string) (d : Disk) (files : list (list string)) :
  ∀ w : W, disk (repo w) = d →
    let run := for_of files
                 (λ file, pushFile fs (path_join root file) (Uri_file file)) w in
    ∃ u sent, trace run.2 = trace w ++ u
              ∧ sent `prefix_of` files
              ∧ Forall2 (uploaded d root) sent (uploads u)
              ∧ (run.1 = Returned tt → sent = files).
Proof.
  induction files as [|file files IH]; intros w Hd; simpl.
  { exists [], []. rewrite app_nil_r.
    split; [done|]. split; [apply prefix_nil|]. split; [constructor|done]. }
  unfold bind.
  destruct (pushFile_uploads root file w) as (u & Hu & Hcases).
  pose proof (leaves_repo_pushFile (path_join root file) (Uri_file file) w)
    as Hrepo.
  destruct (pushFile fs (path_join root file) (Uri_file file) w)
    as [[[]|e|] w1]; simpl in *.
  - destruct Hcases as [[_ ?]|(up & Hup & Hfile)]; [done|].
    destruct (IH w1) as (u' & sent & Hu' & Hpre & Hall & Hret).
    { by rewrite Hrepo. }
    exists (u ++ u'), (file :: sent). split; [|split; [|split]].
    + by rewrite Hu', Hu, app_assoc.
    + by apply prefix_cons.
    + rewrite uploads_app, Hup. simpl. constructor; [|done]. by rewrite <- Hd.
    + intros H. by rewrite (Hret H).
  - exists u. destruct Hcases as [[Hnone _]|(up & Hup & Hfile)].
    + exists []. rewrite Hnone.
      split; [done|]. split; [apply prefix_nil|]. split; [constructor|done].
    + exists [file]. rewrite Hup. split; [done|]. split; [|split; [|done]].
      * apply prefix_cons, prefix_nil.
      * constructor; [|constructor]. by rewrite <- Hd.
  - exists u. destruct Hcases as [[Hnone _]|(up & Hup & Hfile)].
    + exists []. rewrite Hnone.
      split; [done|]. split; [apply prefix_nil|]. split; [constructor|done].
    + exists [file]. rewrite Hup. split; [done|]. split; [|split; [|done]].
      * apply prefix_cons, prefix_nil.
      * constructor; [|constructor]. by rewrite <- Hd.
Qed.

(** X3: a push uploads the files that [globby] listed, in that order, each
    to the remote path of its relative path and with the content the
    mirror has for it: all of them when the push returns, and the first
    ones, with no rollback, when it throws on the way. *)
Theorem push_uploads (w : W) :
  let root := rootPath (repo w) in
  let files := globby root (disk (repo w)) in
  ∃ t sent, trace (push fs globby w).2 = trace w ++ t
            ∧ sent `prefix_of` files
            ∧ Forall2 (uploaded (disk (repo w)) root) sent (uploads t)
            ∧ ((push fs globby w).1 = Returned tt → sent = files).
Proof.
  intros root files. rewrite push_unfold. fold root files.
  set (w0 := World _ _ _). unfold bind.
  destruct (loop_uploads root (disk (repo w)) files w0 eq_refl)
    as (u & sent & Hu & Hpre & Hall & Hret).
  destruct (for_of files _ w0) as [[[]|e|] w1]; simpl in *.
  - exists (LogInfo "push to webdav" :: u ++ [LogInfo "push done"]), sent.
    split; [|split; [done|split]].
    + rewrite Hu. unfold w0. simpl. by rewrite <- !app_assoc.
    + change (LogInfo "push to webdav" :: u ++ [LogInfo "push done"])
        with ([LogInfo "push to webdav"] ++ u ++ [LogInfo "push done"]).
      rewrite !uploads_app. simpl. by rewrite app_nil_r.
    + intros _. by apply Hret.
  - exists (LogInfo "push to webdav" :: u), sent.
    split; [|split; [done|split; [done|done]]].
    rewrite Hu. unfold w0. simpl. by rewrite <- !app_assoc.
  - exists (LogInfo "push to webdav" :: u), sent.
    split; [|split; [done|split; [done|done]]].
    rewrite Hu. unfold w0. simpl. by rewrite <- !app_assoc.
Qed.


Lemma upload_ok_other (t : list event) (e : event) :
  each_after upload_ok t → no_write e → each_after upload_ok (t ++ [e]).
Proof.
  intros Ht He. apply each_after_snoc; [done|]. intros p d ->.
  by destruct (He p d).
Qed.

Lemma upload_ok_app (t u : list event) :
  each_after upload_ok t → Forall no_write u → each_after upload_ok (t ++ u).
Proof.
  intros Ht. induction u as [|e u IH] using rev_ind; intros Hu.
  - by rewrite app_nil_r.
  - apply Forall_app in Hu as [Hu He]. rewrite app_assoc.
    apply upload_ok_other; [by apply IH|].
    exact (proj1 (Forall_singleton _ _) He).
Qed.

Lemma keeps_uploads_ret {A : Type} (a : A) : keeps_uploads (Remote:=Remote) (ret a).
Proof. intros w t0 t Ht Hi HW. simpl. eauto. Qed.

Lemma keeps_uploads_bind {A C : Type} (m : M (fields Remote) A)
    (k : A → M (fields Remote) C) :
  keeps_uploads m → (∀ a, keeps_uploads (k a)) → keeps_uploads (bind m k).
Proof.
  intros Hm Hk w t0 t Ht Hi HW. unfold bind.
  specialize (Hm w t0 t Ht Hi HW).
  destruct (m w) as [[a|e|] w']; [|done..].
  destruct Hm as (t' & Ht' & Hi' & HW'). by apply (Hk a w' t0 t').
Qed.

Lemma keeps_uploads_for_of {A : Type} (xs : list A)
    (body : A → M (fields Remote) unit) :
  (∀ x, keeps_uploads (body x)) → keeps_uploads (for_of xs body).
Proof.
  intros Hb. induction xs as [|x xs IH]; simpl; [apply keeps_uploads_ret|].
  apply keeps_uploads_bind; [apply Hb|]. intros _. apply IH.
Qed.

Lemma keeps_uploads_log (msg : string) :
  keeps_uploads (Remote:=Remote) (Logger_info msg).
Proof.
  intros w t0 t Ht Hi HW. simpl. exists (t ++ [LogInfo msg]).
  rewrite Ht, app_assoc. split; [done|]. split.
  - apply push_inv_neutral; [done|apply neutral_log].
  - apply upload_ok_other; [done|]. by intros p d.
Qed.

Lemma keeps_uploads_pushFile (localFile : list string) (remoteFile : Uri) :
  keeps_uploads (pushFile fs localFile remoteFile).
Proof.
  intros w t0 t Ht Hi HW. rewrite pushFile_run.
  set (dir := Uri_parent remoteFile).
  set (msg := "push file: " +:+ Uri_path remoteFile).
  set (w1 := World (repo w) (backend w) (trace w ++ [LogInfo msg])).
  assert (trace w1 = t0 ++ (t ++ [LogInfo msg])) as Ht1.
  { unfold w1. simpl. by rewrite Ht, app_assoc. }
  assert (push_inv (exists_cache (backend w1)) (t ++ [LogInfo msg])) as Hi1.
  { apply push_inv_neutral; [done|apply neutral_log]. }
  assert (each_after upload_ok (t ++ [LogInfo msg])) as HW1.
  { apply upload_ok_other; [done|]. by intros p d. }
  pose proof (ensureDir_fuel_keeps fs (S (length dir)) dir w1 t0 _
                (Nat.lt_succ_diag_r _) Ht1 Hi1) as Hkeeps.
  destruct (emits_ensure_event (S (length dir)) dir w1) as (u & Hu & Hall).
  fold (ensureDir fs dir) in Hkeeps, Hu.
  assert (each_after upload_ok ((t ++ [LogInfo msg]) ++ u)) as HW2.
  { apply upload_ok_app; [done|]. eapply Forall_impl; [done|].
    apply ensure_event_no_write. }
  assert (∀ t2, trace (ensureDir fs dir w1).2 = t0 ++ t2 →
                t2 = (t ++ [LogInfo msg]) ++ u) as Hsame.
  { intros t2 Ht2. rewrite Hu, Ht1, <- app_assoc in Ht2.
    by apply app_inv_head in Ht2. }
  destruct (ensureDir fs dir w1) as [[[]|e|] w2]; simpl in *.
  - destruct Hkeeps as (t2 & Ht2 & Hi2 & Hc2).
    pose proof (Hsame t2 Ht2) as Heq. rewrite <- Heq in HW2. clear Heq.
    assert (each_after upload_ok (t2 ++ [LReadFile localFile])) as HW3.
    { apply upload_ok_other; [done|]. by intros p d. }
    destruct (disk_readFile localFile (disk (repo w2))) as [e|data].
    + exists (t2 ++ [LReadFile localFile]). simpl.
      by rewrite Ht2, app_assoc.
    + destruct (writeFile_run remoteFile data
                  (World (repo w2) (backend w2)
                     (trace w2 ++ [LReadFile localFile])))
        as (o & r' & ->). simpl.
      assert (each_after upload_ok
                ((t2 ++ [LReadFile localFile]) ++ [RWriteFile remoteFile data]))
        as HW4.
      { apply each_after_snoc; [done|]. intros p d [= <- <-] a Ha.
        apply settled_mono. destruct Hi2 as ([Hg _] & Hm & _ & Hanc).
        apply marked_settled; [done|].
        apply (Hanc dir); [by apply Hm|done]. }
      assert (trace w2 ++ [LReadFile localFile] ++ [RWriteFile remoteFile data]
              = t0 ++ (t2 ++ [LReadFile localFile]) ++ [RWriteFile remoteFile data])
        as Ht4 by (by rewrite Ht2, <- !app_assoc).
      destruct o as [[]|e|]; rewrite <- app_assoc;
        (eexists; split; [exact Ht4|]); [|done..].
      split; [|done].
      apply push_inv_neutral; [apply push_inv_neutral; [done|by split]|by split].
  - destruct Hkeeps as (t2 & Ht2 & _). exists t2. split; [done|].
    by rewrite (Hsame t2 Ht2).
  - done.
Qed.

(** X4: in a push, a file is sent to the server only after every directory
    on the way to it, from the root down to its own directory, was found
    present or was created by a request of that push. *)
Theorem push_dirs_before_files (w : W) :
  ∃ t, trace (push fs globby w).2 = trace w ++ t ∧ dirs_before_files t.
Proof.
  rewrite push_unfold. set (w0 := World _ _ _).
  assert (keeps_uploads (Remote:=Remote)
            (for_of (globby (rootPath (repo w)) (disk (repo w)))
               (λ file, pushFile fs (path_join (rootPath (repo w)) file)
                          (Uri_file file)) ;;
             Logger_info "push done")) as H.
  { apply keeps_uploads_bind; [|intros _; apply keeps_uploads_log].
    apply keeps_uploads_for_of. intros file.
    exact (keeps_uploads_pushFile _ _). }
  specialize (H w0 (trace w) [LogInfo "push to webdav"] eq_refl).
  assert (push_inv (exists_cache (backend w0)) [LogInfo "push to webdav"])
    as Hi0.
  { apply (push_inv_neutral _ []); [apply push_inv_nil|apply neutral_log]. }
  assert (each_after upload_ok [LogInfo "push to webdav"]) as HW0.
  { apply (upload_ok_other []); [apply each_after_nil|by intros p d]. }
  specialize (H Hi0 HW0).
  set (run := (for_of _ _ ;; Logger_info "push done") w0) in *.
  assert (∃ t, trace run.2 = trace w ++ t ∧ each_after upload_ok t)
    as (t & Ht & HW).
  { destruct run as [[[]|e|] w1]; simpl in *; [|done..].
    destruct H as (t & Ht & _ & HW). by exists t. }
  exists t. split; [done|].
  intros t1 p d t2 a -> Ha. by apply (HW t1 (RWriteFile p d) t2 eq_refl p d).
Qed.

End Proofs.
End PushMore.

(** ** More on the pull of the WebDAV backend *)

Module PullMore.
Import Trace MonadFacts Coverage WebDAV.

Section Proofs.
Context {Remote : Type}.
Variable fs : WebDAVFS Remote.
Variable I : Remote → Prop.
Hypothesis Hplain : plain_server fs I.

Abbreviation W := (world (fields Remote)).

Lemma pull_unfold (fuel : nat) (w : W) :
  pull fs fuel w
  = pull_body fs fuel (rootPath (repo w))
      (World (repo w) (backend w) (trace w ++ [LogInfo "pull from webdav"])).
Proof. reflexivity. Qed.

(** *** The mirror and the disk around it *)

Lemma same_outside_refl (root : list string) (r : FileRepository) :
  same_outside root r r.
Proof. by repeat split. Qed.

Lemma outside_insert (root p : list string) (x : node) (r0 r : FileRepository) :
  root `prefix_of` p → same_outside root r0 r →
  same_outside root r0 (set_disk (<[p := x]> (disk r)) r).
Proof.
  intros Hp (H1 & H2 & H3 & H4). repeat split; try done.
  intros k Hk. simpl. rewrite lookup_insert_ne; [by apply H4|].
  by intros ->.
Qed.

Lemma outside_remove (root : list string) (r0 r : FileRepository) :
  same_outside root r0 r →
  same_outside root r0 (set_disk (disk_remove root (disk r)) r).
Proof.
  intros (H1 & H2 & H3 & H4). repeat split; try done.
  intros k Hk. simpl. rewrite PullProofs.disk_remove_lookup.
  rewrite decide_False by done. by apply H4.
Qed.

Lemma prefix_snoc (root l : list string) (n : string) :
  plain n = true → root `prefix_of` l → root `prefix_of` path_join l [n].
Proof.
  intros Hn H. rewrite PathFacts.path_join_snoc by done. by apply prefix_app_r.
Qed.

Section Confined.
Variable root : list string.
Variable r0 : FileRepository.

Abbreviation J := (on_server I (same_outside root r0)).
Abbreviation T := (Forall (pull_event root)).

Lemma scope_app (t u : list event) : T t → T u → T (t ++ u).
Proof. apply Forall_app_2. Qed.

Lemma holds_confined_mkdir (p : list string) :
  root `prefix_of` p → holds J T (λ _, True) (fse_mkdir p).
Proof using Type.
  intros Hp. apply HoldsFacts.holds_local; [by apply Forall_singleton|].
  intros r d Hr. unfold disk_mkdir.
  destruct (present _ _); [done|]. destruct (is_dir _ _); [|done].
  intros [= <-]. by apply outside_insert.
Qed.

Lemma holds_confined_pullFile (l : list string) (rf : Uri) :
  root `prefix_of` l → holds J T (λ _, True) (pullFile fs l rf).
Proof using Hplain.
  intros Hl. unfold pullFile.
  eapply HoldsFacts.holds_bind; [apply scope_app| |].
  - apply (HoldsFacts.holds_readFile fs I _ Hplain). by apply Forall_singleton.
  - intros data _. unfold fs_writeFile.
    apply HoldsFacts.holds_local; [by apply Forall_singleton|].
    intros r d Hr. unfold disk_writeFile.
    destruct (is_dir _ l); [done|]. destruct (is_dir _ _); [|done].
    intros [= <-]. by apply outside_insert.
Qed.

Lemma holds_confined_pullDirectory (fuel : nat) :
  ∀ l rd, root `prefix_of` l →
    holds J T (λ _, True) (pullDirectory fs fuel l rd).
Proof using Hplain.
  induction fuel as [|fuel IH]; intros l rd Hl; simpl.
  { intros w Hw. split; [done|]. split; [|done].
    exists []. by rewrite app_nil_r. }
  eapply HoldsFacts.holds_bind; [apply scope_app| |].
  { by apply holds_confined_mkdir. }
  intros _ _. eapply HoldsFacts.holds_bind; [apply scope_app| |].
  { apply (HoldsFacts.holds_readdir fs I _ Hplain). by apply Forall_singleton. }
  intros files Hfiles.
  eapply HoldsFacts.holds_for_of; [done|apply scope_app|exact Hfiles|].
  intros file Hfile. simpl in Hfile.
  destruct (isDirectory file);
    [apply IH|apply holds_confined_pullFile]; by apply prefix_snoc.
Qed.

Lemma holds_confined_pull_body (fuel : nat) :
  holds J T (λ _, True) (pull_body fs fuel root).
Proof using Hplain.
  unfold pull_body.
  eapply HoldsFacts.holds_bind; [apply scope_app| |].
  { apply HoldsFacts.holds_local; [by apply Forall_singleton|].
    intros r d Hr [= <-]. by apply outside_remove. }
  intros _ _. eapply HoldsFacts.holds_bind; [apply scope_app| |].
  { by apply holds_confined_mkdir. }
  intros _ _. eapply HoldsFacts.holds_bind; [apply scope_app| |].
  { apply (HoldsFacts.holds_readdir fs I _ Hplain). by apply Forall_singleton. }
  intros files Hfiles. eapply HoldsFacts.holds_bind; [apply scope_app| |].
  { eapply HoldsFacts.holds_for_of; [done|apply scope_app|exact Hfiles|].
    intros file Hfile. simpl in Hfile.
    destruct (isDirectory file);
      [apply holds_confined_pullDirectory|apply holds_confined_pullFile];
      by apply prefix_snoc. }
  intros _ _. apply HoldsFacts.holds_emit.
  - intros w0 t0. apply HoldsFacts.on_server_trace.
  - by apply Forall_singleton.
Qed.

End Confined.

(** X5: on a server that lists plain names only, a pull only reads the
    server and only writes the mirror: its requests are listings and
    downloads, never a probe, a creation or an upload; on the disk it
    removes the mirror's root and creates directories and files at or
    below it. *)
Theorem pull_events_scope (fuel : nat) (w : W) :
  I (remote (backend w)) →
  ∃ t, trace (pull fs fuel w).2 = trace w ++ t
       ∧ Forall (pull_event (rootPath (repo w))) t.
Proof using Hplain.
  intros HI. rewrite pull_unfold.
  set (w1 := World (repo w) (backend w) (trace w ++ [LogInfo "pull from webdav"])).
  destruct (holds_confined_pull_body (rootPath (repo w)) (repo w) fuel w1)
    as (_ & (t & Ht & HP) & _).
  { split; [done|apply same_outside_refl]. }
  exists (LogInfo "pull from webdav" :: t). split.
  - rewrite Ht. simpl. by rewrite <- app_assoc.
  - by constructor.
Qed.

(** X6: on a server that lists plain names only, whatever else it answers
    and however the pull ends, the disk outside the mirror's root is as
    before, and so are the root path, the profile and the initialized
    flag. *)
Theorem pull_confined_to_mirror (fuel : nat) (w : W) :
  I (remote (backend w)) →
  same_outside (rootPath (repo w)) (repo w) (repo (pull fs fuel w).2).
Proof using Hplain.
  intros HI. rewrite pull_unfold.
  set (w1 := World (repo w) (backend w) (trace w ++ [LogInfo "pull from webdav"])).
  destruct (holds_confined_pull_body (rootPath (repo w)) (repo w) fuel w1)
    as ([_ HQ] & _ & _); [|done].
  split; [done|apply same_outside_refl].
Qed.

End Proofs.

Section Failing.
Context {Remote : Type}.
Variable fs : WebDAVFS Remote.

Abbreviation W := (world (fields Remote)).

(** *** A pull from a server that does not list its root *)

Lemma present_none (d : Disk) (p : list string) :
  p ≠ [] → d !! p = None → present d p = false.
Proof.
  intros Hp Hd. unfold present. rewrite Hd.
  rewrite bool_decide_eq_false_2 by done.
  rewrite bool_decide_eq_false_2; [done|]. by intros [x [=]].
Qed.

Lemma is_dir_remove (root : list string) (d : Disk) :
  root ≠ [] → is_dir d (removelast root) = true →
  is_dir (disk_remove root d) (removelast root) = true.
Proof.
  intros Hne. unfold is_dir. intros [H|H]%orb_true_iff; apply orb_true_iff.
  - by left.
  - right. apply bool_decide_eq_true in H. apply bool_decide_eq_true.
    rewrite PullProofs.disk_remove_lookup. rewrite decide_False; [done|].
    intros Hpre. apply prefix_length in Hpre.
    pose proof (PushProofs.removelast_shorter root Hne). lia.
Qed.

(** X7: the mirror is emptied before the server is asked: when the listing
    of the server's root fails, the pull throws that error, and what is left
    of the mirror is an empty directory; the old files are gone. *)
Theorem pull_failed_listing_empties_mirror (fuel : nat) (w : W)
    (e : JsError) (rem' : Remote) :
  rootPath (repo w) ≠ [] →
  is_dir (disk (repo w)) (removelast (rootPath (repo w))) = true →
  readdir fs Uri_root (remote (backend w)) = (inl e, rem') →
  (pull fs fuel w).1 = Thrown e
  ∧ disk (repo (pull fs fuel w).2)
    = <[rootPath (repo w) := Dir]> (disk_remove (rootPath (repo w)) (disk (repo w)))
  ∧ trace (pull fs fuel w).2
    = trace w ++ [LogInfo "pull from webdav"; LRemove (rootPath (repo w));
                  LMkdir (rootPath (repo w)); RReaddir Uri_root].
Proof.
  intros Hne Hparent Hlist. rewrite pull_unfold.
  destruct w as [[root prof ini d] [u rem c] t]. simpl in *.
  assert (Hmk : disk_mkdir root (disk_remove root d)
                = inr (<[root := Dir]> (disk_remove root d))).
  { unfold disk_mkdir. rewrite present_none; [|done|].
    - by rewrite is_dir_remove.
    - rewrite PullProofs.disk_remove_lookup. by rewrite decide_True. }
  cbv [pull_body fse_remove fse_mkdir update_disk this_fs_readdir request bind
       emit get_repo put_repo get_backend put_backend lift_result ret throw
       repo backend trace disk set_disk rootPath profile initialized remote
       url exists_cache].
  rewrite Hmk. cbv [this_fs_readdir request bind
       emit get_repo put_repo get_backend put_backend lift_result ret throw
       repo backend trace disk set_disk rootPath profile initialized remote
       url exists_cache]. rewrite Hlist. simpl.
  repeat split. by rewrite <- !app_assoc.
Qed.

End Failing.

(** A mirror that holds an old file, and a server that is not reachable:
    after the pull the old file is gone. *)
Lemma pull_offline_example :
  let w := offline_mirror_world in
  (pull (Store.offline_fs Examples.refused) 3 w).1 = Thrown Examples.refused
  ∧ disk (repo (pull (Store.offline_fs Examples.refused) 3 w).2) !! ["tmp"; "m"] = Some Dir.
Proof.
  intros w.
  destruct (pull_failed_listing_empties_mirror (Store.offline_fs Examples.refused) 3 w Examples.refused tt)
    as (H1 & H2 & _); [done|by vm_compute|done|].
  split; [exact H1|]. rewrite H2. apply lookup_insert_eq.
Defined.

(** The example store lists plain names: the pull stays in the mirror. *)
Lemma pull_events_scope_example :
  let w := Examples.webdav_world true Examples.stale_mirror Examples.store in
  Forall (pull_event ["tmp"; "m"]) (trace (pull Store.store_fs 3 w).2).
Proof.
  intros w.
  assert (Store.plain_names Examples.store) as Hnames.
  { apply (bool_decide_unpack _). by vm_compute. }
  destruct (pull_events_scope Store.store_fs (λ rem, rem = Examples.store)
              (PullProofs.store_plain_server Examples.store Hnames)
              3 w eq_refl) as (t & Ht & HT).
  rewrite Ht. exact HT.
Defined.

Lemma pull_confined_example :
  let w := Examples.webdav_world true Examples.stale_mirror Examples.store in
  disk (repo (pull Store.store_fs 3 w).2) !! ["tmp"] = Some Dir.
Proof.
  intros w.
  assert (Store.plain_names Examples.store) as Hnames.
  { apply (bool_decide_unpack _). by vm_compute. }
  destruct (pull_confined_to_mirror Store.store_fs (λ rem, rem = Examples.store)
              (PullProofs.store_plain_server Examples.store Hnames)
              3 w eq_refl) as (_ & _ & _ & H).
  rewrite (H ["tmp"]); [by vm_compute|].
  intros [k Hk]. discriminate Hk.
Defined.

(** A name that is no plain name leaves the mirror: the server lists
    ["../x"], and the pull writes the file beside the mirror. *)
Example pull_climbs_example :
  let w := offline_mirror_world in
  (pull climbing_fs 3 w).1 = Returned tt
  ∧ disk (repo (pull climbing_fs 3 w).2) !! ["tmp"; "x"] = Some (File "X").
Proof. by vm_compute. Qed.

End PullMore.

(** ** More on the life cycle of the WebDAV backend *)

Module LifecycleMore.
Import Trace MonadFacts Coverage WebDAV.

Lemma split_at_last (x : event) (pre t1 t2 : list event) :
  x ∉ pre → pre ++ [x] = t1 ++ x :: t2 → t1 = pre ∧ t2 = [].
Proof.
  revert t1. induction pre as [|a pre IH]; intros t1 Hx H.
  - destruct t1 as [|b t1]; simpl in H.
    + injection H as <-. done.
    + injection H as _ H. by destruct t1.
  - apply not_elem_of_cons in Hx as [Hne Hx].
    destruct t1 as [|b t1]; simpl in H.
    + injection H as H _. congruence.
    + injection H as <- H. destruct (IH t1 Hx H) as [-> ->]. done.
Qed.

Section Proofs.
Context {Remote : Type}.
Variable fs : WebDAVFS Remote.
Variable globby : list string → Disk → list (list string).
Variable TemporaryRepository_initialize : Disk → result unit * Disk.
Variables super_initialize super_download super_upload : BaseMethod.

Abbreviation W := (world (fields Remote)).

(** *** [initialize] *)

(** X8: on a server that answers the health check, [initialize] hands over
    to the base class: the stat of the root is its only request, nothing is
    logged, and the outcome and the fields are those of the base class's
    [initialize], run on the disk as [TemporaryRepository.initialize] left
    it. *)
Theorem initialize_healthy (w : W) (d0 : Disk) (s : FsStat) (rem' : Remote) :
  TemporaryRepository_initialize (disk (repo w)) = (inr tt, d0) →
  stat fs Uri_root (remote (backend w)) = (inr s, rem') →
  let run := initialize fs TemporaryRepository_initialize super_initialize w in
  let base := super_initialize (set_disk d0 (repo w)) in
  run.1 = lifted base.1
  ∧ repo run.2 = base.2
  ∧ backend run.2 = mkFields (url (backend w)) rem' (exists_cache (backend w))
  ∧ trace run.2
    = trace w ++ [TemporaryInitialize; RStat Uri_root true; SuperInitialize].
Proof.
  intros Htmp Hstat run base. subst run base.
  pose proof (WebDAVProofs.initialize_run fs TemporaryRepository_initialize
                super_initialize w) as H.
  simpl in H. rewrite Htmp, Hstat in H. rewrite H. clear H.
  cbv [call_base bind emit get_repo put_repo lift_result ret throw repo
       backend trace].
  destruct (super_initialize _) as [[e|[]] r1]; simpl;
    by rewrite <- !app_assoc.
Qed.

(** X9: when [TemporaryRepository.initialize] throws, [initialize] throws
    the same error at once: no request is sent to the server, nothing is
    logged, and the base class is not initialized. *)
Theorem initialize_temporary_failure (w : W) (e : JsError) (d0 : Disk) :
  TemporaryRepository_initialize (disk (repo w)) = (inl e, d0) →
  let run := initialize fs TemporaryRepository_initialize super_initialize w in
  run.1 = Thrown e
  ∧ backend run.2 = backend w
  ∧ initialized (repo run.2) = initialized (repo w)
  ∧ trace run.2 = trace w ++ [TemporaryInitialize].
Proof.
  intros Htmp run. subst run.
  pose proof (WebDAVProofs.initialize_run fs TemporaryRepository_initialize
                super_initialize w) as H.
  simpl in H. rewrite Htmp in H.
  destruct (stat fs Uri_root (remote (backend w))) as [res rem'].
  by rewrite H.
Qed.

(** *** [download] *)

Lemma emits_kind_request {A : Type} (f : Remote → result A * Remote)
    (e : event) :
  pull_kind e → emits pull_kind (request f (λ _, Some e)).
Proof.
  intros He. unfold request. apply emits_bind; [apply emits_get_backend|].
  intros b. destruct (f (remote b)) as [res r'].
  apply emits_bind; [apply emits_put_backend|]. intros _.
  apply emits_bind; [by apply emits_emit|]. intros _. apply emits_lift.
Qed.

Lemma emits_kind_local (e : event) (f : Disk → result Disk) :
  pull_kind e → emits (B:=fields Remote) pull_kind (emit e ;; update_disk f).
Proof.
  intros He. apply emits_bind; [by apply emits_emit|]. intros _.
  apply emits_update_disk.
Qed.

Lemma emits_kind_pullFile (l : list string) (r : Uri) :
  emits pull_kind (pullFile fs l r).
Proof.
  unfold pullFile. apply emits_bind; [by apply emits_kind_request|].
  intros data. by apply emits_kind_local.
Qed.

Lemma emits_kind_pullDirectory (fuel : nat) :
  ∀ l r, emits pull_kind (pullDirectory fs fuel l r).
Proof.
  induction fuel as [|fuel IH]; intros l r; simpl.
  { intros w. exists []. by rewrite app_nil_r. }
  apply emits_bind; [by apply emits_kind_local|]. intros _.
  apply emits_bind; [by apply emits_kind_request|]. intros files.
  apply emits_for_of. intros file.
  destruct (isDirectory file); [apply IH|apply emits_kind_pullFile].
Qed.

Lemma emits_pull_front (fuel : nat) (root : list string) :
  emits pull_kind (pull_front fs fuel root).
Proof.
  unfold pull_front.
  apply emits_bind; [by apply emits_kind_local|]. intros _.
  apply emits_bind; [by apply emits_kind_local|]. intros _.
  apply emits_bind; [by apply emits_kind_request|]. intros files.
  apply emits_for_of. intros file.
  destruct (isDirectory file);
    [apply emits_kind_pullDirectory|apply emits_kind_pullFile].
Qed.

Lemma pull_split (fuel : nat) (w : W) :
  pull fs fuel w
  = (pull_front fs fuel (rootPath (repo w)) ;; Logger_info "pull done")
      (World (repo w) (backend w) (trace w ++ [LogInfo "pull from webdav"])).
Proof.
  rewrite PullMore.pull_unfold. unfold pull_body, pull_front.
  generalize (World (repo w) (backend w)
                (trace w ++ [LogInfo "pull from webdav"])).
  intros w1. unfold bind.
  destruct (fse_remove _ w1) as [[[]|e|] w2]; [|done..].
  destruct (fse_mkdir _ w2) as [[[]|e|] w3]; [|done..].
  by destruct (this_fs_readdir fs Uri_root w3) as [[files|e|] w4].
Qed.

(** The events of a pull; when it returns, the last one is its second
    log. *)
Lemma pull_trace (fuel : nat) (w : W) :
  ∃ h, Forall pull_kind h
       ∧ match (pull fs fuel w).1 with
         | Returned _ =>
             trace (pull fs fuel w).2
             = trace w ++ LogInfo "pull from webdav" :: h ++ [LogInfo "pull done"]
         | _ => trace (pull fs fuel w).2
                = trace w ++ LogInfo "pull from webdav" :: h
         end.
Proof.
  rewrite pull_split.
  set (w1 := World (repo w) (backend w) (trace w ++ [LogInfo "pull from webdav"])).
  destruct (emits_pull_front fuel (rootPath (repo w)) w1) as (h & Hh & HP).
  exists h. split; [done|]. unfold bind.
  destruct (pull_front _ _ _ w1) as [[[]|e|] w2]; simpl in *;
    rewrite Hh; subst w1; simpl; by rewrite <- ?app_assoc.
Qed.

Lemma pull_kind_not_base (h : list event) :
  Forall pull_kind h → SuperDownload ∉ h.
Proof.
  intros H Hin. rewrite Forall_forall in H. by apply (H _ Hin).
Qed.

(** X10: in [download] the base class comes last: its [download] is called
    only once the pull has run to its end, right after the log that the pull
    is done, and nothing follows it.  So when the pull throws, the download
    of the base class is not called. *)
Theorem download_order (fuel : nat) (w : W) :
  ∃ t, trace (download fs super_download fuel w).2 = trace w ++ t
       ∧ ∀ t1 t2, t = t1 ++ SuperDownload :: t2 →
           t2 = [] ∧ last t1 = Some (LogInfo "pull done")
           ∧ (pull fs fuel
                (World (repo w) (backend w) (trace w ++ [CheckInitialized]))).1
             = Returned tt.
Proof.
  unfold download. unfold bind at 1. unfold checkInitialized.
  cbv [bind emit get_repo ret throw repo] . destruct w as [r b t0]. simpl.
  destruct (initialized r).
  2:{ exists [CheckInitialized]. split; [done|]. intros t1 t2 H.
      destruct t1 as [|a [|a' t1]]; discriminate. }
  set (w1 := World r b (t0 ++ [CheckInitialized])).
  destruct (pull_trace fuel w1) as (h & Hh & Ht). simpl in Hh.
  pose proof (pull_kind_not_base _ Hh) as Hno.
  destruct (pull fs fuel w1) as [[[]|e|] w2]; simpl in *.
  - assert (trace (call_base SuperDownload super_download w2).2
            = trace w2 ++ [SuperDownload]) as Hbase.
    { cbv [call_base bind emit get_repo put_repo lift_result ret throw repo
           backend trace]. destruct w2 as [r2 b2 t2]. simpl.
      by destruct (super_download r2) as [[err|[]] r3]. }
    exists (CheckInitialized :: LogInfo "pull from webdav" :: h
            ++ [LogInfo "pull done"; SuperDownload]).
    split.
    { rewrite Hbase, Ht. rewrite <- !app_assoc. simpl.
      by rewrite <- !app_assoc. }
    intros t1 t2 H.
    assert (CheckInitialized :: LogInfo "pull from webdav" :: h
              ++ [LogInfo "pull done"; SuperDownload]
            = (CheckInitialized :: LogInfo "pull from webdav" :: h
               ++ [LogInfo "pull done"]) ++ [SuperDownload]) as E.
    { simpl. by rewrite <- app_assoc. }
    rewrite E in H. clear E.
    apply split_at_last in H as [-> ->].
    + split; [done|]. split; [|done].
      change (CheckInitialized :: LogInfo "pull from webdav"
              :: h ++ [LogInfo "pull done"])
        with ((CheckInitialized :: LogInfo "pull from webdav" :: h)
              ++ [LogInfo "pull done"]).
      apply last_snoc.
    + intros Hin. apply elem_of_cons in Hin as [?|Hin]; [done|].
      apply elem_of_cons in Hin as [?|Hin]; [done|].
      apply elem_of_app in Hin as [Hin|Hin]; [done|].
      apply elem_of_cons in Hin as [?|Hin]; [done|].
      by apply elem_of_nil in Hin.
  - exists (CheckInitialized :: LogInfo "pull from webdav" :: h).
    split; [by rewrite Ht, <- !app_assoc|]. intros t1 t2 H. exfalso.
    assert (SuperDownload ∈ CheckInitialized :: LogInfo "pull from webdav" :: h)
      as Hin.
    { rewrite H. apply elem_of_app. right. apply elem_of_cons. by left. }
    apply elem_of_cons in Hin as [?|Hin]; [done|].
    apply elem_of_cons in Hin as [?|Hin]; [done|]. done.
  - exists (CheckInitialized :: LogInfo "pull from webdav" :: h).
    split; [by rewrite Ht, <- !app_assoc|]. intros t1 t2 H. exfalso.
    assert (SuperDownload ∈ CheckInitialized :: LogInfo "pull from webdav" :: h)
      as Hin.
    { rewrite H. apply elem_of_app. right. apply elem_of_cons. by left. }
    apply elem_of_cons in Hin as [?|Hin]; [done|].
    apply elem_of_cons in Hin as [?|Hin]; [done|]. done.
Qed.

(** *** [upload] *)

(** X11: in [upload] the base class comes first: no request is sent to the
    server before the base class's [upload] was called, and when that one
    throws, none is sent at all and the server is as before. *)
Theorem upload_order (w : W) :
  let up := upload fs globby super_upload w in
  ∃ t, trace up.2 = trace w ++ t
       ∧ (∀ t1 e t2, t = t1 ++ e :: t2 → ¬ no_request e → SuperUpload ∈ t1)
       ∧ (∀ err, (super_upload (repo w)).1 = inl err →
            Forall no_request t ∧ backend up.2 = backend w).
Proof.
  intros up. subst up. unfold upload. unfold bind at 1.
  unfold checkInitialized.
  cbv [bind emit get_repo ret throw repo]. destruct w as [r b t0]. simpl.
  destruct (initialized r).
  2:{ exists [CheckInitialized]. split; [done|]. split.
      - intros t1 e t2 H Hreq.
        destruct t1 as [|a [|a' t1]]; [|discriminate..].
        injection H as <- _. by destruct Hreq.
      - intros err _. split; [|done]. by apply Forall_singleton. }
  set (P := push fs globby).
  assert (emits (λ _ : event, True) P) as HP by apply CheckProofs.emits_webdav_push.
  clearbody P.
  cbv [call_base bind emit get_repo put_repo lift_result ret throw]. simpl.
  destruct (super_upload r) as [[err|[]] r1]; simpl.
  - exists [CheckInitialized; SuperUpload]. split; [by rewrite <- app_assoc|].
    split.
    + intros t1 e t2 H Hreq.
      destruct t1 as [|a [|a' [|a'' t1]]]; [| |discriminate..].
      * injection H as <- _. by destruct Hreq.
      * injection H as _ <- _. by destruct Hreq.
    + intros err' _. split; [|done]. by repeat constructor.
  - destruct (HP (World r1 b ((t0 ++ [CheckInitialized]) ++ [SuperUpload])))
      as (tp & Htp & _).
    exists (CheckInitialized :: SuperUpload :: tp). split.
    { rewrite Htp. simpl. by rewrite <- !app_assoc. }
    split; [|by intros err' [=]].
    intros t1 e t2 H Hreq.
    destruct t1 as [|a [|a' t1]].
    + injection H as <- _. by destruct Hreq.
    + injection H as _ <- _. by destruct Hreq.
    + injection H as _ <- _. apply elem_of_cons. right. apply elem_of_cons.
      by left.
Qed.

End Proofs.

(** A store that answers: [initialize] sets the flag through the base
    class. *)
Lemma initialize_healthy_example :
  let w := Examples.webdav_world false Examples.mirror Examples.store in
  (initialize Store.store_fs tmp_skip base_initialize w).1 = Returned tt
  ∧ initialized (repo (initialize Store.store_fs tmp_skip base_initialize w).2)
    = true.
Proof.
  intros w.
  destruct (initialize_healthy Store.store_fs tmp_skip base_initialize w
              Examples.mirror (mkStat EmptyString true) Examples.store)
    as (H1 & H2 & _); [done|done|].
  split; [exact H1|]. rewrite H2. done.
Defined.

(** The temporary repository can not be set up: the server is not asked. *)
Lemma initialize_temporary_failure_example :
  let w := Examples.webdav_world false Examples.mirror Examples.store in
  (initialize Store.store_fs (tmp_fail Examples.refused) base_initialize w).1
  = Thrown Examples.refused
  ∧ trace (initialize Store.store_fs (tmp_fail Examples.refused)
             base_initialize w).2 = [TemporaryInitialize].
Proof.
  intros w.
  destruct (initialize_temporary_failure Store.store_fs
              (tmp_fail Examples.refused) base_initialize w Examples.refused
              Examples.mirror) as (H1 & _ & _ & H4); [done|].
  split; [exact H1|exact H4].
Defined.

End LifecycleMore.

(** ** More on the Git backend *)

Module GitMore.
Import Trace MonadFacts Coverage LocalGit.

(** *** [fse.ensureDir] on the disk *)

Lemma is_dir_lookup (d : Disk) (p : list string) :
  d !! p = Some Dir → is_dir d p = true.
Proof.
  intros H. unfold is_dir. apply orb_true_iff. right.
  by apply bool_decide_eq_true.
Qed.

Lemma disk_mkdirs_grows (rest : list string) :
  ∀ (pre : list string) (d d' : Disk),
    disk_mkdirs pre rest d = inr d' → d ⊆ d'.
Proof.
  induction rest as [|n rest IH]; intros pre d d'; simpl.
  { by intros [= <-]. }
  destruct (d !! (pre ++ [n])) as [[data|]|] eqn:E; [done| |].
  - apply IH.
  - intros H. apply IH in H. etrans; [|exact H]. by apply insert_subseteq.
Qed.

Lemma disk_mkdirs_is_dir (rest : list string) :
  ∀ (pre : list string) (d d' : Disk),
    disk_mkdirs pre rest d = inr d' → is_dir d pre = true →
    is_dir d' (pre ++ rest) = true.
Proof.
  induction rest as [|n rest IH]; intros pre d d'; simpl.
  { intros [= <-]. by rewrite app_nil_r. }
  destruct (d !! (pre ++ [n])) as [[data|]|] eqn:E; [done| |]; intros H _.
  - apply IH in H; [|by apply is_dir_lookup]. by rewrite <- app_assoc in H.
  - apply IH in H; [|apply is_dir_lookup, lookup_insert_eq].
    by rewrite <- app_assoc in H.
Qed.

Section Proofs.
Context {Repo : Type}.
Variable git : SimpleGit Repo.

Abbreviation W := (world (fields Repo)).

(** *** [pull] *)

Lemma pull_run (w : W) :
  let root := rootPath (repo w) in
  let br := branch (backend w) in
  let made := [LMkdirs root; GCwd root; GCheckIsRepo] in
  pull git w =
  match disk_mkdirs [] root (disk (repo w)) with
  | inl e => (Thrown e, World (repo w) (backend w) (trace w ++ [LMkdirs root]))
  | inr d1 =>
      let r1 := set_disk d1 (repo w) in
      match cwd git root (git_state (backend w)) with
      | (inl e, g1) =>
          (Thrown e,
           World r1 (mkFields br g1) (trace w ++ [LMkdirs root; GCwd root]))
      | (inr _, g1) =>
          match checkIsRepo git d1 g1 with
          | (inl e, g2) => (Thrown e, World r1 (mkFields br g2) (trace w ++ made))
          | (inr true, g2) =>
              (Returned true, World r1 (mkFields br g2) (trace w ++ made))
          | (inr false, g2) =>
              (match (init git br d1 g2).1 with
               | inl e => Thrown e
               | inr _ => Returned true
               end,
               World r1 (mkFields br (init git br d1 g2).2)
                 (trace w ++ made
                  ++ [LogInfo ("creating git at " +:+ Uri_path root); GInit br]))
          end
      end
  end.
Proof.
  destruct w as [r [br g] t]. unfold pull.
  cbv [fse_ensureDir fs_mkdir_recursive update_disk git_cwd git_checkIsRepo
       git_init command Logger_info bind emit get_repo get_backend put_repo
       put_backend lift_result ret throw]. simpl.
  destruct (disk_mkdirs [] (rootPath r) (disk r)) as [e|d1]; simpl; [done|].
  destruct (cwd git (rootPath r) g) as [[e|[]] g1]; simpl.
  { by rewrite <- !app_assoc. }
  destruct (checkIsRepo git d1 g1) as [[e|[|]] g2]; simpl.
  - by rewrite <- !app_assoc.
  - by rewrite <- !app_assoc.
  - destruct (init git br d1 g2) as [[e|[]] g3]; simpl;
      by rewrite <- !app_assoc.
Qed.

(** X12: [pull] of the Git backend makes sure that the root directory is
    there before it turns to Git: when the directory can not be made, no
    Git command is issued; from the first Git command on the root is a
    directory.  Nothing that was on the disk is removed or overwritten.  The
    repository is initialized only after [checkIsRepo] answered, and with
    the branch of the settings; a pull that returns has asked
    [checkIsRepo]. *)
Theorem pull_prepares_repository (w : W) :
  let root := rootPath (repo w) in
  let run := pull git w in
  ∃ t, trace run.2 = trace w ++ LMkdirs root :: t
       ∧ disk (repo w) ⊆ disk (repo run.2)
       ∧ (t ≠ [] → is_dir (disk (repo run.2)) root = true)
       ∧ (t = [] ∨ t = [GCwd root] ∨ t = [GCwd root; GCheckIsRepo]
          ∨ t = [GCwd root; GCheckIsRepo;
                 LogInfo ("creating git at " +:+ Uri_path root);
                 GInit (branch (backend w))])
       ∧ (run.1 = Returned true → [GCwd root; GCheckIsRepo] `prefix_of` t).
Proof.
  intros root run. subst run. rewrite pull_run. fold root.
  destruct (disk_mkdirs [] root (disk (repo w))) as [e|d1] eqn:Hmk.
  { exists []. simpl. split; [done|]. split; [done|]. split; [done|].
    split; [by left|done]. }
  pose proof (disk_mkdirs_grows _ _ _ _ Hmk) as Hsub.
  pose proof (disk_mkdirs_is_dir _ _ _ _ Hmk eq_refl) as Hdir. simpl in Hdir.
  destruct (cwd git root _) as [[e|[]] g1]; simpl.
  { exists [GCwd root]. repeat split; try done. by right; left. }
  destruct (checkIsRepo git d1 g1) as [[e|[|]] g2]; simpl.
  - exists [GCwd root; GCheckIsRepo]. repeat split; try done.
    by right; right; left.
  - exists [GCwd root; GCheckIsRepo]. repeat split; try done.
    by right; right; left.
  - eexists. split; [reflexivity|]. repeat split; try done.
    + by right; right; right.
    + intros _. by eexists.
Qed.


(** *** [initialize] *)




End Proofs.


End GitMore.

(** ** The push on a store, and a pull after it *)

Module StoreMore.
Import Trace MonadFacts Coverage WebDAV Store.

Abbreviation WS := (world (fields Disk)).
Abbreviation cache w := (exists_cache (backend w)).

(** *** The store under [mkdir] and [writeFile] *)

Lemma is_dir_mono (r r' : Disk) (p : Uri) :
  r ⊆ r' → is_dir r p = true → is_dir r' p = true.
Proof.
  intros Hsub [->|H]%PullProofs.is_dir_spec; apply PullProofs.is_dir_spec;
    [by left|right]. by eapply lookup_weaken.
Qed.

Lemma is_dir_insert_ne (r : Disk) (k p : Uri) (x : node) :
  p ≠ k → is_dir (<[k := x]> r) p = is_dir r p.
Proof. intros Hne. unfold is_dir. by rewrite lookup_insert_ne. Qed.

Lemma is_dir_file (r : Disk) (p : Uri) :
  p ≠ [] → r !! p ≠ Some Dir → is_dir r p = false.
Proof.
  intros Hne Hp. unfold is_dir.
  by rewrite !bool_decide_eq_false_2.
Qed.

Lemma cache_sound_mono (c : gmap Uri bool) (r r' : Disk) :
  (∀ p, is_dir r p = true → is_dir r' p = true) →
  cache_sound c r → cache_sound c r'.
Proof. intros Hmono Hc p Hp. by apply Hmono, Hc. Qed.

Lemma cache_sound_mark (c : gmap Uri bool) (r : Disk) (dir : Uri) :
  is_dir r dir = true → cache_sound c r →
  cache_sound (<[dir := true]> c) r.
Proof.
  intros Hd Hc p. unfold cached.
  destruct (decide (p = dir)) as [->|Hne]; [done|].
  rewrite lookup_insert_ne by done. apply Hc.
Qed.

Lemma cache_sound_empty (r : Disk) : cache_sound ∅ r.
Proof. intros p. unfold cached. by rewrite lookup_empty. Qed.

Lemma well_formed_mkdir (r : Disk) (dir : Uri) :
  well_formed r → dir ≠ [] → is_dir r (removelast dir) = true →
  r !! dir = None → well_formed (<[dir := Dir]> r).
Proof.
  intros [Hroot Hall] Hne Hparent Hnone.
  assert (r ⊆ <[dir := Dir]> r) as Hsub by by apply insert_subseteq.
  split; [by rewrite lookup_insert_ne|].
  apply map_Forall_insert_2; simpl; [by eapply is_dir_mono|].
  intros k x Hk. simpl. eapply is_dir_mono; [done|]. by apply (Hall k x).
Qed.

Lemma removelast_ne {A : Type} (l : list A) : l ≠ [] → removelast l ≠ l.
Proof.
  intros Hne H. pose proof (PushProofs.removelast_shorter l Hne) as Hlt.
  rewrite H in Hlt. lia.
Qed.

Lemma well_formed_write (r : Disk) (f : Uri) (data : string) :
  well_formed r → f ≠ [] → is_dir r f = false →
  is_dir r (removelast f) = true → well_formed (<[f := File data]> r).
Proof.
  intros [Hroot Hall] Hne Hfile Hparent.
  split; [by rewrite lookup_insert_ne|].
  apply map_Forall_insert_2; simpl.
  { rewrite is_dir_insert_ne; [done|]. by apply removelast_ne. }
  intros k x Hk. simpl. rewrite is_dir_insert_ne; [by apply (Hall k x)|].
  intros Heq. specialize (Hall k x Hk). simpl in Hall. congruence.
Qed.

(** *** [ensureDir] on the store *)

Lemma settle_store (dir : Uri) (w : WS) :
  let r := remote (backend w) in
  (dir ≠ [] → is_dir r (removelast dir) = true) →
  (∀ data, r !! dir ≠ Some (File data)) →
  ∃ w', settle store_fs dir w = (Returned tt, w')
        ∧ repo w' = repo w
        ∧ cache w' = <[dir := true]> (cache w)
        ∧ ((remote (backend w') = r ∧ is_dir r dir = true)
           ∨ (dir ≠ [] ∧ r !! dir = None
              ∧ remote (backend w') = <[dir := Dir]> r)).
Proof.
  destruct w as [rp [u r c] t]. simpl. intros Hparent Hnofile.
  cbv [settle this_fs_stat this_fs_mkdir request mark try_catch bind
       get_backend put_backend emit lift_result ret throw stat mkdir store_fs
       store_stat store_mkdir store_update]. simpl.
  destruct (present r dir) eqn:Hp; simpl.
  - eexists. split; [reflexivity|]. simpl. split; [done|]. split; [done|].
    left. split; [done|]. apply PullProofs.is_dir_spec.
    unfold present in Hp. apply orb_true_iff in Hp as [Hp|Hp].
    + left. by apply bool_decide_eq_true in Hp.
    + right. apply bool_decide_eq_true in Hp as [[data|] Hx]; [|done].
      by destruct (Hnofile data).
  - apply PullProofs.present_false in Hp as [Hne Hnone].
    unfold disk_mkdir.
    rewrite (proj2 (PullProofs.present_false r dir) (conj Hne Hnone)).
    rewrite (Hparent Hne). simpl.
    eexists. split; [reflexivity|]. simpl. split; [done|]. split; [done|].
    right. done.
Qed.

Lemma ensureDir_store (fuel : nat) :
  ∀ (dir : Uri) (w : WS),
    let r := remote (backend w) in
    length dir < fuel → well_formed r → cache_sound (cache w) r →
    no_file_above r dir →
    ∃ w', ensureDir_fuel store_fs fuel dir w = (Returned tt, w')
          ∧ repo w' = repo w
          ∧ well_formed (remote (backend w'))
          ∧ cache_sound (cache w') (remote (backend w'))
          ∧ is_dir (remote (backend w')) dir = true
          ∧ grown_along r (remote (backend w')) dir.
Proof.
  induction fuel as [|fuel IH]; intros dir w r Hlen Hwf Hc Hnf; [lia|].
  rewrite PushProofs.ensureDir_fuel_S.
  destruct (cached (cache w) dir) eqn:Hcached.
  { exists w. do 4 (split; [done|]). split; [by apply Hc|].
    split; [done|]. intros k Hk [x Hx]. fold r in Hx. congruence. }
  assert (∃ w1, (if bool_decide (dir ≠ Uri_root)
                 then ensureDir_fuel store_fs fuel (Uri_parent dir)
                 else ret tt) w = (Returned tt, w1)
                ∧ repo w1 = repo w
                ∧ well_formed (remote (backend w1))
                ∧ cache_sound (cache w1) (remote (backend w1))
                ∧ (dir ≠ [] → is_dir (remote (backend w1)) (removelast dir) = true)
                ∧ grown_along r (remote (backend w1)) (removelast dir))
    as (w1 & Hrun1 & Hrepo1 & Hwf1 & Hc1 & Hparent1 & Hsub1 & Hnew1).
  { case_bool_decide as Hroot.
    - destruct (IH (Uri_parent dir) w) as (w1 & H1 & H2 & H3 & H4 & H5 & H6);
        try done.
      + pose proof (PushProofs.removelast_shorter dir Hroot).
        unfold Uri_parent. lia.
      + intros a data Ha. apply Hnf. etrans; [done|].
        apply PushProofs.removelast_prefix.
      + exists w1. do 4 (split; [done|]). split; [done|]. apply H6.
    - exists w. do 4 (split; [done|]). split.
      { intros Hne. by destruct Hne. }
      split; [done|]. intros k Hk [x Hx]. fold r in Hx. congruence. }
  rewrite Hrun1.
  destruct (settle_store dir w1) as (w2 & Hrun2 & Hrepo2 & Hc2 & Hcases).
  { done. }
  { intros data Hx. destruct (r !! dir) as [x|] eqn:Hr.
    - pose proof (lookup_weaken _ _ _ _ Hr Hsub1) as Hx'.
      rewrite Hx in Hx'. injection Hx' as <-. by apply (Hnf dir data).
    - destruct (Hnew1 dir Hr) as [Hd _]; [by eexists|]. congruence. }
  exists w2. split; [done|]. split; [congruence|].
  destruct Hcases as [[Hr2 Hdir]|(Hne & Hnone & Hr2)]; rewrite Hr2, Hc2.
  - split; [done|]. split; [by apply cache_sound_mark|]. split; [done|].
    split; [done|]. intros k Hk Hsome.
    destruct (Hnew1 k Hk Hsome) as [Hd Hpre]. split; [done|].
    etrans; [done|]. apply PushProofs.removelast_prefix.
  - assert (remote (backend w1) ⊆ <[dir := Dir]> (remote (backend w1)))
      as Hsub2 by by apply insert_subseteq.
    split; [by apply well_formed_mkdir; auto|]. split.
    { apply cache_sound_mark; [apply PullProofs.is_dir_spec; right;
                               apply lookup_insert_eq|].
      eapply cache_sound_mono; [|done]. intros p. by apply is_dir_mono. }
    split; [apply PullProofs.is_dir_spec; right; apply lookup_insert_eq|].
    split; [by etrans|]. intros k Hk Hsome.
    destruct (decide (k = dir)) as [->|Hkd].
    + by rewrite lookup_insert_eq.
    + rewrite lookup_insert_ne in Hsome |- * by done.
      destruct (Hnew1 k Hk Hsome) as [Hd Hpre]. split; [done|].
      etrans; [done|]. apply PushProofs.removelast_prefix.
Qed.

(** *** [pushFile] and the loop of [push] on the store *)

Lemma pushFile_store (root f : list string) (data : string) (w : WS) :
  let r := remote (backend w) in
  well_formed r → cache_sound (cache w) r → writable r f →
  disk (repo w) !! path_join root f = Some (File data) →
  ∃ w', pushFile store_fs (path_join root f) (Uri_file f) w = (Returned tt, w')
        ∧ repo w' = repo w
        ∧ well_formed (remote (backend w'))
        ∧ cache_sound (cache w') (remote (backend w'))
        ∧ remote (backend w') !! f = Some (File data)
        ∧ (∀ k x, k ≠ f → r !! k = Some x → remote (backend w') !! k = Some x)
        ∧ (∀ k, r !! k = None → is_Some (remote (backend w') !! k) →
             k = f ∨ (remote (backend w') !! k = Some Dir
                      ∧ k `prefix_of` removelast f)).
Proof.
  intros r Hwf Hc (Hne & Hnodir & Hnf) Hlocal.
  rewrite PushMore.pushFile_run. unfold Uri_file, Uri_parent in *.
  set (w1 := World (repo w) (backend w) _).
  destruct (ensureDir_store (S (length (removelast f))) (removelast f) w1)
    as (w2 & Hrun2 & Hrepo2 & Hwf2 & Hc2 & Hdir2 & Hsub2 & Hnew2);
    [lia|done..|].
  unfold ensureDir, Uri_parent. rewrite Hrun2.
  rewrite Hrepo2. simpl. unfold disk_readFile. rewrite Hlocal.
  assert (remote (backend w2) !! f ≠ Some Dir) as Hnodir2.
  { intros Hx. destruct (r !! f) as [x|] eqn:Hr.
    - pose proof (lookup_weaken _ _ _ _ Hr Hsub2) as Hx'. congruence.
    - destruct (Hnew2 f Hr) as [_ Hpre]; [by eexists|].
      apply prefix_length in Hpre.
      pose proof (PushProofs.removelast_shorter f Hne). lia. }
  pose proof (is_dir_file _ f Hne Hnodir2) as Hfile2.
  destruct w2 as [rp2 [u2 r2 c2] t2]. simpl in *.
  cbv [this_fs_writeFile request bind get_backend put_backend emit
       lift_result ret throw writeFile store_fs store_writeFile store_update].
  simpl. unfold disk_writeFile. rewrite Hfile2, Hdir2. simpl.
  eexists. split; [reflexivity|]. simpl. split; [done|].
  split; [by apply well_formed_write|]. split.
  { eapply cache_sound_mono; [|done]. intros p Hp.
    rewrite is_dir_insert_ne; [done|]. intros ->. congruence. }
  split; [apply lookup_insert_eq|]. split.
  - intros k x Hk Hx. rewrite lookup_insert_ne by done.
    by eapply lookup_weaken.
  - intros k Hk Hsome. destruct (decide (k = f)) as [->|Hkf]; [by left|].
    right. rewrite lookup_insert_ne in Hsome |- * by done.
    by apply Hnew2.
Qed.

Lemma writable_after (r r' : Disk) (f g : Uri) (data : string) :
  writable r g → f ≠ [] → (f `prefix_of` g → f = g) → (g `prefix_of` f → g = f) →
  r' !! f = Some (File data) →
  (∀ k x, k ≠ f → r !! k = Some x → r' !! k = Some x) →
  (∀ k, r !! k = None → is_Some (r' !! k) →
     k = f ∨ (r' !! k = Some Dir ∧ k `prefix_of` removelast f)) →
  writable r' g.
Proof.
  intros (Hne & Hnodir & Hnf) Hfne Hfg Hgf Hf Hkeep Hnew.
  split; [done|]. split.
  - intros Hx. destruct (decide (g = f)) as [->|Hgne]; [congruence|].
    destruct (r !! g) as [x|] eqn:Hr.
    + rewrite (Hkeep g x Hgne Hr) in Hx. congruence.
    + destruct (Hnew g Hr) as [?|[_ Hpre]]; [by eexists|done|].
      apply Hgne, Hgf. etrans; [done|]. apply PushProofs.removelast_prefix.
  - intros a data' Ha Hx.
    assert (a ≠ f) as Haf.
    { intros ->. assert (f = g) as <-.
      { apply Hfg. etrans; [done|]. apply PushProofs.removelast_prefix. }
      apply prefix_length in Ha.
      pose proof (PushProofs.removelast_shorter f Hfne). unfold Uri_parent in Ha.
      lia. }
    destruct (r !! a) as [x|] eqn:Hr.
    + rewrite (Hkeep a x Haf Hr) in Hx. injection Hx as ->.
      by apply (Hnf a data').
    + destruct (Hnew a Hr) as [?|[Hd _]]; [by eexists|done|congruence].
Qed.

Lemma push_loop_store (root : list string) (d : Disk) :
  ∀ (files : list (list string)) (w : WS),
    let r := remote (backend w) in
    disk (repo w) = d → well_formed r → cache_sound (cache w) r →
    (∀ f, f ∈ files → writable r f) → unrelated files →
    readable d root files →
    ∃ w', for_of files
            (λ file, pushFile store_fs (path_join root file) (Uri_file file)) w
          = (Returned tt, w')
          ∧ repo w' = repo w
          ∧ well_formed (remote (backend w'))
          ∧ (∀ f, f ∈ files → remote (backend w') !! f = d !! path_join root f)
          ∧ (∀ k x, r !! k = Some x → k ∉ files →
               remote (backend w') !! k = Some x)
          ∧ (∀ k, is_Some (remote (backend w') !! k) →
               is_Some (r !! k) ∨ ∃ f, f ∈ files ∧ k `prefix_of` f).
Proof.
  induction files as [|f files IH]; intros w r Hd Hwf Hc Hw Hun Hread.
  { exists w. simpl. do 3 (split; [done|]). split; [|split].
    - intros f Hf. by apply elem_of_nil in Hf.
    - done.
    - intros k Hk. by left. }
  destruct (Hread f) as (data & Hlocal); [by left|].
  destruct (pushFile_store root f data w) as
    (w1 & Hrun1 & Hrepo1 & Hwf1 & Hc1 & Hf1 & Hkeep1 & Hnew1); try done.
  { apply Hw. by left. }
  { by rewrite Hd. }
  destruct (IH w1) as (w' & Hrun & Hrepo & Hwf' & Hfiles & Hkeep & Hnew).
  { by rewrite Hrepo1. }
  { done. }
  { done. }
  { intros g Hg. eapply (writable_after r _ f g data); try done.
    - apply Hw. by right.
    - apply (Hw f). by left.
    - intros Hpre. apply Hun; [by left|by right|done].
    - intros Hpre. apply Hun; [by right|by left|done]. }
  { intros a b Ha Hb. apply Hun; by right. }
  { intros g Hg. apply Hread. by right. }
  exists w'. simpl. unfold bind at 1. rewrite Hrun1. split; [done|].
  split; [congruence|]. split; [done|]. split; [|split].
  - intros g Hg. destruct (decide (g ∈ files)) as [Hin|Hout]; [by apply Hfiles|].
    apply elem_of_cons in Hg as [->|Hg]; [|done].
    rewrite Hlocal. by apply Hkeep.
  - intros k x Hk Hout. apply not_elem_of_cons in Hout as [Hkf Hout].
    apply Hkeep; [|done]. by apply Hkeep1.
  - intros k Hk. destruct (Hnew k Hk) as [Hsome|(g & Hg & Hpre)].
    + destruct (r !! k) as [x|] eqn:Hr; [left; by eexists|]. right.
      destruct (Hnew1 k Hr Hsome) as [->|[_ Hpre]].
      * exists f. split; [by left|done].
      * exists f. split; [by left|]. etrans; [done|].
        apply PushProofs.removelast_prefix.
    + right. exists g. split; [by right|done].
Qed.

Lemma push_store_run (globby : list string → Disk → list (list string))
    (w : WS) :
  let r := remote (backend w) in
  let root := rootPath (repo w) in
  let d := disk (repo w) in
  let files := globby root d in
  well_formed r → readable d root files → unrelated files →
  (∀ f, f ∈ files → writable r f) →
  ∃ w', push store_fs globby w = (Returned tt, w')
        ∧ repo w' = repo w
        ∧ well_formed (remote (backend w'))
        ∧ (∀ f, f ∈ files → remote (backend w') !! f = d !! path_join root f)
        ∧ (∀ k x, r !! k = Some x → k ∉ files →
             remote (backend w') !! k = Some x)
        ∧ (∀ k, is_Some (remote (backend w') !! k) →
             is_Some (r !! k) ∨ ∃ f, f ∈ files ∧ k `prefix_of` f).
Proof.
  intros r root d files Hwf Hread Hun Hw. rewrite PushMore.push_unfold.
  fold root d files.
  set (w0 := World (repo w) (mkFields (url (backend w)) (remote (backend w)) ∅)
               (trace w ++ [LogInfo "push to webdav"])).
  destruct (push_loop_store root d files w0)
    as (w1 & Hrun & Hrepo & Hwf1 & Hfiles & Hkeep & Hnew);
    try done; try apply cache_sound_empty.
  unfold bind. rewrite Hrun. simpl.
  eexists. split; [reflexivity|]. simpl. done.
Qed.

(** X16: a push to a store.  When the mirror holds a file at every listed
    path, no listed path lies below another one, and the store has no
    directory where a listed file goes and no file where one of its
    directories has to be, the push returns, the store is still a tree,
    and it holds every listed file with the content of the mirror.  Nothing
    is removed from the store: what it held at a path that is not listed is
    still there; and everything new lies on the way to a listed file. *)
Theorem push_to_store (globby : list string → Disk → list (list string))
    (w : WS) :
  let r := remote (backend w) in
  let root := rootPath (repo w) in
  let d := disk (repo w) in
  let files := globby root d in
  well_formed r → readable d root files → unrelated files →
  (∀ f, f ∈ files → writable r f) →
  let run := push store_fs globby w in
  let r' := remote (backend run.2) in
  run.1 = Returned tt
  ∧ well_formed r'
  ∧ (∀ f, f ∈ files → r' !! f = d !! path_join root f)
  ∧ (∀ k x, r !! k = Some x → k ∉ files → r' !! k = Some x)
  ∧ (∀ k, is_Some (r' !! k) →
       is_Some (r !! k) ∨ ∃ f, f ∈ files ∧ k `prefix_of` f).
Proof.
  intros r root d files Hwf Hread Hun Hw run r'. subst run r'.
  destruct (push_store_run globby w Hwf Hread Hun Hw)
    as (w' & Hrun & _ & H). rewrite Hrun. done.
Qed.

(** *** A pull after the push *)

Lemma prefix_plain (k f : list string) :
  k `prefix_of` f → Forall (λ n, plain n = true) f →
  Forall (λ n, plain n = true) k.
Proof. intros [k' ->] H. by apply Forall_app in H as [H _]. Qed.

(** X17: a pull after a push gives the listed files back as text.  Under
    the conditions of the push to a store, when the names on the store and
    in the listed paths are plain names, and with enough fuel for the depth
    of the store after the push, the pull returns, the store is as the push
    left it, and the mirror holds every listed file with the content it had
    before the push, but for a byte order mark at its start, which is
    dropped.  What the mirror holds besides was on the store before the
    push or is a directory on the way to a listed file; the disk outside
    the mirror is as before. *)
Theorem push_then_pull (globby : list string → Disk → list (list string))
    (w : WS) (fuel : nat) :
  let r := remote (backend w) in
  let root := rootPath (repo w) in
  let d := disk (repo w) in
  let files := globby root d in
  well_formed r → plain_names r →
  readable d root files → unrelated files →
  (∀ f, f ∈ files → writable r f) →
  (∀ f, f ∈ files → Forall (λ n, plain n = true) f) →
  root ≠ [] → is_dir d (removelast root) = true →
  let w1 := (push store_fs globby w).2 in
  depth (remote (backend w1)) ≤ fuel →
  let run := pull store_fs fuel w1 in
  run.1 = Returned tt
  ∧ remote (backend run.2) = remote (backend w1)
  ∧ (∀ f, f ∈ files →
       disk (repo run.2) !! path_join root f
       = text_node <$> d !! path_join root f)
  ∧ (∀ rel, rel ≠ [] → is_Some (disk (repo run.2) !! (root ++ rel)) →
       is_Some (r !! rel) ∨ ∃ f, f ∈ files ∧ rel `prefix_of` f)
  ∧ (∀ k, ¬ root `prefix_of` k → disk (repo run.2) !! k = d !! k).
Proof.
  intros r root d files Hwf Hnames Hread Hun Hw Hplain Hroot Hparent w1
    Hdepth run.
  destruct (push_store_run globby w Hwf Hread Hun Hw)
    as (w' & Hrun & Hrepo & Hwf' & Hfiles & Hkeep & Hnew).
  subst run w1. rewrite Hrun in *. simpl in *.
  assert (plain_names (remote (backend w'))) as Hnames'.
  { intros k x Hk. simpl.
    destruct (Hnew k) as [[y Hy]|(f & Hf & Hpre)]; [by eexists| |].
    - by apply (Hnames k y).
    - eapply prefix_plain; [done|]. by apply Hplain. }
  destruct (PullProofs.pull_from_store w' fuel) as (H1 & H2 & _ & H3 & H4);
    [done|done|done|by rewrite Hrepo|by rewrite Hrepo|].
  rewrite Hrepo in H3, H4. fold root d in H3, H4.
  split; [done|]. split; [done|]. split; [|split].
  - intros f Hf.
    assert (path_join root f = root ++ f) as E.
    { apply PathFacts.path_join_plain. by apply Hplain. }
    rewrite E. rewrite H3; [|by destruct (Hw f Hf)].
    rewrite (Hfiles f Hf).
    exact (f_equal (λ p, text_node <$> d !! p) E).
  - intros rel Hrel Hsome. rewrite H3 in Hsome by done.
    apply fmap_is_Some in Hsome. by apply Hnew.
  - done.
Qed.

(** The first push of the example mirror to a server that holds nothing:
    the files and their directories arrive. *)
Lemma push_to_store_example :
  let run := push store_fs glob_all first_push_world in
  run.1 = Returned tt
  ∧ remote (backend run.2) !! ["a"; "b"; "x.json"] = Some (File "X").
Proof.
  assert (glob_all ["tmp"; "m"] Examples.mirror
          = [["z.json"]; ["a"; "b"; "y.json"]; ["a"; "b"; "x.json"]])
    as Hfiles by (by vm_compute).
  destruct (push_to_store glob_all first_push_world) as (H1 & _ & H3 & _).
  - apply (bool_decide_unpack _). by vm_compute.
  - intros f Hf. change (f ∈ glob_all ["tmp"; "m"] Examples.mirror) in Hf.
    rewrite Hfiles in Hf.
    apply elem_of_cons in Hf as [->|Hf]; [exists "Z"; by vm_compute|].
    apply elem_of_cons in Hf as [->|Hf]; [exists "Y"; by vm_compute|].
    apply elem_of_cons in Hf as [->|Hf]; [exists "X"; by vm_compute|].
    exfalso; exact (proj1 (elem_of_nil _) Hf).
  - intros f g Hf Hg.
    change (f ∈ glob_all ["tmp"; "m"] Examples.mirror) in Hf.
    change (g ∈ glob_all ["tmp"; "m"] Examples.mirror) in Hg.
    rewrite Hfiles in Hf, Hg.
    assert (Forall (λ f, Forall (λ g, f `prefix_of` g → f = g)
                      [["z.json"]; ["a"; "b"; "y.json"]; ["a"; "b"; "x.json"]])
              [["z.json"]; ["a"; "b"; "y.json"]; ["a"; "b"; "x.json"]]) as Hall.
    { apply (bool_decide_unpack _). by vm_compute. }
    rewrite Forall_forall in Hall. specialize (Hall f Hf).
    rewrite Forall_forall in Hall. exact (Hall g Hg).
  - intros f Hf. change (f ∈ glob_all ["tmp"; "m"] Examples.mirror) in Hf.
    rewrite Hfiles in Hf.
    assert (f ≠ []) as Hne.
    { repeat (apply elem_of_cons in Hf as [->|Hf]);
        [discriminate..|exfalso; exact (proj1 (elem_of_nil _) Hf)]. }
    split; [done|]. split; [simpl; by rewrite lookup_empty|].
    intros a data _. simpl. by rewrite lookup_empty.
  - split; [exact H1|].
    rewrite (H3 ["a"; "b"; "x.json"]); [by vm_compute|].
    change (["a"; "b"; "x.json"] ∈ glob_all ["tmp"; "m"] Examples.mirror).
    rewrite Hfiles. repeat constructor.
Defined.

(** The example mirror pushed to an empty server and pulled again: the
    files are back. *)
Lemma push_then_pull_example :
  let w1 := (push store_fs glob_all first_push_world).2 in
  (pull store_fs 3 w1).1 = Returned tt
  ∧ disk (repo (pull store_fs 3 w1).2) !! ["tmp"; "m"; "a"; "b"; "x.json"]
    = Some (File "X").
Proof.
  assert (glob_all ["tmp"; "m"] Examples.mirror
          = [["z.json"]; ["a"; "b"; "y.json"]; ["a"; "b"; "x.json"]])
    as Hfiles by (by vm_compute).
  destruct (push_then_pull glob_all first_push_world 3) as (H1 & _ & H3 & _).
  - apply (bool_decide_unpack _). by vm_compute.
  - apply map_Forall_empty.
  - intros f Hf. change (f ∈ glob_all ["tmp"; "m"] Examples.mirror) in Hf.
    rewrite Hfiles in Hf.
    apply elem_of_cons in Hf as [->|Hf]; [exists "Z"; by vm_compute|].
    apply elem_of_cons in Hf as [->|Hf]; [exists "Y"; by vm_compute|].
    apply elem_of_cons in Hf as [->|Hf]; [exists "X"; by vm_compute|].
    exfalso; exact (proj1 (elem_of_nil _) Hf).
  - intros f g Hf Hg.
    change (f ∈ glob_all ["tmp"; "m"] Examples.mirror) in Hf.
    change (g ∈ glob_all ["tmp"; "m"] Examples.mirror) in Hg.
    rewrite Hfiles in Hf, Hg.
    assert (Forall (λ f, Forall (λ g, f `prefix_of` g → f = g)
                      [["z.json"]; ["a"; "b"; "y.json"]; ["a"; "b"; "x.json"]])
              [["z.json"]; ["a"; "b"; "y.json"]; ["a"; "b"; "x.json"]]) as Hall.
    { apply (bool_decide_unpack _). by vm_compute. }
    rewrite Forall_forall in Hall. specialize (Hall f Hf).
    rewrite Forall_forall in Hall. exact (Hall g Hg).
  - intros f Hf. change (f ∈ glob_all ["tmp"; "m"] Examples.mirror) in Hf.
    rewrite Hfiles in Hf.
    assert (f ≠ []) as Hne.
    { repeat (apply elem_of_cons in Hf as [->|Hf]);
        [discriminate..|exfalso; exact (proj1 (elem_of_nil _) Hf)]. }
    split; [done|]. split; [simpl; by rewrite lookup_empty|].
    intros a data _. simpl. by rewrite lookup_empty.
  - intros f Hf. change (f ∈ glob_all ["tmp"; "m"] Examples.mirror) in Hf.
    rewrite Hfiles in Hf.
    assert (Forall (λ f, Forall (λ n, plain n = true) f)
              [["z.json"]; ["a"; "b"; "y.json"]; ["a"; "b"; "x.json"]]) as Hall.
    { apply (bool_decide_unpack _). by vm_compute. }
    rewrite Forall_forall in Hall. exact (Hall f Hf).
  - discriminate.
  - by vm_compute.
  - vm_compute. lia.
  - split; [exact H1|].
    transitivity (text_node <$> Examples.mirror !! ["tmp"; "m"; "a"; "b"; "x.json"]);
      [|by vm_compute].
    apply (H3 ["a"; "b"; "x.json"]).
    change (["a"; "b"; "x.json"] ∈ glob_all ["tmp"; "m"] Examples.mirror).
    rewrite Hfiles. repeat constructor.
Defined.

End StoreMore.
